(** * Ironium queues: sessions, publishing and the job processing loops

    A shallow embedding of [src/queues.js].  Two layers are modelled:

    - [Session]: the event-driven layer.  A session owns [_client], opens
      Fivebeans clients in [connect], and [request] races a command's
      callback against the client's [close] and [error] events.
    - [Queue]: the coroutine layer ([push], [once], [_processContinously],
      [_runAndDestroy]).  A generator run by [co] is a function on a world
      that holds the queue's fields, what the coroutine has done so far (its
      trace) and what will happen at its suspension points (its future). *)

From Stdlib Require Import ZArith String Ascii List Bool Lia.
From Stdlib Require Import DecimalString DecimalNat DecimalPos.
From stdpp Require Import base option list strings gmap.
Import ListNotations.

Local Open Scope Z_scope.
Local Open Scope string_scope.
Local Open Scope list_scope.

(** ** JavaScript values *)

(** The values that travel through the queue: jobs, payloads, command
    arguments and results.  Numbers are the integers plus [NaN]; a Buffer
    holds the bytes of its text. *)
#[warnings="-register-all"]
Inductive jsval : Type :=
| JUndefined
| JNull
| JBool (b : bool)
| JNum (z : Z)
| JNaN
| JStr (s : string)
| JBuffer (bytes : string)
| JArr (items : list jsval)
| JObj (fields : list (string * jsval)).

(** What the code throws and what promises reject with.  Fivebeans reports a
    broker error as a string (['TIMED_OUT'], ['NOT_FOUND']); everything else
    is an [Error] object with a [name] and a [message]. *)
Inductive error : Type :=
| StringError (code : string)
| ErrorObject (name message : string).

Definition Error (message : string) : error := ErrorObject "Error" message.
Definition AssertionError (message : string) : error :=
  ErrorObject "AssertionError" message.
Definition TypeError (message : string) : error := ErrorObject "TypeError" message.

(** [error.message]: undefined on a string. *)
Definition message (e : error) : option string :=
  match e with
  | StringError _ => None
  | ErrorObject _ m => Some m
  end.

(** [Error.prototype.toString]. *)
Definition error_toString (e : error) : string :=
  match e with
  | StringError s => s
  | ErrorObject n m =>
      if String.eqb n EmptyString then m
      else if String.eqb m EmptyString then n
      else n +:+ ": " +:+ m
  end.

(** [error == s] for a string [s]: a string compares as it is, an object
    through its [toString]. *)
Definition loose_eq_string (e : error) (s : string) : bool :=
  String.eqb (error_toString e) s.

Definition message_is (e : error) (s : string) : bool :=
  match message e with
  | Some m => String.eqb m s
  | None => false
  end.

(** [error == 'TIMED_OUT' || error.message == 'TIMED_OUT'], the test of
    [once] and of [_processContinously]. *)
Definition is_TIMED_OUT (e : error) : bool :=
  loose_eq_string e "TIMED_OUT" || message_is e "TIMED_OUT".

(** The error as a value, for the log. *)
Definition error_value (e : error) : jsval :=
  match e with
  | StringError s => JStr s
  | ErrorObject n m => JObj [("name", JStr n); ("message", JStr m)]
  end.

(** [if (error)], the test of a callback on its first argument: of the
    errors only the empty string is falsy. *)
Definition ToBoolean_error (e : error) : bool :=
  match e with
  | StringError s => negb (String.eqb s EmptyString)
  | ErrorObject _ _ => true
  end.

(** [ToBoolean], as [assert(job, ...)] applies it. *)
Definition ToBoolean (v : jsval) : bool :=
  match v with
  | JUndefined | JNull | JNaN => false
  | JBool b => b
  | JNum z => negb (Z.eqb z 0)
  | JStr s => negb (String.eqb s EmptyString)
  | JBuffer _ | JArr _ | JObj _ => true
  end.

Definition Z_to_string (z : Z) : string := NilZero.string_of_int (Z.to_int z).

Definition join_commas (parts : list string) : string :=
  match parts with
  | [] => EmptyString
  | p :: ps => fold_left (fun acc q => acc +:+ "," +:+ q) ps p
  end.

(** [value.toString()]: a [TypeError] on [undefined] and [null], the text of
    a Buffer, and the usual renderings otherwise. *)
Fixpoint toString (v : jsval) : error + string :=
  match v with
  | JUndefined => inl (TypeError "Cannot read property 'toString' of undefined")
  | JNull => inl (TypeError "Cannot read property 'toString' of null")
  | JBool true => inr "true"
  | JBool false => inr "false"
  | JNum z => inr (Z_to_string z)
  | JNaN => inr "NaN"
  | JStr s => inr s
  | JBuffer bytes => inr bytes
  | JArr items =>
      inr (join_commas
             (map (fun item => match toString item with
                               | inl _ => EmptyString
                               | inr s => s
                               end) items))
  | JObj _ => inr "[object Object]"
  end.

(** The built-in [JSON] object.  [JSON.stringify] gives a string, or
    [undefined] for a value without a JSON form; [JSON.parse] throws on text
    that is not JSON, which is [None] here. *)
Class JSON := {
  JSON_stringify : jsval -> jsval;
  JSON_parse : string -> option jsval
}.

(** ** An instance of [JSON]

    [JSON.stringify] and [JSON.parse] on the values above, with integers as
    the only numbers and without [\u] escapes. *)

Module CompactJSON.

Definition quote : ascii := ascii_of_nat 34.
Definition backslash : ascii := "\"%char.

Fixpoint escape (s : string) : string :=
  match s with
  | EmptyString => EmptyString
  | String a rest =>
      if Ascii.eqb a quote then String backslash (String quote (escape rest))
      else if Ascii.eqb a backslash then String backslash (String backslash (escape rest))
      else String a (escape rest)
  end.

Definition quoted (s : string) : string :=
  String quote (escape s +:+ String quote EmptyString).

(** The text of a value; [None] where [JSON.stringify] gives [undefined].
    An item without a text is [null] in an array and left out of an
    object. *)
Fixpoint text_of (v : jsval) : option string :=
  match v with
  | JUndefined => None
  | JNull | JNaN => Some "null"
  | JBool true => Some "true"
  | JBool false => Some "false"
  | JNum z => Some (Z_to_string z)
  | JStr s => Some (quoted s)
  | JBuffer bytes =>
      Some ("{" +:+ quoted "type" +:+ ":" +:+ quoted "Buffer" +:+ ","
            +:+ quoted "data" +:+ ":["
            +:+ join_commas (map (fun a => Z_to_string (Z.of_nat (nat_of_ascii a)))
                               (list_ascii_of_string bytes))
            +:+ "]}")
  | JArr items =>
      Some ("[" +:+ join_commas (map (fun item => default "null" (text_of item)) items)
            +:+ "]")
  | JObj fields =>
      Some ("{" +:+ join_commas
                      (omap (fun kv => match text_of (snd kv) with
                                       | Some t => Some (quoted (fst kv) +:+ ":" +:+ t)
                                       | None => None
                                       end) fields)
            +:+ "}")
  end.

Definition stringify (v : jsval) : jsval :=
  match text_of v with
  | Some t => JStr t
  | None => JUndefined
  end.

Definition is_space (a : ascii) : bool :=
  Ascii.eqb a " " || Ascii.eqb a "009" || Ascii.eqb a "010" || Ascii.eqb a "013".

Fixpoint skip_spaces (cs : list ascii) : list ascii :=
  match cs with
  | a :: rest => if is_space a then skip_spaces rest else cs
  | [] => []
  end.

Definition digit_of (a : ascii) : option Z :=
  let n := nat_of_ascii a in
  if (48 <=? n)%nat && (n <=? 57)%nat then Some (Z.of_nat (n - 48)) else None.

Fixpoint read_digits (acc : Z) (cs : list ascii) : Z * list ascii :=
  match cs with
  | a :: rest =>
      match digit_of a with
      | Some d => read_digits (10 * acc + d) rest
      | None => (acc, cs)
      end
  | [] => (acc, [])
  end.

(** An integer; a fraction or an exponent after it is not read. *)
Definition read_number (cs : list ascii) : option (Z * list ascii) :=
  let '(negative, cs) :=
    match cs with
    | a :: rest => if Ascii.eqb a "-" then (true, rest) else (false, cs)
    | [] => (false, cs)
    end in
  match cs with
  | a :: _ =>
      match digit_of a with
      | Some _ =>
          let '(n, rest) := read_digits 0 cs in
          match rest with
          | b :: _ =>
              if Ascii.eqb b "." || Ascii.eqb b "e" || Ascii.eqb b "E" then None
              else Some (if negative then - n else n, rest)
          | [] => Some (if negative then - n else n, rest)
          end
      | None => None
      end
  | [] => None
  end.

(** The characters of a string after its opening quote. *)
Fixpoint read_string (cs : list ascii) : option (string * list ascii) :=
  match cs with
  | [] => None
  | a :: rest =>
      if Ascii.eqb a quote then Some (EmptyString, rest)
      else if Ascii.eqb a backslash then
        match rest with
        | b :: rest' =>
            let unescaped :=
              if Ascii.eqb b quote then Some quote
              else if Ascii.eqb b backslash then Some backslash
              else if Ascii.eqb b "/" then Some "/"%char
              else if Ascii.eqb b "n" then Some "010"%char
              else if Ascii.eqb b "t" then Some "009"%char
              else if Ascii.eqb b "r" then Some "013"%char
              else None in
            match unescaped, read_string rest' with
            | Some c, Some (s, after) => Some (String c s, after)
            | _, _ => None
            end
        | [] => None
        end
      else
        match read_string rest with
        | Some (s, after) => Some (String a s, after)
        | None => None
        end
  end.

Definition expect (word : string) (v : jsval) (cs : list ascii) : option (jsval * list ascii) :=
  let w := list_ascii_of_string word in
  if String.eqb (string_of_list_ascii (take (length w) cs)) word
  then Some (v, drop (length w) cs)
  else None.

Fixpoint read_value (fuel : nat) (cs : list ascii) : option (jsval * list ascii) :=
  match fuel with
  | O => None
  | S fuel =>
      let read_items :=
        fix read_items (n : nat) (cs : list ascii) : option (list jsval * list ascii) :=
          match n with
          | O => None
          | S n =>
              match read_value fuel cs with
              | Some (v, rest) =>
                  match skip_spaces rest with
                  | a :: rest' =>
                      if Ascii.eqb a "," then
                        match read_items n rest' with
                        | Some (vs, after) => Some (v :: vs, after)
                        | None => None
                        end
                      else if Ascii.eqb a "]" then Some ([v], rest')
                      else None
                  | [] => None
                  end
              | None => None
              end
          end in
      let read_fields :=
        fix read_fields (n : nat) (cs : list ascii)
          : option (list (string * jsval) * list ascii) :=
          match n with
          | O => None
          | S n =>
              match skip_spaces cs with
              | q :: rest =>
                  if Ascii.eqb q quote then
                    match read_string rest with
                    | Some (k, rest) =>
                        match skip_spaces rest with
                        | c :: rest =>
                            if Ascii.eqb c ":" then
                              match read_value fuel rest with
                              | Some (v, rest) =>
                                  match skip_spaces rest with
                                  | a :: rest' =>
                                      if Ascii.eqb a "," then
                                        match read_fields n rest' with
                                        | Some (kvs, after) => Some ((k, v) :: kvs, after)
                                        | None => None
                                        end
                                      else if Ascii.eqb a "}" then Some ([(k, v)], rest')
                                      else None
                                  | [] => None
                                  end
                              | None => None
                              end
                            else None
                        | [] => None
                        end
                    | None => None
                    end
                  else None
              | [] => None
              end
          end in
      match skip_spaces cs with
      | [] => None
      | a :: rest =>
          if Ascii.eqb a "n" then expect "null" JNull (a :: rest)
          else if Ascii.eqb a "t" then expect "true" (JBool true) (a :: rest)
          else if Ascii.eqb a "f" then expect "false" (JBool false) (a :: rest)
          else if Ascii.eqb a quote then
            match read_string rest with
            | Some (s, after) => Some (JStr s, after)
            | None => None
            end
          else if Ascii.eqb a "[" then
            match skip_spaces rest with
            | b :: rest' =>
                if Ascii.eqb b "]" then Some (JArr [], rest')
                else match read_items (length cs) rest with
                     | Some (vs, after) => Some (JArr vs, after)
                     | None => None
                     end
            | [] => None
            end
          else if Ascii.eqb a "{" then
            match skip_spaces rest with
            | b :: rest' =>
                if Ascii.eqb b "}" then Some (JObj [], rest')
                else match read_fields (length cs) rest with
                     | Some (kvs, after) => Some (JObj kvs, after)
                     | None => None
                     end
            | [] => None
            end
          else
            match read_number (a :: rest) with
            | Some (z, after) => Some (JNum z, after)
            | None => None
            end
      end
  end.

Definition parse (text : string) : option jsval :=
  let cs := list_ascii_of_string text in
  match read_value (S (length cs)) cs with
  | Some (v, rest) =>
      match skip_spaces rest with
      | [] => Some v
      | _ :: _ => None
      end
  | None => None
  end.

#[export] Instance json : JSON := {| JSON_stringify := stringify; JSON_parse := parse |}.

End CompactJSON.

(** ** Constants *)

Inductive time_unit := seconds | minutes.

(** The [ms] package on the strings the module uses: ['30s'], ['10m'],
    ['1m']. *)
Definition ms (n : Z) (u : time_unit) : Z :=
  match u with
  | seconds => n * 1000
  | minutes => n * 60 * 1000
  end.

Definition RESERVE_TIMEOUT : Z := ms 30 seconds.
Definition RESERVE_BACKOFF : Z := ms 30 seconds.
Definition PROCESSING_TIMEOUT : Z := ms 10 minutes.
Definition RELEASE_DELAY : Z := ms 1 minutes.

(** How a promise, or a thunk's callback, ends. *)
Inductive settlement : Type :=
| Resolved (v : jsval)
| Rejected (e : error).

(** A Beanstalkd command: its name and its arguments. *)
Definition command : Type := string * list jsval.

(** ** Session: connect, request, end *)

Module Session.

(** A Fivebeans client is known by its handle: the n-th client a session has
    constructed has handle n. *)
Abbreviation handle := nat (only parsing).

(** The constructor's arguments: the id, [config.authenticate] and the setup
    function, given by the commands it sends one after the other (one [use]
    for the put session, [watch] then [ignore] for a reserve session). *)
Record config : Type := {
  id : string;
  authenticate : option string;
  setup : list command
}.

(** Where the generator [connect] is suspended. *)
Inductive connect_pc : Type :=
| awaiting_connect
| awaiting_authenticate
| awaiting_setup (pending : command) (rest : list command)
| returned
| failed.

(** A client and the [connect] call that constructed it.  [connected],
    [authenticated] and [set_up] record which steps of the handshake the
    client has acknowledged; [ended] that [client.end()] was called; [sent]
    the commands written to it. *)
Record client : Type := {
  owner : nat;
  pc : connect_pc;
  connected : bool;
  authenticated : bool;
  set_up : list command;
  ended : bool;
  sent : list command
}.

(** A call of [request]: inside its [connect], or with its command sent on a
    client and the two [once] listeners it attached, or finished: its
    [connect] threw, or its command called back. *)
Inductive stage : Type :=
| connecting
| issued (c : handle) (onClose onError : bool)
| finished.

Record request_state : Type := {
  asked : command;
  at_stage : stage;
  promise : option settlement
}.

Record world : Type := {
  _client : option handle;
  clients : list client;
  requests : gmap nat request_state;
  debug : list string
}.

Definition init : world :=
  {| _client := None; clients := []; requests := ∅; debug := [] |}.

(** What happens to a session: its two methods are called, and its clients
    emit events and call back. *)
Inductive event : Type :=
| call_request (r : nat) (c : command) (throws : option error)
| call_end
| emit_connect (c : handle)
| emit_error (c : handle) (e : error)
| emit_close (c : handle)
| handshake_callback (c : handle) (err : option error)
| command_callback (r : nat) (err : option error) (results : list jsval).

Definition with_client (w : world) (v : option handle) : world :=
  {| _client := v; clients := clients w; requests := requests w; debug := debug w |}.

Definition with_clients (w : world) (cs : list client) : world :=
  {| _client := _client w; clients := cs; requests := requests w; debug := debug w |}.

Definition with_requests (w : world) (rs : gmap nat request_state) : world :=
  {| _client := _client w; clients := clients w; requests := rs; debug := debug w |}.

Definition notify_debug (w : world) (line : string) : world :=
  {| _client := _client w; clients := clients w; requests := requests w;
     debug := debug w ++ [line] |}.

Definition update_client (w : world) (c : handle) (f : client -> client) : world :=
  with_clients w (alter f c (clients w)).

Definition update_request (w : world) (r : nat) (f : request_state -> request_state) : world :=
  with_requests w (alter f r (requests w)).

Definition client_end (cl : client) : client :=
  {| owner := owner cl; pc := pc cl; connected := connected cl;
     authenticated := authenticated cl; set_up := set_up cl;
     ended := true; sent := sent cl |}.

Definition client_send (k : command) (cl : client) : client :=
  {| owner := owner cl; pc := pc cl; connected := connected cl;
     authenticated := authenticated cl; set_up := set_up cl;
     ended := ended cl; sent := sent cl ++ [k] |}.

Definition client_at (p : connect_pc) (cl : client) : client :=
  {| owner := owner cl; pc := p; connected := connected cl;
     authenticated := authenticated cl; set_up := set_up cl;
     ended := ended cl; sent := sent cl |}.

Definition client_connected (cl : client) : client :=
  {| owner := owner cl; pc := pc cl; connected := true;
     authenticated := authenticated cl; set_up := set_up cl;
     ended := ended cl; sent := sent cl |}.

Definition client_authenticated (cl : client) : client :=
  {| owner := owner cl; pc := pc cl; connected := connected cl;
     authenticated := true; set_up := set_up cl;
     ended := ended cl; sent := sent cl |}.

Definition client_set_up (k : command) (cl : client) : client :=
  {| owner := owner cl; pc := pc cl; connected := connected cl;
     authenticated := authenticated cl; set_up := set_up cl ++ [k];
     ended := ended cl; sent := sent cl |}.

(** [resolve] and [reject] of the promise: only the first one counts. *)
Definition settle (s : settlement) (rq : request_state) : request_state :=
  {| asked := asked rq; at_stage := at_stage rq;
     promise := match promise rq with
                | None => Some s
                | Some first => Some first
                end |}.

Definition at_ (st : stage) (rq : request_state) : request_state :=
  {| asked := asked rq; at_stage := st; promise := promise rq |}.

(** The callback [request] hands to [co(this.connect())], on a client: the
    two listeners are attached and the command is written. *)
Definition connect_returns (r : nat) (c : handle) (w : world) : world :=
  match requests w !! r with
  | Some rq =>
      update_client (update_request w r (at_ (issued c true true))) c
        (client_send (asked rq))
  | None => w
  end.

(** The same callback on what [connect] threw: [if (error) { reject(error);
    return; }].  With an error that is falsy the callback goes on with a
    client that is [undefined] and throws at [client.once], before a
    listener is attached or a command is written: the callback is over and
    has not settled the promise. *)
Definition connect_throws (r : nat) (e : error) (w : world) : world :=
  update_request w r
    (fun rq => at_ finished (if ToBoolean_error e then settle (Rejected e) rq else rq)).

(** [this._client = client; return client]. *)
Definition connect_finish (c : handle) (w : world) : world :=
  match clients w !! c with
  | Some cl =>
      connect_returns (owner cl) c
        (update_client (with_client w (Some c)) c (client_at returned))
  | None => w
  end.

(** [catch (error) { client.end(); throw error; }]. *)
Definition connect_catch (c : handle) (e : error) (w : world) : world :=
  match clients w !! c with
  | Some cl =>
      connect_throws (owner cl) e
        (update_client w c (fun cl => client_at failed (client_end cl)))
  | None => w
  end.

(** [yield this.setup(client)], from the commands still to send. *)
Definition run_setup (c : handle) (ks : list command) (w : world) : world :=
  match ks with
  | [] => connect_finish c w
  | k :: rest =>
      update_client w c (fun cl => client_at (awaiting_setup k rest) (client_send k cl))
  end.

(** [onError] and [onClose] of a request whose command is on client [c]. *)
Definition onError_fires (c : handle) (e : error) (rq : request_state) : request_state :=
  match at_stage rq with
  | issued c' onClose true =>
      if Nat.eqb c' c then at_ (issued c' onClose false) (settle (Rejected e) rq)
      else rq
  | _ => rq
  end.

Definition onClose_fires (c : handle) (rq : request_state) : request_state :=
  match at_stage rq with
  | issued c' true onError =>
      if Nat.eqb c' c
      then at_ (issued c' false onError) (settle (Rejected (Error "TIMED_OUT")) rq)
      else rq
  | _ => rq
  end.

(** What the command's callback settles the promise with: [if (error)
    reject(error); else if (results.length > 1) resolve(results); else
    resolve(results[0])].  An error that is falsy counts as none. *)
Definition callback_settles (err : option error) (results : list jsval) : settlement :=
  let resolved :=
    if (1 <? length results)%nat then Resolved (JArr results)
    else Resolved (hd JUndefined results) in
  match err with
  | Some e => if ToBoolean_error e then Rejected e else resolved
  | None => resolved
  end.

(** [if (this._client == client) this._client = null]. *)
Definition forget (c : handle) (w : world) : world :=
  match _client w with
  | Some current => if Nat.eqb current c then with_client w None else w
  | None => w
  end.

Definition new_client (r : nat) : client :=
  {| owner := r; pc := awaiting_connect; connected := false; authenticated := false;
     set_up := []; ended := false; sent := [] |}.

(** [*connect()] for the request [r], up to its first suspension: the stored
    client is given back; without one a client is constructed, its listeners
    are registered, and [client.connect()] is called, which may throw. *)
Definition connect (r : nat) (throws : option error) (w : world) : world :=
  match _client w with
  | Some c => connect_returns r c w
  | None =>
      let c := length (clients w) in
      let w := with_clients w (clients w ++ [new_client r]) in
      match throws with
      | Some e => connect_catch c e w
      | None => w
      end
  end.

(** [request(command, ...args)], called for the [r]-th time: the promise is
    made and [co(this.connect())] is started. *)
Definition request (r : nat) (k : command) (throws : option error) (w : world) : world :=
  match requests w !! r with
  | Some _ => w
  | None =>
      connect r throws
        (with_requests w
           (<[r := {| asked := k; at_stage := connecting; promise := None |}]>
              (requests w)))
  end.

(** [end()]. *)
Definition end_ (w : world) : world :=
  match _client w with
  | Some c => with_client (update_client w c client_end) None
  | None => with_client w None
  end.

Section Steps.

Context (cfg : config).

(** [config.authenticate] when it is truthy. *)
Definition credential : option string :=
  match authenticate cfg with
  | Some token => if String.eqb token EmptyString then None else Some token
  | None => None
  end.

(** [connect] from the [connect] event on. *)
Definition after_connect (c : handle) (w : world) : world :=
  match credential with
  | Some token =>
      update_client w c
        (fun cl => client_at awaiting_authenticate
                     (client_send ("put", [JNum 0; JNum 0; JNum 0; JStr token]) cl))
  | None => run_setup c (setup cfg) w
  end.

(** What [co] resumes a generator with when the callback it handed out is
    called with [err]: the error is thrown into the generator when
    [if (err)] takes it for one, and the generator goes on otherwise. *)
Definition thrown_into (err : option error) : option error :=
  match err with
  | Some e => if ToBoolean_error e then Some e else None
  | None => None
  end.

(** One thing happens to the session.  [call_request] runs [request] up to
    the first suspension of its [connect] ([throws] is what
    [client.connect()] throws, if it does); [emit_connect] and
    [handshake_callback] resume the [connect] that waits on the client;
    [emit_error] and [emit_close] run the listeners of [connect], then the
    [once] listeners of the requests on the client; [command_callback] is
    the callback of a request's command. *)
Definition step (ev : event) (w : world) : world :=
  match ev with
  | call_request r k throws => request r k throws w
  | call_end => end_ w
  | emit_connect c =>
      match clients w !! c with
      | Some cl =>
          match pc cl with
          | awaiting_connect => after_connect c (update_client w c client_connected)
          | _ => w
          end
      | None => w
      end
  | handshake_callback c err =>
      match clients w !! c with
      | Some cl =>
          match pc cl, thrown_into err with
          | awaiting_authenticate, None =>
              run_setup c (setup cfg) (update_client w c client_authenticated)
          | awaiting_setup k rest, None =>
              run_setup c rest (update_client w c (client_set_up k))
          | awaiting_authenticate, Some e
          | awaiting_setup _ _, Some e => connect_catch c e w
          | _, _ => w
          end
      | None => w
      end
  | emit_error c e =>
      match clients w !! c with
      | Some _ =>
          let w := forget c w in
          let w :=
            notify_debug w
              ("Client error in queue " +:+ id cfg +:+ ": " +:+ error_toString e) in
          let w := update_client w c client_end in
          with_requests w (onError_fires c e <$> requests w)
      | None => w
      end
  | emit_close c =>
      match clients w !! c with
      | Some _ =>
          let w := forget c w in
          let w := notify_debug w ("Connection closed for " +:+ id cfg) in
          with_requests w (onClose_fires c <$> requests w)
      | None => w
      end
  | command_callback r err results =>
      match requests w !! r with
      | Some rq =>
          match at_stage rq with
          | issued _ _ _ =>
              update_request w r
                (fun rq => at_ finished (settle (callback_settles err results) rq))
          | _ => w
          end
      | None => w
      end
  end.

Definition run (evs : list event) (w : world) : world :=
  fold_left (fun w ev => step ev w) evs w.

(** A client that went through the whole of [connect]. *)
Definition fully_initialized (cl : client) : Prop :=
  connected cl = true
  /\ (is_Some credential -> authenticated cl = true)
  /\ set_up cl = setup cfg.

End Steps.

Definition promise_of (w : world) (r : nat) : option settlement :=
  match requests w !! r with
  | Some rq => promise rq
  | None => None
  end.

End Session.

(** ** Queue: publishing and processing *)

Module Queue.

(** A function registered with [each], known by a number. *)
Definition handler : Type := nat.

(** A session of the queue is the [Session.config] it was constructed
    with. *)
Definition session : Type := Session.config.

Record Queue : Type := {
  name : string;
  _prefixedName : string;
  _authenticate : option string;
  _processing : bool;
  _handlers : list handler;
  _putSession : option session;
  _reserveSessions : list (option session)
}.

(** What the coroutine does, in order: requests on a session, runs of a
    handler, timers and log lines. *)
Inductive level : Type := debug | info | error_level.

Inductive effect : Type :=
| request (on : string) (k : command)
| runJob (h : handler) (args : list jsval) (timeout : Z)
| setTimeout (delay : Z)
| notify (l : level) (args : list jsval).

(** What happens while the coroutine is suspended: what it waits for
    settles, and someone may have called [stop] in the meantime. *)
Record happening : Type := {
  stop_called : bool;
  settles : settlement
}.

Definition settle (s : settlement) : happening :=
  {| stop_called := false; settles := s |}.

Record world : Type := {
  queue : Queue;
  NODE_ENV : option string;
  future : list happening;
  trace : list effect;
  ended : list string
}.

Definition with_queue (w : world) (q : Queue) : world :=
  {| queue := q; NODE_ENV := NODE_ENV w; future := future w; trace := trace w;
     ended := ended w |}.

Definition with_future (w : world) (f : list happening) : world :=
  {| queue := queue w; NODE_ENV := NODE_ENV w; future := f; trace := trace w;
     ended := ended w |}.

Definition with_trace (w : world) (t : list effect) : world :=
  {| queue := queue w; NODE_ENV := NODE_ENV w; future := future w; trace := t;
     ended := ended w |}.

(** [for (var session of this._reserveSessions) session.end()]: the ids of
    the sessions ended, and whether the loop came to the end of the array;
    on a hole it throws, since [undefined] has no [end]. *)
Fixpoint end_sessions (slots : list (option session)) : list string * bool :=
  match slots with
  | [] => ([], true)
  | Some s :: rest =>
      let '(ids, through) := end_sessions rest in (Session.id s :: ids, through)
  | None :: _ => ([], false)
  end.

(** [stop]: the flag is cleared, every reserve session is ended and then
    the array is emptied. *)
Definition stop (w : world) : world :=
  let q := queue w in
  let '(ids, through) := end_sessions (_reserveSessions q) in
  {| queue := {| name := name q; _prefixedName := _prefixedName q;
                 _authenticate := _authenticate q;
                 _processing := false; _handlers := _handlers q;
                 _putSession := _putSession q;
                 _reserveSessions := if through then [] else _reserveSessions q |};
     NODE_ENV := NODE_ENV w; future := future w; trace := trace w;
     ended := ended w ++ ids |}.

(** How a run of a coroutine ends: it returns, it throws, it stays suspended
    because nothing more happens, or the model stops unrolling a loop. *)
Inductive outcome (A : Type) : Type :=
| Returned (a : A) (w : world)
| Threw (e : error) (w : world)
| Suspended (w : world)
| Unfinished (w : world).

Arguments Returned {A} a w.
Arguments Threw {A} e w.
Arguments Suspended {A} w.
Arguments Unfinished {A} w.

Definition M (A : Type) : Type := world -> outcome A.

Definition ret {A} (a : A) : M A := fun w => Returned a w.

Definition throw {A} (e : error) : M A := fun w => Threw e w.

Definition bind {A B} (c : M A) (k : A -> M B) : M B :=
  fun w =>
    match c w with
    | Returned a w' => k a w'
    | Threw e w' => Threw e w'
    | Suspended w' => Suspended w'
    | Unfinished w' => Unfinished w'
    end.

Notation "'let*' x ':=' c 'in' k" := (bind c (fun x => k))
  (at level 10, x pattern, c at level 100, k at level 200).
Notation "c ';;;' k" := (bind c (fun _ => k))
  (at level 100, k at level 200, right associativity).

(** [try { c } catch (error) { h error }]. *)
Definition try_catch {A} (c : M A) (h : error -> M A) : M A :=
  fun w =>
    match c w with
    | Threw e w' => h e w'
    | other => other
    end.

(** The block of a [try] with what it threw, for a [catch] that reads the
    variables the block assigned. *)
Definition attempt {A} (c : M A) : M (error + A) :=
  fun w =>
    match c w with
    | Returned a w' => Returned (inr a) w'
    | Threw e w' => Returned (inl e) w'
    | Suspended w' => Suspended w'
    | Unfinished w' => Unfinished w'
    end.

Definition lift {A} (r : error + A) : M A :=
  match r with
  | inl e => throw e
  | inr a => ret a
  end.

Definition this : M Queue := fun w => Returned (queue w) w.

Definition perform (e : effect) : M unit :=
  fun w => Returned tt (with_trace w (trace w ++ [e])).

(** The coroutine is resumed by the next thing that happens. *)
Definition resume : M settlement :=
  fun w =>
    match future w with
    | [] => Suspended w
    | h :: rest =>
        let w := with_future w rest in
        Returned (settles h) (if stop_called h then stop w else w)
    end.

(** [yield] of a promise or a thunk: its value, or its error thrown. *)
Definition yield (e : effect) : M jsval :=
  perform e ;;;
  let* s := resume in
  match s with
  | Resolved v => ret v
  | Rejected err => throw err
  end.

(** [session.request(command, ...args)], yielded. *)
Definition session_request (s : session) (name : string) (args : list jsval) : M jsval :=
  yield (request (Session.id s) (name, args)).

(** [yield (resume)=> setTimeout(resume, delay)]: the timer calls back
    without an error. *)
Definition sleep (delay : Z) : M unit :=
  perform (setTimeout delay) ;;;
  let* _ := resume in
  ret tt.

(** Modelled from the spec: [./run_job] is not part of the source.  It
    "executes a user-supplied handler against a job payload under a
    deadline; reports success or failure": a thunk that succeeds, or fails
    with what the handler threw or with the deadline's error. *)
Definition run_job (h : handler) (args : list jsval) (timeout : Z) : M unit :=
  let* _ := yield (runJob h args timeout) in
  ret tt.

Definition test_mode (w : world) : bool :=
  match NODE_ENV w with
  | Some v => String.eqb v "test"
  | None => false
  end.

Definition in_test : M bool := fun w => Returned (test_mode w) w.

(** [array[index] = x], which fills the array up to [index] with holes. *)
Fixpoint array_set {A} (l : list (option A)) (index : nat) (x : A) : list (option A) :=
  match index, l with
  | O, [] => [Some x]
  | O, _ :: rest => Some x :: rest
  | S i, [] => None :: array_set [] i x
  | S i, slot :: rest => slot :: array_set rest i x
  end.

Definition nat_to_string (n : nat) : string := NilZero.string_of_uint (Nat.to_uint n).

(** The getter [_put]. *)
Definition _put : M session :=
  fun w =>
    let q := queue w in
    match _putSession q with
    | Some s => Returned s w
    | None =>
        let s := {| Session.id := name q +:+ "/put";
                    Session.authenticate := _authenticate q;
                    Session.setup := [("use", [JStr (_prefixedName q)])] |} in
        Returned s
          (with_queue w
             {| name := name q; _prefixedName := _prefixedName q;
                _authenticate := _authenticate q;
                _processing := _processing q; _handlers := _handlers q;
                _putSession := Some s; _reserveSessions := _reserveSessions q |})
    end.

Definition _reserve (index : nat) : M session :=
  fun w =>
    let q := queue w in
    match mjoin (_reserveSessions q !! index) with
    | Some s => Returned s w
    | None =>
        let s := {| Session.id := name q +:+ "/" +:+ nat_to_string index;
                    Session.authenticate := _authenticate q;
                    Session.setup := [("watch", [JStr (_prefixedName q)]);
                                      ("ignore", [JStr "default"])] |} in
        Returned s
          (with_queue w
             {| name := name q; _prefixedName := _prefixedName q;
                _authenticate := _authenticate q;
                _processing := _processing q; _handlers := _handlers q;
                _putSession := _putSession q;
                _reserveSessions := array_set (_reserveSessions q) index s |})
    end.

(** [var [jobID, payload] = value]: the first two items of an array, of a
    string's characters or of a Buffer's bytes; other values are not
    iterable. *)
Definition characters (s : string) : list jsval :=
  map (fun a => JStr (String a EmptyString)) (list_ascii_of_string s).

Definition octets (s : string) : list jsval :=
  map (fun a => JNum (Z.of_nat (nat_of_ascii a))) (list_ascii_of_string s).

Definition first_two (items : list jsval) : jsval * jsval :=
  (nth 0 items JUndefined, nth 1 items JUndefined).

Definition destructure (v : jsval) : error + (jsval * jsval) :=
  match v with
  | JArr items => inr (first_two items)
  | JStr s => inr (first_two (characters s))
  | JBuffer bytes => inr (first_two (octets bytes))
  | JUndefined => inl (TypeError "undefined is not iterable")
  | JNull => inl (TypeError "null is not iterable")
  | JBool _ | JNum _ | JNaN | JObj _ => inl (TypeError "value is not iterable")
  end.

(** [error.stack]: undefined on a string; of an object, its first line. *)
Definition stack (e : error) : jsval :=
  match e with
  | StringError _ => JUndefined
  | ErrorObject _ _ => JStr (error_toString e)
  end.

Section Processing.

Context {J : JSON}.

(** [payload.toString()], then [JSON.parse] with the text kept when it does
    not parse. *)
Definition decode (payload : jsval) : error + jsval :=
  match toString payload with
  | inl e => inl e
  | inr text =>
      inr (match JSON_parse text with
           | Some v => v
           | None => JStr text
           end)
  end.

(** [for (var handler of this._handlers) yield runJob(...)]. *)
Fixpoint run_handlers (hs : list handler) (payload : jsval) : M unit :=
  match hs with
  | [] => ret tt
  | h :: rest => run_job h [payload] PROCESSING_TIMEOUT ;;; run_handlers rest payload
  end.

Definition release_delay (test : bool) : Z :=
  if test then 0 else RELEASE_DELAY / 1000.

(** The inner [try] of [_runAndDestroy]: the destroy request, and the log
    line when it fails. *)
Definition destroy_job (s : session) (jobID : jsval) : M unit :=
  try_catch
    (let* _ := session_request s "destroy" [jobID] in ret tt)
    (fun error =>
       let* q := this in
       perform (notify info [JStr "Could not delete job %s:%s"; JStr (name q); jobID])).

(** Its outer [try] block. *)
Definition run_then_destroy (s : session) (jobID payload : jsval) : M unit :=
  let* payload := lift (decode payload) in
  let* q := this in
  perform (notify info [JStr "Processing queued job %s:%s"; JStr (name q); jobID]) ;;;
  perform (notify debug [JStr "Payload for job %s:%s:"; JStr (name q); jobID; payload]) ;;;
  run_handlers (_handlers q) payload ;;;
  let* q := this in
  perform (notify info [JStr "Completed queued job %s:%s"; JStr (name q); jobID]) ;;;
  destroy_job s jobID.

(** Its [catch] block. *)
Definition release_job (s : session) (jobID : jsval) (error : error) : M unit :=
  let* q := this in
  perform (notify info [JStr "Error processing queued job %s:%ss"; JStr (name q);
                        jobID; stack error]) ;;;
  let priority := 0 in
  let* test := in_test in
  let delay := release_delay test in
  let* _ := session_request s "release" [jobID; JNum priority; JNum delay] in
  throw error.

Definition _runAndDestroy (s : session) (jobID payload : jsval) : M unit :=
  try_catch (run_then_destroy s jobID payload) (release_job s jobID).

(** The test of [once]: [error == 'TIMED_OUT' || (error && error.message ==
    'TIMED_OUT')]. *)
Definition error_truthy (e : error) : bool :=
  match e with
  | StringError s => negb (String.eqb s EmptyString)
  | ErrorObject _ _ => true
  end.

Definition once_is_idle (e : error) : bool :=
  loose_eq_string e "TIMED_OUT" || (error_truthy e && message_is e "TIMED_OUT").

(** One turn of a loop's [try] block: reserve, then run and destroy. *)
Definition reserve_and_run (s : session) (timeout : Z) : M unit :=
  let* reply := session_request s "reserve_with_timeout" [JNum timeout] in
  let* job := lift (destructure reply) in
  _runAndDestroy s (fst job) (snd job).

(** The [while (true)] of [once] inside its [try]: [anyProcessed] is the
    variable the [catch] reads, so each turn is attempted and the [catch]
    runs, outside the loop, on the first error. *)
Fixpoint once_loop (fuel : nat) (s : session) (anyProcessed : bool) : M bool :=
  match fuel with
  | O => fun w => Unfinished w
  | S fuel =>
      let timeout := 0 in
      let* turn := attempt (reserve_and_run s timeout) in
      match turn with
      | inr _ => once_loop fuel s true
      | inl error => if once_is_idle error then ret anyProcessed else throw error
      end
  end.

Definition once (fuel : nat) : M bool :=
  let* q := this in
  if _processing q
  then throw (AssertionError "Cannot call once while continuously processing jobs")
  else
    match _handlers q with
    | [] => ret false
    | _ :: _ =>
        perform (notify debug [JStr "Waiting for jobs on queue %s"; JStr (name q)]) ;;;
        let* s := _reserve 0 in
        once_loop fuel s false
    end.

Definition reserve_backoff (test : bool) : Z :=
  if test then 0 else RESERVE_BACKOFF.

(** The body of the [while] of [_processContinously]. *)
Definition iteration (s : session) : M unit :=
  try_catch
    (let timeout := RESERVE_TIMEOUT / 1000 in
     reserve_and_run s timeout)
    (fun error =>
       if is_TIMED_OUT error then ret tt
       else
         perform (notify error_level [error_value error]) ;;;
         let* test := in_test in
         let backoff := reserve_backoff test in
         sleep backoff).

(** [this._processing && this._handlers.length]. *)
Definition keeps_going (q : Queue) : bool :=
  _processing q && negb (Nat.eqb (length (_handlers q)) 0).

Fixpoint process_loop (fuel : nat) (s : session) : M unit :=
  match fuel with
  | O => fun w => Unfinished w
  | S fuel =>
      let* q := this in
      if keeps_going q then iteration s ;;; process_loop fuel s
      else ret tt
  end.

Definition _processContinously (fuel : nat) (s : session) : M unit :=
  let* q := this in
  (if keeps_going q
   then perform (notify debug [JStr "Waiting for jobs on queue %s"; JStr (name q)])
   else ret tt) ;;;
  process_loop fuel s.

(** The generator that [push] hands to [co]. *)
Definition push_thunk (job : jsval) : M jsval :=
  let priority := 0 in
  let delay := 0 in
  let timeToRun := PROCESSING_TIMEOUT / 1000 + 1 in
  let payload := JSON_stringify job in
  let* s := _put in
  let* jobID := session_request s "put" [JNum priority; JNum delay; JNum timeToRun; payload] in
  let* q := this in
  perform (notify debug [JStr "Queued job %s on queue %s"; jobID; JStr (name q); payload]) ;;;
  ret JUndefined.

(** [push(job)]: the assertion, then the thunk, which does nothing until it
    is called. *)
Definition push (job : jsval) : error + M jsval :=
  if ToBoolean job then inr (push_thunk job)
  else inl (AssertionError "Missing job to queue").

(** [push(job, callback)]: the thunk is called at once. *)
Definition push_with_callback (job : jsval) : M jsval :=
  match push job with
  | inl e => throw e
  | inr thunk => thunk
  end.

End Processing.

End Queue.

(** * Properties *)

(** ** Runs of a coroutine *)

Module Runs.

Import Queue.

(** Where a run left the world. *)
Definition final {A} (o : outcome A) : world :=
  match o with
  | Returned _ w | Threw _ w | Suspended w | Unfinished w => w
  end.

(** What a run threw, and what it returned. *)
Definition thrown {A} (o : outcome A) : option error :=
  match o with
  | Threw e _ => Some e
  | _ => None
  end.

Definition returned {A} (o : outcome A) : option A :=
  match o with
  | Returned a _ => Some a
  | _ => None
  end.

(** The requests of a trace: session and command. *)
Definition requests_of (t : list effect) : list (string * command) :=
  omap (fun e => match e with
                 | request on k => Some (on, k)
                 | _ => None
                 end) t.

Lemma requests_of_app (t u : list effect) :
  requests_of (t ++ u) = requests_of t ++ requests_of u.
Proof. apply omap_app. Qed.

(** [w'] is [w] after the coroutine did [new] and the future came down to
    [rest]; the queue keeps its name and its handlers, and the process its
    environment. *)
Record leads_to (w : world) (new : list effect) (rest : list happening)
    (w' : world) : Prop := {
  to_trace : trace w' = trace w ++ new;
  to_future : future w' = rest;
  to_name : name (queue w') = name (queue w);
  to_handlers : _handlers (queue w') = _handlers (queue w);
  to_env : NODE_ENV w' = NODE_ENV w
}.

Lemma stop_leads (w : world) : leads_to w [] (future w) (stop w).
Proof.
  unfold stop. destruct (end_sessions (_reserveSessions (queue w))) as [ids through].
  split; cbn; rewrite ?app_nil_r; reflexivity.
Qed.

Lemma leads_to_refl (w : world) : leads_to w [] (future w) w.
Proof. split; rewrite ?app_nil_r; reflexivity. Qed.

Lemma leads_to_trans (w w1 w2 : world) (t1 t2 : list effect)
    (f1 f2 : list happening) :
  leads_to w t1 f1 w1 -> leads_to w1 t2 f2 w2 -> leads_to w (t1 ++ t2) f2 w2.
Proof.
  intros [] []. split; try congruence.
  rewrite app_assoc. congruence.
Qed.

Lemma leads_to_eq (w w' : world) (t t' : list effect) (f : list happening) :
  leads_to w t f w' -> t = t' -> leads_to w t' f w'.
Proof. now intros H <-. Qed.

Lemma test_mode_leads_to (w w' : world) t f :
  leads_to w t f w' -> test_mode w' = test_mode w.
Proof. intros H. unfold test_mode. now rewrite (to_env _ _ _ _ H). Qed.

Lemma perform_leads (e : effect) (w : world) :
  exists w', perform e w = Returned tt w' /\ leads_to w [e] (future w) w'.
Proof. eexists. split; [reflexivity | split; reflexivity]. Qed.

Lemma resume_leads (w : world) (h : happening) (rest : list happening) :
  future w = h :: rest ->
  exists w', resume w = Returned (settles h) w' /\ leads_to w [] rest w'.
Proof.
  intros Hf. unfold resume. rewrite Hf. eexists. split; [reflexivity |].
  destruct (stop_called h).
  - destruct (stop_leads (with_future w rest)) as [Ht Hfu Hn Hh He].
    split; [now rewrite Ht | now rewrite Hfu | now rewrite Hn | now rewrite Hh
           | now rewrite He].
  - split; cbn; rewrite ?app_nil_r; reflexivity.
Qed.

Lemma yield_resolved (e : effect) (w : world) h rest v :
  future w = h :: rest -> settles h = Resolved v ->
  exists w', yield e w = Returned v w' /\ leads_to w [e] rest w'.
Proof.
  intros Hf Hs. unfold yield, bind.
  destruct (perform_leads e w) as (w1 & -> & H1).
  destruct (resume_leads w1 h rest) as (w2 & -> & H2).
  { rewrite (to_future _ _ _ _ H1). exact Hf. }
  rewrite Hs. exists w2. split; [reflexivity |].
  apply (leads_to_trans _ _ _ _ _ _ _ H1) in H2. now rewrite app_nil_r in H2.
Qed.

Lemma yield_rejected (e : effect) (w : world) h rest err :
  future w = h :: rest -> settles h = Rejected err ->
  exists w', yield e w = Threw err w' /\ leads_to w [e] rest w'.
Proof.
  intros Hf Hs. unfold yield, bind.
  destruct (perform_leads e w) as (w1 & -> & H1).
  destruct (resume_leads w1 h rest) as (w2 & -> & H2).
  { rewrite (to_future _ _ _ _ H1). exact Hf. }
  rewrite Hs. exists w2. split; [reflexivity |].
  apply (leads_to_trans _ _ _ _ _ _ _ H1) in H2. now rewrite app_nil_r in H2.
Qed.

Lemma yield_suspended (e : effect) (w : world) :
  future w = [] ->
  exists w', yield e w = Suspended w' /\ leads_to w [e] [] w'.
Proof.
  intros Hf. unfold yield, bind, perform, resume. cbn. rewrite Hf.
  eexists. split; [reflexivity |]. split; try reflexivity. exact Hf.
Qed.

Lemma sleep_wakes (delay : Z) (w : world) h rest :
  future w = h :: rest ->
  exists w', sleep delay w = Returned tt w' /\ leads_to w [setTimeout delay] rest w'.
Proof.
  intros Hf. unfold sleep, bind.
  destruct (perform_leads (setTimeout delay) w) as (w1 & -> & H1).
  destruct (resume_leads w1 h rest) as (w2 & -> & H2).
  { rewrite (to_future _ _ _ _ H1). exact Hf. }
  exists w2. split; [reflexivity |].
  apply (leads_to_trans _ _ _ _ _ _ _ H1) in H2. now rewrite app_nil_r in H2.
Qed.

(** A coroutine that only adds effects of one kind to the trace, however
    it ends. *)
Definition adds {A} (P : effect -> Prop) (c : M A) : Prop :=
  forall w, exists new, trace (final (c w)) = trace w ++ new /\ Forall P new.

Section Adds.

Context (P : effect -> Prop).

Lemma adds_nothing {A} (c : M A) :
  (forall w, trace (final (c w)) = trace w) -> adds P c.
Proof.
  intros H w. exists []. rewrite app_nil_r. split; [apply H | constructor].
Qed.

Lemma adds_ret {A} (a : A) : adds P (ret a).
Proof. now apply adds_nothing. Qed.

Lemma adds_throw {A} (e : error) : adds P (throw (A := A) e).
Proof. now apply adds_nothing. Qed.

Lemma adds_lift {A} (r : error + A) : adds P (lift r).
Proof. destruct r; [apply adds_throw | apply adds_ret]. Qed.

Lemma adds_this : adds P this.
Proof. now apply adds_nothing. Qed.

Lemma adds_in_test : adds P in_test.
Proof. now apply adds_nothing. Qed.

Lemma adds_unfinished {A} : adds P (fun w => Unfinished (A := A) w).
Proof. now apply adds_nothing. Qed.

Lemma adds_resume : adds P resume.
Proof.
  apply adds_nothing. intros w. unfold resume.
  destruct (future w) as [|h rest]; [reflexivity |].
  destruct (stop_called h); [| reflexivity].
  cbn [final]. rewrite (to_trace _ _ _ _ (stop_leads (with_future w rest))).
  now rewrite app_nil_r.
Qed.

Lemma adds__put : adds P _put.
Proof.
  apply adds_nothing. intros w. unfold _put.
  destruct (_putSession (queue w)); reflexivity.
Qed.

Lemma adds__reserve (index : nat) : adds P (_reserve index).
Proof.
  apply adds_nothing. intros w. unfold _reserve.
  destruct (mjoin (_reserveSessions (queue w) !! index)); reflexivity.
Qed.

Lemma adds_perform (e : effect) : P e -> adds P (perform e).
Proof.
  intros He w. exists [e]. split; [reflexivity | now constructor].
Qed.

Lemma adds_bind {A B} (c : M A) (k : A -> M B) :
  adds P c -> (forall a, adds P (k a)) -> adds P (bind c k).
Proof.
  intros Hc Hk w. destruct (Hc w) as (n1 & H1 & F1). unfold bind.
  destruct (c w) as [a w'|e w'|w'|w']; cbn [final] in *; try (now exists n1).
  destruct (Hk a w') as (n2 & H2 & F2). exists (n1 ++ n2).
  rewrite H2, H1, app_assoc. split; [reflexivity | now apply Forall_app].
Qed.

Lemma adds_bind_ret {A B} (a : A) (k : A -> M B) :
  adds P (k a) -> adds P (bind (ret a) k).
Proof. intros Hk w. exact (Hk w). Qed.

Lemma adds_bind_throw {A B} (e : error) (k : A -> M B) :
  adds P (bind (throw e) k).
Proof. now apply adds_nothing. Qed.

Lemma adds_try_catch {A} (c : M A) (h : error -> M A) :
  adds P c -> (forall e, adds P (h e)) -> adds P (try_catch c h).
Proof.
  intros Hc Hh w. destruct (Hc w) as (n1 & H1 & F1). unfold try_catch.
  destruct (c w) as [a w'|e w'|w'|w']; cbn [final] in *; try (now exists n1).
  destruct (Hh e w') as (n2 & H2 & F2). exists (n1 ++ n2).
  rewrite H2, H1, app_assoc. split; [reflexivity | now apply Forall_app].
Qed.

Lemma adds_attempt {A} (c : M A) : adds P c -> adds P (attempt c).
Proof.
  intros Hc w. destruct (Hc w) as (n1 & H1 & F1). unfold attempt.
  destruct (c w); now exists n1.
Qed.

Lemma adds_yield (e : effect) : P e -> adds P (yield e).
Proof.
  intros He. unfold yield. apply adds_bind; [now apply adds_perform |].
  intros _. apply adds_bind; [apply adds_resume |].
  intros [v|err]; [apply adds_ret | apply adds_throw].
Qed.

Lemma adds_sleep (delay : Z) : P (setTimeout delay) -> adds P (sleep delay).
Proof.
  intros He. unfold sleep. apply adds_bind; [now apply adds_perform |].
  intros _. apply adds_bind; [apply adds_resume | intros; apply adds_ret].
Qed.

End Adds.

(** Whatever follows a coroutine keeps what it did. *)
Lemma bind_keeps {A B} (c : M A) (k : A -> M B) (w : world) :
  (forall a, adds (fun _ => True) (k a)) ->
  exists more, trace (final (bind c k w)) = trace (final (c w)) ++ more.
Proof.
  intros Hk. unfold bind.
  destruct (c w) as [a w'|e w'|w'|w']; cbn [final];
    try (exists []; now rewrite app_nil_r).
  destruct (Hk a w') as (more & H & _). now exists more.
Qed.

Lemma try_catch_keeps {A} (c : M A) (h : error -> M A) (w : world) :
  (forall e, adds (fun _ => True) (h e)) ->
  exists more, trace (final (try_catch c h w)) = trace (final (c w)) ++ more.
Proof.
  intros Hh. unfold try_catch.
  destruct (c w) as [a w'|e w'|w'|w']; cbn [final];
    try (exists []; now rewrite app_nil_r).
  destruct (Hh e w') as (more & H & _). now exists more.
Qed.

End Runs.

(** ** Publishing *)

Module PushFacts.

Import Queue Runs.

(** The session that the getter [_put] gives in a world. *)
Definition put_session (w : world) : session :=
  match _putSession (queue w) with
  | Some s => s
  | None =>
      {| Session.id := name (queue w) +:+ "/put";
         Session.authenticate := _authenticate (queue w);
         Session.setup := [("use", [JStr (_prefixedName (queue w))])] |}
  end.

Lemma _put_gives (w : world) :
  exists w', _put w = Returned (put_session w) w' /\ leads_to w [] (future w) w'.
Proof.
  unfold _put, put_session.
  destruct (_putSession (queue w));
    eexists; (split; [reflexivity |]); split; cbn; rewrite ?app_nil_r; reflexivity.
Qed.

Section WithJSON.

Context {J : JSON}.

Definition the_put (job : jsval) (w : world) : string * command :=
  (Session.id (put_session w),
   ("put", [JNum 0; JNum 0; JNum 601; JSON_stringify job])).

Lemma push_thunk_runs (job : jsval) (w : world) :
  requests_of (trace (final (push_thunk job w)))
  = requests_of (trace w) ++ [the_put job w]
  /\ match future w with
     | [] => exists w', push_thunk job w = Suspended w'
     | h :: _ =>
         match settles h with
         | Resolved _ => exists w', push_thunk job w = Returned JUndefined w'
         | Rejected e => exists w', push_thunk job w = Threw e w'
         end
     end.
Proof.
  destruct (_put_gives w) as (w1 & Hput & H1).
  unfold push_thunk, bind. rewrite Hput. unfold session_request, the_put.
  set (put := request (Session.id (put_session w))
                ("put", [JNum 0; JNum 0; JNum (PROCESSING_TIMEOUT / 1000 + 1);
                         JSON_stringify job])).
  assert (Hreq : forall w2 rest, leads_to w1 [put] rest w2 ->
                            requests_of (trace w2)
                            = requests_of (trace w)
                              ++ [(Session.id (put_session w),
                                   ("put", [JNum 0; JNum 0; JNum 601;
                                            JSON_stringify job]))]).
  { intros w2 rest H2. rewrite (to_trace _ _ _ _ H2), (to_trace _ _ _ _ H1).
    rewrite !requests_of_app. cbn. now rewrite app_nil_r. }
  destruct (future w) as [|h rest] eqn:Hf.
  - destruct (yield_suspended put w1) as (w2 & -> & H2);
      [now rewrite (to_future _ _ _ _ H1) |].
    split; [| eauto]. cbn [final]. exact (Hreq w2 _ H2).
  - destruct (settles h) as [v|e] eqn:Hs.
    + destruct (yield_resolved put w1 h rest v) as (w2 & -> & H2);
        [now rewrite (to_future _ _ _ _ H1) | exact Hs |].
      unfold this, perform. cbn. split; [| eauto].
      rewrite requests_of_app. cbn. rewrite app_nil_r.
      exact (Hreq w2 _ H2).
    + destruct (yield_rejected put w1 h rest e) as (w2 & -> & H2);
        [now rewrite (to_future _ _ _ _ H1) | exact Hs |].
      split; [| eauto]. cbn [final]. exact (Hreq w2 _ H2).
Qed.

(** C6.  For a job that is not falsy, [push] gives its thunk, and a run of
    the thunk sends one request, a [put] on the put session with priority 0,
    delay 0, a time to run of 601 seconds (the processing timeout in seconds
    plus one) and [JSON.stringify(job)]; when the [put] resolves, whatever
    the job id, the thunk's value is [undefined]. *)
Theorem push_issues_one_put (job : jsval) (w : world) :
  ToBoolean job = true ->
  exists thunk,
    push job = inr thunk
    /\ push_with_callback job = thunk
    /\ requests_of (trace (final (thunk w)))
       = requests_of (trace w)
         ++ [(Session.id (put_session w),
              ("put", [JNum 0; JNum 0; JNum 601; JSON_stringify job]))]
    /\ (_putSession (queue w) = None ->
        Session.id (put_session w) = name (queue w) +:+ "/put")
    /\ (forall h rest jobID,
          future w = h :: rest -> settles h = Resolved jobID ->
          exists w', thunk w = Returned JUndefined w')
    /\ (forall h rest e,
          future w = h :: rest -> settles h = Rejected e ->
          exists w', thunk w = Threw e w')
    /\ PROCESSING_TIMEOUT / 1000 + 1 = 601
    /\ (PROCESSING_TIMEOUT + 999) / 1000 + 1 = 601.
Proof.
  intros Htruthy. exists (push_thunk job).
  unfold push_with_callback, push. rewrite Htruthy.
  destruct (push_thunk_runs job w) as [Hreq Hout].
  repeat split; try reflexivity.
  - exact Hreq.
  - unfold put_session. intros ->. reflexivity.
  - intros h rest jobID Hf Hs. rewrite Hf, Hs in Hout. exact Hout.
  - intros h rest e Hf Hs. rewrite Hf, Hs in Hout. exact Hout.
Qed.

(** C10.  On a falsy job [push] throws the assertion error and there is no
    thunk, so nothing is sent; with a callback the call throws in the same
    way and leaves the world as it was. *)
Theorem push_rejects_falsy_job (job : jsval) :
  ToBoolean job = false ->
  push job = inl (AssertionError "Missing job to queue")
  /\ (forall w, push_with_callback job w
                = Threw (AssertionError "Missing job to queue") w)
  /\ (forall w, requests_of (trace (final (push_with_callback job w)))
                = requests_of (trace w))
  /\ Forall (fun v => ToBoolean v = false)
       [JUndefined; JNull; JBool false; JNum 0; JStr EmptyString; JNaN].
Proof.
  intros Hfalsy. unfold push_with_callback, push. rewrite Hfalsy.
  repeat split; repeat constructor.
Qed.

End WithJSON.

Definition idle_queue : Queue :=
  {| name := "mail"; _prefixedName := "test-mail"; _authenticate := None;
     _processing := false; _handlers := []; _putSession := None;
     _reserveSessions := [] |}.

Definition at_rest (f : list happening) : world :=
  {| queue := idle_queue; NODE_ENV := None; future := f; trace := []; ended := [] |}.

Lemma push_issues_one_put_witness :
  exists thunk w',
    push (J := CompactJSON.json) (JObj [("to", JStr "ann")]) = inr thunk
    /\ thunk (at_rest [settle (Resolved (JStr "12"))]) = Returned JUndefined w'
    /\ requests_of (trace (final (thunk (at_rest [settle (Resolved (JStr "12"))]))))
       = [("mail/put",
           ("put", [JNum 0; JNum 0; JNum 601;
                    JSON_stringify (JSON := CompactJSON.json)
                      (JObj [("to", JStr "ann")])]))].
Proof.
  destruct (push_issues_one_put (J := CompactJSON.json) (JObj [("to", JStr "ann")])
              (at_rest [settle (Resolved (JStr "12"))]) eq_refl)
    as (thunk & Hpush & _ & Hreq & _ & Hresolved & _).
  destruct (Hresolved (settle (Resolved (JStr "12"))) [] (JStr "12") eq_refl eq_refl)
    as (w' & Hrun).
  exists thunk, w'. split; [exact Hpush |]. split; [exact Hrun | exact Hreq].
Defined.

Lemma push_rejects_falsy_job_witness :
  push (J := CompactJSON.json) (JNum 0) = inl (AssertionError "Missing job to queue")
  /\ JSON_stringify (JSON := CompactJSON.json) (JNum 0) = JStr "0".
Proof.
  split; [| reflexivity].
  exact (proj1 (push_rejects_falsy_job (J := CompactJSON.json) (JNum 0) eq_refl)).
Defined.

End PushFacts.

(** ** Running a job and acknowledging it *)

Module RunAndDestroyFacts.

Import Queue Runs.

(** A run of a handler, a request or a timer that went well. *)
Definition resolves (h : happening) : Prop := exists v, settles h = Resolved v.

Definition runs_of (hs : list handler) (v : jsval) : list effect :=
  map (fun h => runJob h [v] PROCESSING_TIMEOUT) hs.

Definition announces (w : world) (jobID v : jsval) : list effect :=
  [notify info [JStr "Processing queued job %s:%s"; JStr (name (queue w)); jobID];
   notify debug [JStr "Payload for job %s:%s:"; JStr (name (queue w)); jobID; v]].

Definition destroys (w : world) (s : session) (jobID : jsval) : list effect :=
  [notify info [JStr "Completed queued job %s:%s"; JStr (name (queue w)); jobID];
   request (Session.id s) ("destroy", [jobID])].

Definition could_not_delete (w : world) (jobID : jsval) : effect :=
  notify info [JStr "Could not delete job %s:%s"; JStr (name (queue w)); jobID].

Definition releases (w : world) (s : session) (jobID : jsval) (e : error) : list effect :=
  [notify info [JStr "Error processing queued job %s:%ss"; JStr (name (queue w));
                jobID; stack e];
   request (Session.id s)
     ("release", [jobID; JNum 0; JNum (release_delay (test_mode w))])].

(** What leaves [_runAndDestroy] when the release was sent for [e]. *)
Definition after_release (e : error) (r : happening) : error :=
  match settles r with
  | Resolved _ => e
  | Rejected e' => e'
  end.

Lemma run_handlers_succeed (hs : list handler) (v : jsval) :
  forall (w : world) (runs rest : list happening),
    future w = runs ++ rest ->
    length runs = length hs ->
    Forall resolves runs ->
    exists w', run_handlers hs v w = Returned tt w'
               /\ leads_to w (runs_of hs v) rest w'.
Proof.
  induction hs as [|h hs IH]; intros w runs rest Hf Hlen Hall.
  - destruct runs; [|discriminate]. exists w. split; [reflexivity |].
    cbn in Hf. rewrite <- Hf. apply leads_to_refl.
  - destruct runs as [|r runs]; [discriminate |].
    apply Forall_cons in Hall as [[x Hx] Hall].
    cbn [run_handlers]. unfold bind at 1. unfold run_job, bind.
    destruct (yield_resolved (runJob h [v] PROCESSING_TIMEOUT) w r (runs ++ rest) x)
      as (w1 & -> & H1); [exact Hf | exact Hx |].
    cbn [ret].
    destruct (IH w1 runs rest) as (w2 & -> & H2);
      [apply (to_future _ _ _ _ H1) | now injection Hlen | exact Hall |].
    exists w2. split; [reflexivity |].
    exact (leads_to_trans _ _ _ _ _ _ _ H1 H2).
Qed.

Lemma run_handlers_fail (done : list handler) (h : handler) (more : list handler)
    (v : jsval) (w : world) (runs : list happening) (f : happening)
    (rest : list happening) (e : error) :
  future w = runs ++ f :: rest ->
  length runs = length done ->
  Forall resolves runs ->
  settles f = Rejected e ->
  exists w', run_handlers (done ++ h :: more) v w = Threw e w'
             /\ leads_to w (runs_of (done ++ [h]) v) rest w'.
Proof.
  revert w runs.
  induction done as [|d done IH]; intros w runs Hf Hlen Hall Hs.
  - destruct runs; [|discriminate].
    cbn [app run_handlers]. unfold bind at 1. unfold run_job, bind.
    destruct (yield_rejected (runJob h [v] PROCESSING_TIMEOUT) w f rest e)
      as (w1 & -> & H1); [exact Hf | exact Hs |].
    exists w1. split; [reflexivity | exact H1].
  - destruct runs as [|r runs]; [discriminate |].
    apply Forall_cons in Hall as [[x Hx] Hall].
    cbn [app run_handlers]. unfold bind at 1. unfold run_job, bind.
    destruct (yield_resolved (runJob d [v] PROCESSING_TIMEOUT) w r
                (runs ++ f :: rest) x) as (w1 & -> & H1); [exact Hf | exact Hx |].
    cbn [ret].
    destruct (IH w1 runs) as (w2 & -> & H2);
      [apply (to_future _ _ _ _ H1) | now injection Hlen | exact Hall | exact Hs |].
    exists w2. split; [reflexivity |].
    exact (leads_to_trans _ _ _ _ _ _ _ H1 H2).
Qed.

Section WithJSON.

Context {J : JSON}.

Ltac performs :=
  match goal with
  | |- context [perform ?e ?w] =>
      let w' := fresh "w" in
      let H := fresh "Hp" in
      destruct (perform_leads e w) as (w' & -> & H)
  end.

Ltac reads := unfold this at 1; cbn beta iota.

Ltac futures :=
  repeat match goal with
         | H : leads_to _ _ _ ?w' |- context [future ?w'] =>
             rewrite (to_future _ _ _ _ H)
         end.

Ltac same_trace H :=
  eapply leads_to_eq;
  [ exact H
  | unfold announces, destroys, releases, could_not_delete;
    cbn [app]; rewrite <- ?app_assoc; cbn [app]; reflexivity ].

Ltac names H0 :=
  repeat match goal with
         | H : leads_to _ _ _ ?w' |- _ =>
             match type of H0 with
             | context [name (queue w')] => rewrite (to_name _ _ _ _ H) in H0
             end
         end.

Lemma destroy_job_returns (s : session) (jobID : jsval) (w : world)
    (d : happening) (rest : list happening) :
  future w = d :: rest ->
  exists w',
    destroy_job s jobID w = Returned tt w'
    /\ leads_to w
         (request (Session.id s) ("destroy", [jobID])
          :: match settles d with
             | Resolved _ => []
             | Rejected _ => [could_not_delete w jobID]
             end)
         rest w'.
Proof.
  intros Hf. unfold destroy_job, try_catch, bind, session_request.
  destruct (settles d) as [x|e] eqn:Hd.
  - destruct (yield_resolved (request (Session.id s) ("destroy", [jobID])) w d rest x)
      as (w1 & -> & H1); [exact Hf | exact Hd |].
    exists w1. split; [reflexivity | exact H1].
  - destruct (yield_rejected (request (Session.id s) ("destroy", [jobID])) w d rest e)
      as (w1 & -> & H1); [exact Hf | exact Hd |].
    reads. performs. exists w0. split; [reflexivity |].
    apply (leads_to_trans _ _ _ _ _ _ _ H1) in Hp.
    rewrite (to_future _ _ _ _ H1), (to_name _ _ _ _ H1) in Hp. exact Hp.
Qed.

Lemma run_then_destroy_succeeds (s : session) (jobID payload v : jsval) (w : world)
    (runs : list happening) (d : happening) (rest : list happening) :
  decode payload = inr v ->
  future w = runs ++ d :: rest ->
  length runs = length (_handlers (queue w)) ->
  Forall resolves runs ->
  exists w',
    run_then_destroy s jobID payload w = Returned tt w'
    /\ leads_to w
         (announces w jobID v ++ runs_of (_handlers (queue w)) v
          ++ destroys w s jobID
          ++ match settles d with
             | Resolved _ => []
             | Rejected _ => [could_not_delete w jobID]
             end)
         rest w'.
Proof.
  intros Hdec Hf Hlen Hall.
  unfold run_then_destroy, bind. rewrite Hdec. cbn [lift ret].
  reads. performs. performs.
  pose proof (leads_to_trans _ _ _ _ _ _ _ Hp Hp0) as H01.
  destruct (run_handlers_succeed (_handlers (queue w)) v w1 runs (d :: rest))
    as (w2 & -> & H2);
    [ futures; exact Hf | exact Hlen | exact Hall | ].
  pose proof (leads_to_trans _ _ _ _ _ _ _ H01 H2) as H02.
  reads. performs.
  pose proof (leads_to_trans _ _ _ _ _ _ _ H02 Hp1) as H03.
  destruct (destroy_job_returns s jobID w3 d rest) as (w4 & -> & H4);
    [ futures; reflexivity | ].
  exists w4. split; [reflexivity |].
  pose proof (leads_to_trans _ _ _ _ _ _ _ H03 H4) as H04.
  unfold could_not_delete in H04. names H04.
  same_trace H04.
Qed.

(** The whole of [_runAndDestroy] when every handler succeeds. *)
Lemma handlers_all_succeed (s : session) (jobID payload v : jsval) (w : world)
    (runs : list happening) (d : happening) (rest : list happening) :
  decode payload = inr v ->
  future w = runs ++ d :: rest ->
  length runs = length (_handlers (queue w)) ->
  Forall resolves runs ->
  exists w',
    _runAndDestroy s jobID payload w = Returned tt w'
    /\ leads_to w
         (announces w jobID v ++ runs_of (_handlers (queue w)) v
          ++ destroys w s jobID
          ++ match settles d with
             | Resolved _ => []
             | Rejected _ => [could_not_delete w jobID]
             end)
         rest w'.
Proof.
  intros Hdec Hf Hlen Hall.
  destruct (run_then_destroy_succeeds s jobID payload v w runs d rest)
    as (w' & Hrun & Hto); try assumption.
  exists w'. split; [| exact Hto].
  unfold _runAndDestroy, try_catch. now rewrite Hrun.
Qed.

Lemma release_job_throws (s : session) (jobID : jsval) (e : error) (w : world)
    (r : happening) (rest : list happening) :
  future w = r :: rest ->
  exists w',
    release_job s jobID e w = Threw (after_release e r) w'
    /\ leads_to w (releases w s jobID e) rest w'.
Proof.
  intros Hf. unfold release_job, bind, after_release.
  reads. performs. unfold in_test at 1. cbn beta iota.
  rewrite (test_mode_leads_to _ _ _ _ Hp).
  unfold session_request.
  destruct (settles r) as [x|e'] eqn:Hr.
  - destruct (yield_resolved
                (request (Session.id s)
                   ("release", [jobID; JNum 0; JNum (release_delay (test_mode w))]))
                w0 r rest x) as (w1 & -> & H1); [futures; exact Hf | exact Hr |].
    exists w1. split; [reflexivity |].
    pose proof (leads_to_trans _ _ _ _ _ _ _ Hp H1) as H01. same_trace H01.
  - destruct (yield_rejected
                (request (Session.id s)
                   ("release", [jobID; JNum 0; JNum (release_delay (test_mode w))]))
                w0 r rest e') as (w1 & -> & H1); [futures; exact Hf | exact Hr |].
    exists w1. split; [reflexivity |].
    pose proof (leads_to_trans _ _ _ _ _ _ _ Hp H1) as H01. same_trace H01.
Qed.

Lemma run_then_destroy_fails (s : session) (jobID payload v : jsval) (w : world)
    (done : list handler) (h : handler) (more : list handler)
    (runs : list happening) (f : happening) (rest : list happening) (e : error) :
  decode payload = inr v ->
  _handlers (queue w) = done ++ h :: more ->
  future w = runs ++ f :: rest ->
  length runs = length done ->
  Forall resolves runs ->
  settles f = Rejected e ->
  exists w',
    run_then_destroy s jobID payload w = Threw e w'
    /\ leads_to w (announces w jobID v ++ runs_of (done ++ [h]) v) rest w'.
Proof.
  intros Hdec Hhs Hf Hlen Hall Hs.
  unfold run_then_destroy, bind. rewrite Hdec. cbn [lift ret].
  reads. performs. performs.
  pose proof (leads_to_trans _ _ _ _ _ _ _ Hp Hp0) as H01.
  rewrite Hhs.
  destruct (run_handlers_fail done h more v w1 runs f rest e)
    as (w2 & -> & H2);
    [ futures; exact Hf | exact Hlen | exact Hall | exact Hs | ].
  exists w2. split; [reflexivity |].
  pose proof (leads_to_trans _ _ _ _ _ _ _ H01 H2) as H02. same_trace H02.
Qed.

(** The whole of [_runAndDestroy] when a handler fails. *)
Lemma handler_failure (s : session) (jobID payload v : jsval) (w : world)
    (done : list handler) (h : handler) (more : list handler)
    (runs : list happening) (f r : happening) (rest : list happening) (e : error) :
  decode payload = inr v ->
  _handlers (queue w) = done ++ h :: more ->
  future w = runs ++ f :: r :: rest ->
  length runs = length done ->
  Forall resolves runs ->
  settles f = Rejected e ->
  exists w',
    _runAndDestroy s jobID payload w = Threw (after_release e r) w'
    /\ leads_to w
         (announces w jobID v ++ runs_of (done ++ [h]) v ++ releases w s jobID e)
         rest w'.
Proof.
  intros Hdec Hhs Hf Hlen Hall Hs.
  destruct (run_then_destroy_fails s jobID payload v w done h more runs f (r :: rest) e)
    as (w1 & Hrun & H1); try assumption.
  destruct (release_job_throws s jobID e w1 r rest) as (w2 & Hrel & H2);
    [futures; reflexivity |].
  exists w2. unfold _runAndDestroy, try_catch. rewrite Hrun. split; [exact Hrel |].
  pose proof (leads_to_trans _ _ _ _ _ _ _ H1 H2) as H12.
  unfold releases in H12.
  rewrite (to_name _ _ _ _ H1), (test_mode_leads_to _ _ _ _ H1) in H12.
  same_trace H12.
Qed.

(** The whole of [_runAndDestroy] when the payload has no text. *)
Lemma decode_failure (s : session) (jobID payload : jsval) (w : world)
    (r : happening) (rest : list happening) (e : error) :
  decode payload = inl e ->
  future w = r :: rest ->
  exists w',
    _runAndDestroy s jobID payload w = Threw (after_release e r) w'
    /\ leads_to w (releases w s jobID e) rest w'.
Proof.
  intros Hdec Hf.
  destruct (release_job_throws s jobID e w r rest Hf) as (w' & Hrel & H).
  exists w'. split; [| exact H].
  unfold _runAndDestroy, try_catch, run_then_destroy, bind.
  rewrite Hdec. exact Hrel.
Qed.

Lemma adds_run_handlers (P : effect -> Prop) (hs : list handler) (v : jsval) :
  (forall h, P (runJob h [v] PROCESSING_TIMEOUT)) -> adds P (run_handlers hs v).
Proof.
  intros HP. induction hs as [|h hs IH]; cbn [run_handlers].
  - apply adds_ret.
  - apply adds_bind; [| intros _; exact IH].
    unfold run_job. apply adds_bind; [now apply adds_yield | intros; apply adds_ret].
Qed.

Lemma adds_release_job (P : effect -> Prop) (s : session) (jobID : jsval) (e : error) :
  (forall args, P (notify info args)) ->
  (forall args, P (request (Session.id s) ("release", args))) ->
  adds P (release_job s jobID e).
Proof.
  intros Hn Hr. unfold release_job.
  apply adds_bind; [apply adds_this | intros q].
  apply adds_bind; [now apply adds_perform | intros _].
  apply adds_bind; [apply adds_in_test | intros test].
  apply adds_bind; [now apply adds_yield | intros _; apply adds_throw].
Qed.

Lemma adds_destroy_job (P : effect -> Prop) (s : session) (jobID : jsval) :
  (forall args, P (notify info args)) ->
  (forall args, P (request (Session.id s) ("destroy", args))) ->
  adds P (destroy_job s jobID).
Proof.
  intros Hn Hd. unfold destroy_job. apply adds_try_catch.
  - apply adds_bind; [now apply adds_yield | intros; apply adds_ret].
  - intros _. apply adds_bind; [apply adds_this | intros q]. now apply adds_perform.
Qed.

Lemma adds__runAndDestroy (P : effect -> Prop) (s : session) (jobID payload : jsval) :
  (forall args, P (notify info args)) ->
  (forall args, P (notify debug args)) ->
  (forall v h, decode payload = inr v -> P (runJob h [v] PROCESSING_TIMEOUT)) ->
  (forall args, P (request (Session.id s) ("destroy", args))) ->
  (forall args, P (request (Session.id s) ("release", args))) ->
  adds P (_runAndDestroy s jobID payload).
Proof.
  intros Hn Hg Hrun Hd Hr. unfold _runAndDestroy.
  apply adds_try_catch; [| intros e; now apply adds_release_job].
  unfold run_then_destroy.
  destruct (decode payload) as [e|v] eqn:Hdec; cbn [lift];
    [apply adds_bind_throw | apply adds_bind_ret].
  apply adds_bind; [apply adds_this | intros q].
  apply adds_bind; [now apply adds_perform | intros _].
  apply adds_bind; [now apply adds_perform | intros _].
  apply adds_bind; [apply adds_run_handlers; intros h; now apply Hrun | intros _].
  apply adds_bind; [apply adds_this | intros q'].
  apply adds_bind; [now apply adds_perform | intros _].
  now apply adds_destroy_job.
Qed.

Lemma grows__runAndDestroy (s : session) (jobID payload : jsval) :
  adds (fun _ => True) (_runAndDestroy s jobID payload).
Proof. now apply adds__runAndDestroy. Qed.


Lemma requests_of_runs (hs : list handler) (v : jsval) :
  requests_of (runs_of hs v) = [].
Proof. induction hs as [|h hs IH]; [reflexivity | exact IH]. Qed.

(** C9.  When every registered handler succeeds on a reserved job,
    [_runAndDestroy] sends [destroy(jobID)] and returns; when the destroy
    request fails, one more line is logged at info level and the call still
    returns: the destroy is its only request, so there is no release, and
    the error of the destroy does not leave it. *)
Theorem destroy_failure_is_swallowed (s : session) (jobID payload v : jsval)
    (w : world) (runs : list happening) (d : happening) (rest : list happening) :
  decode payload = inr v ->
  future w = runs ++ d :: rest ->
  length runs = length (_handlers (queue w)) ->
  Forall resolves runs ->
  exists w',
    _runAndDestroy s jobID payload w = Returned tt w'
    /\ leads_to w
         (announces w jobID v ++ runs_of (_handlers (queue w)) v
          ++ destroys w s jobID
          ++ match settles d with
             | Resolved _ => []
             | Rejected _ =>
                 [notify info [JStr "Could not delete job %s:%s";
                               JStr (name (queue w)); jobID]]
             end)
         rest w'
    /\ requests_of (trace w')
       = requests_of (trace w) ++ [(Session.id s, ("destroy", [jobID]))].
Proof.
  intros Hdec Hf Hlen Hall.
  destruct (handlers_all_succeed s jobID payload v w runs d rest)
    as (w' & Hrun & Hto); try assumption.
  exists w'. split; [exact Hrun |]. split; [exact Hto |].
  rewrite (to_trace _ _ _ _ Hto), !requests_of_app, requests_of_runs.
  destruct (settles d); reflexivity.
Qed.

(** C3, as the code has it.  When a handler fails on a reserved job, or the
    payload has no text, [_runAndDestroy] runs no further handler, logs the
    error and sends [release(jobID, 0, delay)] with a delay of 60 seconds,
    or 0 in the test environment; after that it throws the handler's error
    when the release request resolves, and the error of the release request
    when that request is rejected. *)
Theorem failed_run_is_released (s : session) (jobID payload : jsval) (w : world) :
  (forall v done h more runs f r rest e,
      decode payload = inr v ->
      _handlers (queue w) = done ++ h :: more ->
      future w = runs ++ f :: r :: rest ->
      length runs = length done ->
      Forall resolves runs ->
      settles f = Rejected e ->
      exists w',
        _runAndDestroy s jobID payload w
        = Threw (match settles r with
                 | Resolved _ => e
                 | Rejected e' => e'
                 end) w'
        /\ leads_to w
             (announces w jobID v ++ runs_of (done ++ [h]) v
              ++ [notify info [JStr "Error processing queued job %s:%ss";
                               JStr (name (queue w)); jobID; stack e];
                  request (Session.id s)
                    ("release",
                     [jobID; JNum 0; JNum (if test_mode w then 0 else 60)])])
             rest w')
  /\ (forall r rest e,
        decode payload = inl e ->
        future w = r :: rest ->
        exists w',
          _runAndDestroy s jobID payload w
          = Threw (match settles r with
                   | Resolved _ => e
                   | Rejected e' => e'
                   end) w'
          /\ leads_to w
               [notify info [JStr "Error processing queued job %s:%ss";
                             JStr (name (queue w)); jobID; stack e];
                request (Session.id s)
                  ("release",
                   [jobID; JNum 0; JNum (if test_mode w then 0 else 60)])]
               rest w')
  /\ RELEASE_DELAY / 1000 = 60.
Proof.
  split; [| split; [| reflexivity]].
  - intros v done h more runs f r rest e Hdec Hhs Hf Hlen Hall Hs.
    destruct (handler_failure s jobID payload v w done h more runs f r rest e)
      as (w' & Hrun & Hto); try assumption.
    exists w'. split; [exact Hrun |].
    unfold releases, release_delay in Hto.
    destruct (test_mode w); exact Hto.
  - intros r rest e Hdec Hf.
    destruct (decode_failure s jobID payload w r rest e Hdec Hf) as (w' & Hrun & Hto).
    exists w'. split; [exact Hrun |].
    unfold releases, release_delay in Hto.
    destruct (test_mode w); exact Hto.
Qed.

End WithJSON.

(** A queue with two handlers and its first reserve session. *)
Definition two_handlers : Queue :=
  {| name := "mail"; _prefixedName := "test-mail"; _authenticate := None;
     _processing := false; _handlers := [0; 1]%nat; _putSession := None;
     _reserveSessions := [] |}.

Definition reserve_0 : session :=
  {| Session.id := "mail/0"; Session.authenticate := None;
     Session.setup := [("watch", [JStr "test-mail"]); ("ignore", [JStr "default"])] |}.

Definition world_of (q : Queue) (f : list happening) : world :=
  {| queue := q; NODE_ENV := None; future := f; trace := []; ended := [] |}.

Lemma destroy_failure_is_swallowed_witness :
  exists w',
    _runAndDestroy (J := CompactJSON.json) reserve_0 (JStr "7") (JBuffer "[1,2]")
      (world_of two_handlers
         [settle (Resolved JUndefined); settle (Resolved JUndefined);
          settle (Rejected (StringError "NOT_FOUND"))])
    = Returned tt w'
    /\ requests_of (trace w') = [("mail/0", ("destroy", [JStr "7"]))].
Proof.
  destruct (destroy_failure_is_swallowed (J := CompactJSON.json)
              reserve_0 (JStr "7") (JBuffer "[1,2]") (JArr [JNum 1; JNum 2])
              (world_of two_handlers
                 [settle (Resolved JUndefined); settle (Resolved JUndefined);
                  settle (Rejected (StringError "NOT_FOUND"))])
              [settle (Resolved JUndefined); settle (Resolved JUndefined)]
              (settle (Rejected (StringError "NOT_FOUND"))) [])
    as (w' & Hrun & _ & Hreq).
  - reflexivity.
  - reflexivity.
  - reflexivity.
  - repeat constructor; eexists; reflexivity.
  - exists w'. split; [exact Hrun | exact Hreq].
Defined.

(** The first handler fails with an error of its own, and the connection
    closes under the release request: what leaves [_runAndDestroy] is the
    error of the release request. *)
Lemma release_failure_replaces_the_error :
  let run :=
    _runAndDestroy (J := CompactJSON.json) reserve_0 (JStr "7") (JBuffer "[1,2]")
      (world_of two_handlers
         [settle (Rejected (Error "boom")); settle (Rejected (Error "TIMED_OUT"))]) in
  requests_of (trace (final run)) = [("mail/0", ("release", [JStr "7"; JNum 0; JNum 60]))]
  /\ thrown run = Some (Error "TIMED_OUT")
  /\ thrown run <> Some (Error "boom").
Proof. vm_compute. repeat split; discriminate. Qed.

Lemma failed_run_is_released_witness :
  (exists w',
      _runAndDestroy (J := CompactJSON.json) reserve_0 (JStr "7") (JBuffer "[1,2]")
        (world_of two_handlers
           [settle (Rejected (Error "boom")); settle (Resolved JUndefined)])
      = Threw (Error "boom") w'
      /\ requests_of (trace w')
         = [("mail/0", ("release", [JStr "7"; JNum 0; JNum 60]))])
  /\ (exists w',
        _runAndDestroy (J := CompactJSON.json) reserve_0 (JStr "7") JUndefined
          (world_of two_handlers [settle (Resolved JUndefined)])
        = Threw (TypeError "Cannot read property 'toString' of undefined") w'
        /\ requests_of (trace w')
           = [("mail/0", ("release", [JStr "7"; JNum 0; JNum 60]))]).
Proof.
  split.
  - destruct (failed_run_is_released (J := CompactJSON.json)
                reserve_0 (JStr "7") (JBuffer "[1,2]")
                (world_of two_handlers
                   [settle (Rejected (Error "boom")); settle (Resolved JUndefined)]))
      as (Hfail & _ & _).
    destruct (Hfail (JArr [JNum 1; JNum 2]) [] 0%nat [1%nat] []
                (settle (Rejected (Error "boom"))) (settle (Resolved JUndefined)) []
                (Error "boom"))
      as (w' & Hrun & Hto).
    + reflexivity.
    + reflexivity.
    + reflexivity.
    + reflexivity.
    + constructor.
    + reflexivity.
    + exists w'. split; [exact Hrun |].
      rewrite (to_trace _ _ _ _ Hto). reflexivity.
  - destruct (failed_run_is_released (J := CompactJSON.json)
                reserve_0 (JStr "7") JUndefined
                (world_of two_handlers [settle (Resolved JUndefined)]))
      as (_ & Hdecode & _).
    destruct (Hdecode (settle (Resolved JUndefined)) []
                (TypeError "Cannot read property 'toString' of undefined"))
      as (w' & Hrun & Hto).
    + reflexivity.
    + reflexivity.
    + exists w'. split; [exact Hrun |].
      rewrite (to_trace _ _ _ _ Hto). reflexivity.
Defined.

End RunAndDestroyFacts.

(** ** What [JSON.parse] makes of the text of [JSON.stringify] *)

Module JSONFacts.
Import CompactJSON.






















(** *** The values that JSON holds as they are

    [null], the booleans, the numbers, the strings, and the arrays and
    objects of such values, an object having each of its keys once.
    [undefined], [NaN] and a Buffer are not among them, nor is an array or
    an object that holds one of them. *)



(** The text of a value as an item of an array: [null] where the value has
    none. *)
Definition text (v : jsval) : string := default "null" (text_of v).

Definition entry (kv : string * jsval) : string :=
  quoted (fst kv) +:+ ":" +:+ text (snd kv).

(** What follows a value inside a text: nothing, or the comma or bracket
    that ends it. *)
Definition delimited (rest : list ascii) : Prop :=
  match rest with
  | [] => True
  | a :: _ => a = ","%char \/ a = "]"%char \/ a = "}"%char
  end.


Lemma delimited_no_space (rest : list ascii) : delimited rest -> skip_spaces rest = rest.
Proof.
  destruct rest as [|a rest]; [trivial |]. now intros [->|[->| ->]].
Qed.





























End JSONFacts.

(** ** From [push] to the handlers *)

Module RoundTripFacts.

Import Queue Runs PushFacts RunAndDestroyFacts JSONFacts.


Section WithJSON.

Context {J : JSON}.




End WithJSON.






End RoundTripFacts.

(** ** The two loops *)

Module LoopFacts.

Import Queue Runs RunAndDestroyFacts.

Definition reserves (s : session) (timeout : Z) : effect :=
  request (Session.id s) ("reserve_with_timeout", [JNum timeout]).

(** One turn of a loop in which a job is reserved, every handler succeeds
    and the destroy request settles, one way or the other. *)
Record job_turn : Type := {
  reserved : happening;
  jobID : jsval;
  payload : jsval;
  handled : list happening;
  destroyed : happening
}.

Definition happenings (t : job_turn) : list happening :=
  reserved t :: handled t ++ [destroyed t].

Definition turn_requests (s : session) (timeout : Z) (t : job_turn)
  : list (string * command) :=
  [(Session.id s, ("reserve_with_timeout", [JNum timeout]));
   (Session.id s, ("destroy", [jobID t]))].

Section WithJSON.

Context {J : JSON}.

Definition well_served (hs : list handler) (t : job_turn) : Prop :=
  (exists reply, settles (reserved t) = Resolved reply
                 /\ destructure reply = inr (jobID t, payload t))
  /\ (exists v, decode (payload t) = inr v)
  /\ length (handled t) = length hs
  /\ Forall resolves (handled t).

Lemma reserve_rejected (s : session) (timeout : Z) (w : world)
    (r : happening) (rest : list happening) (e : error) :
  future w = r :: rest ->
  settles r = Rejected e ->
  exists w', reserve_and_run s timeout w = Threw e w'
             /\ leads_to w [reserves s timeout] rest w'.
Proof.
  intros Hf Hr. unfold reserve_and_run, bind, session_request.
  destruct (yield_rejected (reserves s timeout) w r rest e Hf Hr) as (w' & H & Hto).
  unfold reserves in H. rewrite H. now exists w'.
Qed.

Lemma reserve_resolved (s : session) (timeout : Z) (w : world)
    (r : happening) (rest : list happening) (reply : jsval) (job : jsval * jsval) :
  future w = r :: rest ->
  settles r = Resolved reply ->
  destructure reply = inr job ->
  exists w1, reserve_and_run s timeout w = _runAndDestroy s (fst job) (snd job) w1
             /\ leads_to w [reserves s timeout] rest w1.
Proof.
  intros Hf Hr Hd. unfold reserve_and_run, bind, session_request.
  destruct (yield_resolved (reserves s timeout) w r rest reply Hf Hr) as (w' & H & Hto).
  unfold reserves in H. rewrite H, Hd. now exists w'.
Qed.

Lemma turn_is_served (s : session) (timeout : Z) (w : world) (t : job_turn)
    (rest : list happening) :
  well_served (_handlers (queue w)) t ->
  future w = happenings t ++ rest ->
  exists w' new,
    reserve_and_run s timeout w = Returned tt w'
    /\ leads_to w new rest w'
    /\ requests_of new = turn_requests s timeout t.
Proof.
  intros ((reply & Hr & Hd) & (v & Hv) & Hlen & Hall) Hf.
  unfold happenings in Hf. cbn [app] in Hf. rewrite <- app_assoc in Hf.
  destruct (reserve_resolved s timeout w (reserved t)
              (handled t ++ [destroyed t] ++ rest) reply (jobID t, payload t)
              Hf Hr Hd) as (w1 & -> & H1).
  cbn [fst snd].
  destruct (handlers_all_succeed s (jobID t) (payload t) v w1 (handled t)
              (destroyed t) rest) as (w2 & -> & H2).
  - exact Hv.
  - apply (to_future _ _ _ _ H1).
  - now rewrite (to_handlers _ _ _ _ H1).
  - exact Hall.
  - exists w2. eexists. split; [reflexivity |].
    split; [exact (leads_to_trans _ _ _ _ _ _ _ H1 H2) |].
    rewrite !requests_of_app, requests_of_runs.
    unfold turn_requests. destruct (settles (destroyed t)); reflexivity.
Qed.

(** One turn in which a job is reserved and a handler fails after
    [failed_after] went well; the release request settles with
    [released]. *)
Record failing_turn : Type := {
  f_reserved : happening;
  f_jobID : jsval;
  f_payload : jsval;
  f_handled : list happening;
  f_failure : happening;
  f_released : happening
}.

Definition f_happenings (t : failing_turn) : list happening :=
  f_reserved t :: f_handled t ++ [f_failure t; f_released t].

Definition fails_with (hs : list handler) (t : failing_turn) (e : error) : Prop :=
  (exists reply, settles (f_reserved t) = Resolved reply
                 /\ destructure reply = inr (f_jobID t, f_payload t))
  /\ (exists v, decode (f_payload t) = inr v)
  /\ (length (f_handled t) < length hs)%nat
  /\ Forall resolves (f_handled t)
  /\ settles (f_failure t) = Rejected e.

Lemma split_at {A} (l : list A) (n : nat) :
  (n < length l)%nat ->
  exists done x more, l = done ++ x :: more /\ length done = n.
Proof.
  intros Hn. destruct (drop n l) as [|x more] eqn:Hdrop.
  - apply (f_equal length) in Hdrop. rewrite length_drop in Hdrop. cbn in Hdrop. lia.
  - exists (take n l), x, more. split.
    + now rewrite <- Hdrop, take_drop.
    + rewrite length_take. lia.
Qed.

Lemma turn_fails (s : session) (timeout : Z) (w : world) (t : failing_turn)
    (rest : list happening) (e : error) :
  fails_with (_handlers (queue w)) t e ->
  future w = f_happenings t ++ rest ->
  exists w' new,
    reserve_and_run s timeout w = Threw (after_release e (f_released t)) w'
    /\ leads_to w new rest w'
    /\ requests_of new
       = [(Session.id s, ("reserve_with_timeout", [JNum timeout]));
          (Session.id s,
           ("release", [f_jobID t; JNum 0; JNum (release_delay (test_mode w))]))].
Proof.
  intros ((reply & Hr & Hd) & (v & Hv) & Hlen & Hall & Hfail) Hf.
  unfold f_happenings in Hf. cbn [app] in Hf. rewrite <- app_assoc in Hf.
  cbn [app] in Hf.
  destruct (reserve_resolved s timeout w (f_reserved t)
              (f_handled t ++ f_failure t :: f_released t :: rest) reply
              (f_jobID t, f_payload t) Hf Hr Hd) as (w1 & -> & H1).
  cbn [fst snd].
  destruct (split_at _ _ Hlen) as (done & h & more & Hhs & Hdone).
  destruct (handler_failure s (f_jobID t) (f_payload t) v w1 done h more
              (f_handled t) (f_failure t) (f_released t) rest e)
    as (w2 & -> & H2).
  - exact Hv.
  - now rewrite (to_handlers _ _ _ _ H1).
  - apply (to_future _ _ _ _ H1).
  - now symmetry.
  - exact Hall.
  - exact Hfail.
  - exists w2. eexists. split; [reflexivity |].
    split; [exact (leads_to_trans _ _ _ _ _ _ _ H1 H2) |].
    rewrite !requests_of_app, requests_of_runs. unfold releases.
    now rewrite (test_mode_leads_to _ _ _ _ H1).
Qed.

Lemma adds_reserve_and_run (P : effect -> Prop) (s : session) (timeout : Z) :
  (forall args, P (notify info args)) ->
  (forall args, P (notify debug args)) ->
  (forall h args t, P (runJob h args t)) ->
  P (reserves s timeout) ->
  (forall args, P (request (Session.id s) ("destroy", args))) ->
  (forall args, P (request (Session.id s) ("release", args))) ->
  adds P (reserve_and_run s timeout).
Proof.
  intros Hn Hg Hrun Hres Hd Hr. unfold reserve_and_run, session_request.
  apply adds_bind; [now apply adds_yield | intros reply].
  apply adds_bind; [apply adds_lift | intros job].
  apply adds__runAndDestroy; auto.
Qed.

(** Neither a line of the error log nor a timer. *)
Definition quiet (e : effect) : Prop :=
  match e with
  | notify error_level _ | setTimeout _ => False
  | _ => True
  end.

Lemma quiet_reserve_and_run (s : session) (timeout : Z) :
  adds quiet (reserve_and_run s timeout).
Proof. apply adds_reserve_and_run; intros; exact I. Qed.

Lemma quiet_leads_to (s : session) (timeout : Z) (w w' : world) (new : list effect)
    (rest : list happening) :
  final (reserve_and_run s timeout w) = w' ->
  leads_to w new rest w' ->
  Forall quiet new.
Proof.
  intros Hfinal Hto.
  destruct (quiet_reserve_and_run s timeout w) as (new' & Htrace & Hquiet).
  rewrite Hfinal, (to_trace _ _ _ _ Hto) in Htrace.
  apply app_inv_head in Htrace. now subst.
Qed.

(** The [catch] block of [_processContinously], after what the [try] block
    threw. *)
Lemma iteration_catches (s : session) (w w1 : world) (e : error) :
  reserve_and_run s (RESERVE_TIMEOUT / 1000) w = Threw e w1 ->
  (is_TIMED_OUT e = true -> iteration s w = Returned tt w1)
  /\ (is_TIMED_OUT e = false ->
      forall t rest,
        future w1 = t :: rest ->
        exists w',
          iteration s w = Returned tt w'
          /\ leads_to w1
               [notify error_level [error_value e];
                setTimeout (reserve_backoff (test_mode w1))]
               rest w').
Proof.
  intros Hrun. unfold iteration, try_catch. rewrite Hrun. split; intros ->.
  - reflexivity.
  - intros t rest Hf. unfold bind. unfold perform at 1. cbn beta iota.
    unfold in_test at 1. cbn beta iota.
    match goal with
    | |- context [sleep ?d ?w0] =>
        destruct (sleep_wakes d w0 t rest) as (w2 & -> & H2); [exact Hf |]
    end.
    exists w2. split; [reflexivity |].
    destruct H2 as [Ht Hfu Hn Hh He]. cbn in *.
    split; try assumption. rewrite Ht, <- app_assoc. reflexivity.
Qed.

Lemma grows_iteration (s : session) : adds (fun _ => True) (iteration s).
Proof.
  unfold iteration. apply adds_try_catch.
  - apply adds_reserve_and_run; intros; exact I.
  - intros e. destruct (is_TIMED_OUT e); [apply adds_ret |].
    apply adds_bind; [now apply adds_perform | intros _].
    apply adds_bind; [apply adds_in_test | intros test]. now apply adds_sleep.
Qed.

Lemma grows_process_loop (fuel : nat) (s : session) :
  adds (fun _ => True) (process_loop fuel s).
Proof.
  induction fuel as [|fuel IH]; cbn [process_loop]; [apply adds_unfinished |].
  apply adds_bind; [apply adds_this | intros q].
  destruct (keeps_going q); [| apply adds_ret].
  apply adds_bind; [apply grows_iteration | intros _; exact IH].
Qed.

(** While the queue keeps going, the loop's next step is a reservation. *)
Lemma loop_reserves_next (fuel : nat) (s : session) (w : world) :
  keeps_going (queue w) = true ->
  exists more,
    trace (final (process_loop (S fuel) s w))
    = trace w ++ reserves s (RESERVE_TIMEOUT / 1000) :: more.
Proof.
  intros Hgo. cbn [process_loop]. unfold bind at 1, this at 1. cbn beta iota.
  rewrite Hgo.
  destruct (bind_keeps (iteration s) (fun _ => process_loop fuel s) w) as (m1 & ->).
  { intros _. apply grows_process_loop. }
  unfold iteration.
  match goal with
  | |- context [try_catch ?c ?h w] =>
      destruct (try_catch_keeps c h w) as (m2 & ->)
  end.
  { intros e. destruct (is_TIMED_OUT e); [apply adds_ret |].
    apply adds_bind; [now apply adds_perform | intros _].
    apply adds_bind; [apply adds_in_test | intros test]. now apply adds_sleep. }
  unfold reserve_and_run.
  match goal with
  | |- context [bind ?c ?k w] => destruct (bind_keeps c k w) as (m3 & ->)
  end.
  { intros reply. apply adds_bind; [apply adds_lift | intros job].
    apply grows__runAndDestroy. }
  unfold session_request, yield.
  match goal with
  | |- context [bind ?c ?k w] => destruct (bind_keeps c k w) as (m4 & ->)
  end.
  { intros _. apply adds_bind; [apply adds_resume |].
    intros [x|e]; [apply adds_ret | apply adds_throw]. }
  cbn. exists (m4 ++ m3 ++ m2 ++ m1). rewrite <- !app_assoc. reflexivity.
Qed.

(** [stop] clears the flag the loop tests. *)
Lemma stop_stops (w : world) : keeps_going (queue (stop w)) = false.
Proof.
  unfold stop. now destruct (end_sessions (_reserveSessions (queue w))).
Qed.

(** [stop] while a reservation is pending: the reserve session is ended, the
    request fails with TIMED_OUT, and the loop returns after this turn
    without another request. *)
Lemma loop_ends_after_stop (fuel : nat) (s : session) (w : world)
    (h : happening) (rest : list happening) (e : error) :
  keeps_going (queue w) = true ->
  future w = h :: rest ->
  stop_called h = true ->
  settles h = Rejected e ->
  is_TIMED_OUT e = true ->
  exists w',
    process_loop (S (S fuel)) s w = Returned tt w'
    /\ trace w' = trace w ++ [reserves s (RESERVE_TIMEOUT / 1000)]
    /\ future w' = rest
    /\ keeps_going (queue w') = false.
Proof.
  intros Hgo Hf Hstop Hs Hidle.
  cbn [process_loop]. unfold bind at 1, this at 1. cbn beta iota. rewrite Hgo.
  unfold bind at 1, iteration, try_catch, reserve_and_run.
  unfold bind at 1, session_request, yield.
  unfold bind at 1, perform at 1. cbn beta iota.
  unfold bind at 1, resume. cbn [future with_trace]. rewrite Hf, Hstop, Hs.
  cbn beta iota. unfold throw at 1. rewrite Hidle. unfold ret at 1.
  unfold bind at 1, this at 1. cbn beta iota. rewrite stop_stops.
  eexists. split; [reflexivity |].
  split; [| split; [| apply stop_stops]].
  - now rewrite (to_trace _ _ _ _ (stop_leads _)), app_nil_r.
  - now rewrite (to_future _ _ _ _ (stop_leads _)).
Qed.

(** The test of [once] is the test of [_processContinously]. *)
Lemma once_is_idle_is_TIMED_OUT (e : error) : once_is_idle e = is_TIMED_OUT e.
Proof.
  unfold once_is_idle, is_TIMED_OUT. destruct e as [code|n m]; [| reflexivity].
  unfold message_is. cbn. now rewrite andb_false_r.
Qed.

Definition any_processed (turns : list job_turn) : bool :=
  negb (Nat.eqb (length turns) 0).

Lemma once_loop_ends (s : session) (fuel : nat) (any : bool) (w w' : world)
    (e : error) :
  reserve_and_run s 0 w = Threw e w' ->
  once_loop (S fuel) s any w
  = if is_TIMED_OUT e then Returned any w' else Threw e w'.
Proof.
  intros H. cbn [once_loop]. unfold bind, attempt. rewrite H.
  rewrite once_is_idle_is_TIMED_OUT. now destruct (is_TIMED_OUT e).
Qed.

Lemma once_loop_drains (s : session) (turns : list job_turn) :
  forall (w : world) (any : bool) (fuel : nat) (rest : list happening),
    Forall (well_served (_handlers (queue w))) turns ->
    future w = concat (map happenings turns) ++ rest ->
    exists w' new,
      once_loop (length turns + fuel) s any w
      = once_loop fuel s (any || any_processed turns) w'
      /\ leads_to w new rest w'
      /\ requests_of new = concat (map (turn_requests s 0) turns).
Proof.
  induction turns as [|t turns IH]; intros w any fuel rest Hall Hf.
  - exists w, []. cbn. rewrite orb_false_r. split; [reflexivity |].
    split; [| reflexivity]. cbn in Hf. rewrite <- Hf. apply leads_to_refl.
  - apply Forall_cons in Hall as [Ht Hall].
    cbn [map concat] in Hf. rewrite <- app_assoc in Hf.
    destruct (turn_is_served s 0 w t _ Ht Hf) as (w1 & n1 & Hrun & H1 & Hreq1).
    destruct (IH w1 true fuel rest) as (w2 & n2 & Hloop & H2 & Hreq2).
    + now rewrite (to_handlers _ _ _ _ H1).
    + apply (to_future _ _ _ _ H1).
    + exists w2, (n1 ++ n2). split; [| split].
      * cbn [length Nat.add once_loop]. unfold bind at 1, attempt. rewrite Hrun.
        rewrite Hloop. unfold any_processed. cbn. now rewrite orb_true_r.
      * exact (leads_to_trans _ _ _ _ _ _ _ H1 H2).
      * rewrite requests_of_app, Hreq1, Hreq2. reflexivity.
Qed.

(** The session that [_reserve(index)] gives in a world. *)
Definition reserve_session (w : world) (index : nat) : session :=
  match mjoin (_reserveSessions (queue w) !! index) with
  | Some s => s
  | None =>
      {| Session.id := name (queue w) +:+ "/" +:+ nat_to_string index;
         Session.authenticate := _authenticate (queue w);
         Session.setup := [("watch", [JStr (_prefixedName (queue w))]);
                           ("ignore", [JStr "default"])] |}
  end.

Lemma _reserve_gives (w : world) (index : nat) :
  exists w', _reserve index w = Returned (reserve_session w index) w'
             /\ leads_to w [] (future w) w'.
Proof.
  unfold _reserve, reserve_session.
  destruct (mjoin (_reserveSessions (queue w) !! index));
    eexists; (split; [reflexivity |]); split; cbn; rewrite ?app_nil_r; reflexivity.
Qed.

(** [once] up to its loop, on a queue that is not processing and has a
    handler. *)
Lemma once_enters_loop (fuel : nat) (w : world) :
  _processing (queue w) = false ->
  _handlers (queue w) <> [] ->
  exists w1,
    once fuel w = once_loop fuel (reserve_session w 0) false w1
    /\ leads_to w
         [notify debug [JStr "Waiting for jobs on queue %s"; JStr (name (queue w))]]
         (future w) w1.
Proof.
  intros Hp Hhs. unfold once, bind. unfold this at 1. cbn beta iota. rewrite Hp.
  destruct (_handlers (queue w)) as [|h hs] eqn:E; [contradiction |].
  unfold perform at 1. cbn beta iota.
  match goal with
  | |- context [_reserve 0 ?w0] =>
      destruct (_reserve_gives w0 0) as (w1 & -> & H1)
  end.
  exists w1. split; [reflexivity |].
  split; try (rewrite ?(to_trace _ _ _ _ H1), ?(to_future _ _ _ _ H1),
                ?(to_name _ _ _ _ H1), ?(to_handlers _ _ _ _ H1),
                ?(to_env _ _ _ _ H1); cbn; rewrite ?app_nil_r; reflexivity).
Qed.

(** C4, as the code has it.  In a turn of the continuous loop, an error
    that reaches the [catch] with the TIMED_OUT condition is passed over, and
    any other error is logged as an error and followed by one timer of
    RESERVE_BACKOFF (0 in the test environment).  So a reservation that
    timed out adds nothing to the trace but its request, and the loop, while
    the queue keeps going, reserves again at once; a reservation that fails
    with another error is logged and followed by the timer.  After a failed
    handler the error that reaches the [catch] is the one [_runAndDestroy]
    throws, the handler's or the release request's: it is logged and
    followed by the timer when it is not TIMED_OUT, and passed over when it
    is. *)
Theorem loop_backs_off_unless_timed_out (s : session) (w : world) :
  (forall e w1,
      reserve_and_run s 30 w = Threw e w1 ->
      (is_TIMED_OUT e = true -> iteration s w = Returned tt w1)
      /\ (is_TIMED_OUT e = false ->
          forall t rest,
            future w1 = t :: rest ->
            exists w',
              iteration s w = Returned tt w'
              /\ leads_to w1
                   [notify error_level [error_value e];
                    setTimeout (if test_mode w1 then 0 else 30000)]
                   rest w'))
  /\ (forall r rest e,
      future w = r :: rest -> settles r = Rejected e -> is_TIMED_OUT e = true ->
      exists w',
        iteration s w = Returned tt w'
        /\ leads_to w [reserves s 30] rest w'
        /\ (keeps_going (queue w') = true ->
            forall fuel, exists more,
              trace (final (process_loop (S fuel) s w'))
              = trace w' ++ reserves s 30 :: more))
  /\ (forall r t rest e,
        future w = r :: t :: rest -> settles r = Rejected e ->
        is_TIMED_OUT e = false ->
        exists w',
          iteration s w = Returned tt w'
          /\ leads_to w
               [reserves s 30; notify error_level [error_value e];
                setTimeout (if test_mode w then 0 else 30000)]
               rest w')
  /\ (forall turn t rest e,
        fails_with (_handlers (queue w)) turn e ->
        future w = f_happenings turn ++ t :: rest ->
        exists w' new,
          iteration s w = Returned tt w'
          /\ Forall quiet new
          /\ requests_of new
             = [(Session.id s, ("reserve_with_timeout", [JNum 30]));
                (Session.id s,
                 ("release",
                  [f_jobID turn; JNum 0; JNum (release_delay (test_mode w))]))]
          /\ match settles (f_released turn) with
             | Resolved _ =>
                 if is_TIMED_OUT e
                 then leads_to w new (t :: rest) w'
                 else leads_to w
                        (new ++ [notify error_level [error_value e];
                                 setTimeout (if test_mode w then 0 else 30000)])
                        rest w'
             | Rejected e' =>
                 if is_TIMED_OUT e'
                 then leads_to w new (t :: rest) w'
                 else leads_to w
                        (new ++ [notify error_level [error_value e'];
                                 setTimeout (if test_mode w then 0 else 30000)])
                        rest w'
             end)
  /\ RESERVE_TIMEOUT / 1000 = 30
  /\ RESERVE_BACKOFF = 30000.
Proof.
  assert (Hbackoff : forall w1 w2 : world,
             test_mode w1 = test_mode w2 ->
             reserve_backoff (test_mode w1) = if test_mode w2 then 0 else 30000).
  { intros w1 w2 ->. unfold reserve_backoff. now destruct (test_mode w2). }
  split; [| split; [| split; [| split; [| split; reflexivity]]]].
  - intros e w1 Hrun. destruct (iteration_catches s w w1 e Hrun) as [Hidle Hother].
    split; [exact Hidle |]. intros Hte t rest Hf.
    destruct (Hother Hte t rest Hf) as (w' & Hit & Hto).
    exists w'. split; [exact Hit |]. now rewrite (Hbackoff w1 w1 eq_refl) in Hto.
  - intros r rest e Hf Hr Hidle.
    destruct (reserve_rejected s (RESERVE_TIMEOUT / 1000) w r rest e Hf Hr)
      as (w1 & Hrun & H1).
    destruct (iteration_catches s w w1 e Hrun) as [Hcatch _].
    exists w1. split; [now apply Hcatch |]. split; [exact H1 |].
    intros Hgo fuel. now apply loop_reserves_next.
  - intros r t rest e Hf Hr Hother.
    destruct (reserve_rejected s (RESERVE_TIMEOUT / 1000) w r (t :: rest) e Hf Hr)
      as (w1 & Hrun & H1).
    destruct (iteration_catches s w w1 e Hrun) as [_ Hcatch].
    destruct (Hcatch Hother t rest (to_future _ _ _ _ H1)) as (w2 & Hit & H2).
    exists w2. split; [exact Hit |].
    rewrite (Hbackoff w1 w (test_mode_leads_to _ _ _ _ H1)) in H2.
    exact (leads_to_trans _ _ _ _ _ _ _ H1 H2).
  - intros turn t rest e Hfails Hf.
    destruct (turn_fails s (RESERVE_TIMEOUT / 1000) w turn (t :: rest) e Hfails Hf)
      as (w1 & new & Hrun & H1 & Hreq).
    assert (Hquiet : Forall quiet new).
    { apply (quiet_leads_to s (RESERVE_TIMEOUT / 1000) w w1 new (t :: rest));
        [now rewrite Hrun | exact H1]. }
    destruct (iteration_catches s w w1 _ Hrun) as [Hidle Hother].
    unfold after_release in Hidle, Hother.
    destruct (settles (f_released turn)) as [x|e'].
    + destruct (is_TIMED_OUT e) eqn:Hte.
      * exists w1, new. repeat split; auto.
        all: try apply (to_trace _ _ _ _ H1); try apply (to_future _ _ _ _ H1);
          try apply (to_name _ _ _ _ H1); try apply (to_handlers _ _ _ _ H1);
          try apply (to_env _ _ _ _ H1).
      * destruct (Hother eq_refl t rest (to_future _ _ _ _ H1)) as (w2 & Hit & H2).
        exists w2, new. split; [exact Hit |]. split; [exact Hquiet |].
        split; [exact Hreq |].
        rewrite (Hbackoff w1 w (test_mode_leads_to _ _ _ _ H1)) in H2.
        exact (leads_to_trans _ _ _ _ _ _ _ H1 H2).
    + destruct (is_TIMED_OUT e') eqn:Hte.
      * exists w1, new. repeat split; auto.
        all: try apply (to_trace _ _ _ _ H1); try apply (to_future _ _ _ _ H1);
          try apply (to_name _ _ _ _ H1); try apply (to_handlers _ _ _ _ H1);
          try apply (to_env _ _ _ _ H1).
      * destruct (Hother eq_refl t rest (to_future _ _ _ _ H1)) as (w2 & Hit & H2).
        exists w2, new. split; [exact Hit |]. split; [exact Hquiet |].
        split; [exact Hreq |].
        rewrite (Hbackoff w1 w (test_mode_leads_to _ _ _ _ H1)) in H2.
        exact (leads_to_trans _ _ _ _ _ _ _ H1 H2).
Qed.

(** Every [reserve_with_timeout] of a trace has the timeout [z]. *)
Definition reserve_timeout_is (z : Z) (e : effect) : Prop :=
  match e with
  | request _ (command, args) =>
      command = "reserve_with_timeout" -> args = [JNum z]
  | _ => True
  end.

Lemma once_reserves_with_zero (fuel : nat) :
  adds (reserve_timeout_is 0) (once fuel).
Proof.
  unfold once. apply adds_bind; [apply adds_this | intros q].
  destruct (_processing q); [apply adds_throw |].
  destruct (_handlers q) as [|h hs]; [apply adds_ret |].
  apply adds_bind; [now apply adds_perform | intros _].
  apply adds_bind; [apply adds__reserve | intros s].
  generalize false as any.
  induction fuel as [|fuel IH]; intros any; cbn [once_loop]; [apply adds_unfinished |].
  apply adds_bind.
  - apply adds_attempt. apply adds_reserve_and_run; intros; try exact I;
      cbn; intros; (reflexivity || discriminate).
  - intros [e|[]]; [| apply IH].
    destruct (once_is_idle e); [apply adds_ret | apply adds_throw].
Qed.

(** C5, as the code has it.  [once] throws while the queue is processing.
    On a queue without a handler it returns [false] and sends nothing.
    Otherwise it reserves with a timeout of zero and runs and destroys
    job after job until a turn fails, in the reservation or in the
    processing of the job: when the error of that turn is the TIMED_OUT
    condition, [once] returns whether a job was processed before, and any
    other error is thrown to the caller. *)
Theorem once_drains_until_idle (w : world) :
  (_processing (queue w) = true ->
   forall fuel,
     once fuel w
     = Threw (AssertionError "Cannot call once while continuously processing jobs") w)
  /\ (_processing (queue w) = false ->
      _handlers (queue w) = [] ->
      forall fuel, once fuel w = Returned false w)
  /\ (_processing (queue w) = false ->
      _handlers (queue w) <> [] ->
      forall turns last rest e fuel,
        Forall (well_served (_handlers (queue w))) turns ->
        future w = concat (map happenings turns) ++ last :: rest ->
        settles last = Rejected e ->
        (length turns < fuel)%nat ->
        exists w',
          once fuel w
          = (if is_TIMED_OUT e then Returned (any_processed turns) w' else Threw e w')
          /\ future w' = rest
          /\ requests_of (trace w')
             = requests_of (trace w)
               ++ concat (map (turn_requests (reserve_session w 0) 0) turns)
               ++ [(Session.id (reserve_session w 0),
                    ("reserve_with_timeout", [JNum 0]))])
  /\ (_processing (queue w) = false ->
      forall turns last rest e fuel,
        Forall (well_served (_handlers (queue w))) turns ->
        fails_with (_handlers (queue w)) last e ->
        future w = concat (map happenings turns) ++ f_happenings last ++ rest ->
        (length turns < fuel)%nat ->
        exists w',
          once fuel w
          = match settles (f_released last) with
            | Resolved _ =>
                if is_TIMED_OUT e then Returned (any_processed turns) w'
                else Threw e w'
            | Rejected e' =>
                if is_TIMED_OUT e' then Returned (any_processed turns) w'
                else Threw e' w'
            end
          /\ future w' = rest)
  /\ (forall fuel, adds (reserve_timeout_is 0) (once fuel)).
Proof.
  split; [| split; [| split; [| split]]].
  - intros Hp fuel. unfold once, bind, this. now rewrite Hp.
  - intros Hp Hhs fuel. unfold once, bind, this. now rewrite Hp, Hhs.
  - intros Hp Hhs turns last rest e fuel Hall Hf Hlast Hfuel.
    destruct (once_enters_loop fuel w Hp Hhs) as (w1 & -> & H1).
    set (s := reserve_session w 0).
    destruct fuel as [|fuel]; [lia |].
    replace (S fuel) with (length turns + S (fuel - length turns))%nat by lia.
    destruct (once_loop_drains s turns w1 false (S (fuel - length turns))
                (last :: rest)) as (w2 & n2 & -> & H2 & Hreq2).
    { now rewrite (to_handlers _ _ _ _ H1). }
    { now rewrite (to_future _ _ _ _ H1). }
    destruct (reserve_rejected s 0 w2 last rest e (to_future _ _ _ _ H2) Hlast)
      as (w3 & Hrun & H3).
    rewrite (once_loop_ends s _ _ w2 w3 e Hrun). cbn [orb].
    exists w3. split; [reflexivity |]. split; [apply (to_future _ _ _ _ H3) |].
    rewrite (to_trace _ _ _ _ H3), (to_trace _ _ _ _ H2), (to_trace _ _ _ _ H1).
    rewrite !requests_of_app, Hreq2. cbn. now rewrite app_nil_r, <- app_assoc.
  - intros Hp turns last rest e fuel Hall Hfails Hf Hfuel.
    assert (Hhs : _handlers (queue w) <> []).
    { destruct Hfails as (_ & _ & Hlt & _). intros Heq. rewrite Heq in Hlt.
      cbn in Hlt. lia. }
    destruct (once_enters_loop fuel w Hp Hhs) as (w1 & -> & H1).
    set (s := reserve_session w 0).
    destruct fuel as [|fuel]; [lia |].
    replace (S fuel) with (length turns + S (fuel - length turns))%nat by lia.
    destruct (once_loop_drains s turns w1 false (S (fuel - length turns))
                (f_happenings last ++ rest)) as (w2 & n2 & -> & H2 & Hreq2).
    { now rewrite (to_handlers _ _ _ _ H1). }
    { now rewrite (to_future _ _ _ _ H1). }
    destruct (turn_fails s 0 w2 last rest e) as (w3 & n3 & Hrun & H3 & _).
    { now rewrite (to_handlers _ _ _ _ H2), (to_handlers _ _ _ _ H1). }
    { apply (to_future _ _ _ _ H2). }
    rewrite (once_loop_ends s _ _ w2 w3 _ Hrun). cbn [orb].
    exists w3. split; [| apply (to_future _ _ _ _ H3)].
    unfold after_release. now destruct (settles (f_released last)).
  - apply once_reserves_with_zero.
Qed.

End WithJSON.

(** A line of the error log or a timer, as a test. *)
Definition is_loud (e : effect) : bool :=
  match e with
  | notify error_level _ | setTimeout _ => true
  | _ => false
  end.

Definition processing_queue : Queue :=
  {| name := "mail"; _prefixedName := "test-mail"; _authenticate := None;
     _processing := true; _handlers := [0; 1]%nat; _putSession := None;
     _reserveSessions := [Some reserve_0] |}.

Definition a_job : happening :=
  settle (Resolved (JArr [JStr "7"; JBuffer "[1,2]"])).

(** A handler fails and the connection closes under the release request:
    the turn of the loop ends without a line in the error log and without
    a timer. *)
Lemma masked_failure_is_passed_over :
  let run :=
    iteration (J := CompactJSON.json) reserve_0
      (world_of processing_queue
         [a_job; settle (Rejected (Error "boom"));
          settle (Rejected (Error "TIMED_OUT")); settle (Resolved JUndefined)]) in
  returned run = Some tt
  /\ requests_of (trace (final run))
     = [("mail/0", ("reserve_with_timeout", [JNum 30]));
        ("mail/0", ("release", [JStr "7"; JNum 0; JNum 60]))]
  /\ List.filter is_loud (trace (final run)) = []
  /\ is_TIMED_OUT (Error "boom") = false.
Proof. vm_compute. repeat split. Qed.

(** A turn in which the first handler fails and the job is released. *)
Definition boom_turn : failing_turn :=
  {| f_reserved := a_job; f_jobID := JStr "7"; f_payload := JBuffer "[1,2]";
     f_handled := []; f_failure := settle (Rejected (Error "boom"));
     f_released := settle (Resolved JUndefined) |}.

Lemma loop_backs_off_unless_timed_out_witness :
  (exists w',
      iteration (J := CompactJSON.json) reserve_0
        (world_of processing_queue [settle (Rejected (StringError "TIMED_OUT"))])
      = Returned tt w'
      /\ trace w' = [reserves reserve_0 30])
  /\ (exists w',
        iteration (J := CompactJSON.json) reserve_0
          (world_of processing_queue
             [settle (Rejected (StringError "DRAINING")); settle (Resolved JUndefined)])
        = Returned tt w'
        /\ trace w' = [reserves reserve_0 30;
                       notify error_level [JStr "DRAINING"]; setTimeout 30000])
  /\ (exists w' new,
        iteration (J := CompactJSON.json) reserve_0
          (world_of processing_queue
             (f_happenings boom_turn ++ [settle (Resolved JUndefined)]))
        = Returned tt w'
        /\ trace w'
           = [] ++ new ++ [notify error_level [error_value (Error "boom")];
                           setTimeout 30000]).
Proof.
  split; [| split].
  - destruct (loop_backs_off_unless_timed_out (J := CompactJSON.json) reserve_0
                (world_of processing_queue
                   [settle (Rejected (StringError "TIMED_OUT"))]))
      as (_ & Hidle & _).
    destruct (Hidle (settle (Rejected (StringError "TIMED_OUT"))) []
                (StringError "TIMED_OUT") eq_refl eq_refl eq_refl)
      as (w' & Hrun & Hto & _).
    exists w'. split; [exact Hrun | exact (to_trace _ _ _ _ Hto)].
  - destruct (loop_backs_off_unless_timed_out (J := CompactJSON.json) reserve_0
                (world_of processing_queue
                   [settle (Rejected (StringError "DRAINING"));
                    settle (Resolved JUndefined)]))
      as (_ & _ & Hother & _).
    destruct (Hother (settle (Rejected (StringError "DRAINING")))
                (settle (Resolved JUndefined)) [] (StringError "DRAINING")
                eq_refl eq_refl eq_refl)
      as (w' & Hrun & Hto).
    exists w'. split; [exact Hrun | exact (to_trace _ _ _ _ Hto)].
  - destruct (loop_backs_off_unless_timed_out (J := CompactJSON.json) reserve_0
                (world_of processing_queue
                   (f_happenings boom_turn ++ [settle (Resolved JUndefined)])))
      as (_ & _ & _ & Hfails & _).
    destruct (Hfails boom_turn (settle (Resolved JUndefined)) [] (Error "boom"))
      as (w' & new & Hrun & _ & _ & Hto).
    + split; [exists (JArr [JStr "7"; JBuffer "[1,2]"]); split; reflexivity |].
      split; [eexists; reflexivity |]. split; [cbn; lia |].
      split; [constructor | reflexivity].
    + reflexivity.
    + exists w', new. split; [exact Hrun |].
      cbn in Hto. exact (to_trace _ _ _ _ Hto).
Defined.

Definition no_handlers : Queue :=
  {| name := "mail"; _prefixedName := "test-mail"; _authenticate := None;
     _processing := false; _handlers := []; _putSession := None;
     _reserveSessions := [] |}.

(** A job is waiting, but the queue has no handler: [once] returns [false]
    and has not reserved. *)
Lemma once_without_handlers_reserves_nothing :
  let run :=
    once (J := CompactJSON.json) 5
      (world_of no_handlers [a_job; settle (Resolved JUndefined)]) in
  returned run = Some false
  /\ requests_of (trace (final run)) = [].
Proof. vm_compute. split; reflexivity. Qed.

Definition first_turn : job_turn :=
  {| reserved := a_job; jobID := JStr "7"; payload := JBuffer "[1,2]";
     handled := [settle (Resolved JUndefined); settle (Resolved JUndefined)];
     destroyed := settle (Resolved JUndefined) |}.

(** A turn in which the first handler fails and the connection closes
    under the release request. *)
Definition masked_turn : failing_turn :=
  {| f_reserved := a_job; f_jobID := JStr "7"; f_payload := JBuffer "[1,2]";
     f_handled := []; f_failure := settle (Rejected (Error "boom"));
     f_released := settle (Rejected (Error "TIMED_OUT")) |}.

Lemma once_drains_until_idle_witness :
  (exists w',
      once (J := CompactJSON.json) 2
        (world_of two_handlers
           (happenings first_turn ++ [settle (Rejected (StringError "TIMED_OUT"))]))
      = Returned true w'
      /\ requests_of (trace w')
         = [("mail/0", ("reserve_with_timeout", [JNum 0]));
            ("mail/0", ("destroy", [JStr "7"]));
            ("mail/0", ("reserve_with_timeout", [JNum 0]))])
  /\ (exists w',
        once (J := CompactJSON.json) 1
          (world_of two_handlers (f_happenings masked_turn))
        = Returned false w').
Proof.
  split.
  - destruct (once_drains_until_idle (J := CompactJSON.json)
                (world_of two_handlers
                   (happenings first_turn
                    ++ [settle (Rejected (StringError "TIMED_OUT"))])))
      as (_ & _ & Hdrain & _).
    destruct (Hdrain eq_refl ltac:(discriminate) [first_turn]
                (settle (Rejected (StringError "TIMED_OUT"))) []
                (StringError "TIMED_OUT") 2%nat)
      as (w' & Hrun & _ & Hreq).
    + repeat constructor; try (eexists; reflexivity).
      exists (JArr [JStr "7"; JBuffer "[1,2]"]). split; reflexivity.
    + reflexivity.
    + reflexivity.
    + cbn. lia.
    + exists w'. split; [exact Hrun | exact Hreq].
  - destruct (once_drains_until_idle (J := CompactJSON.json)
                (world_of two_handlers (f_happenings masked_turn)))
      as (_ & _ & _ & Hfails & _).
    destruct (Hfails eq_refl [] masked_turn [] (Error "boom") 1%nat)
      as (w' & Hrun & _).
    + constructor.
    + split; [exists (JArr [JStr "7"; JBuffer "[1,2]"]); split; reflexivity |].
      split; [eexists; reflexivity |]. split; [cbn; lia |].
      split; [constructor | reflexivity].
    + reflexivity.
    + cbn. lia.
    + exists w'. exact Hrun.
Defined.

End LoopFacts.

(** ** Sessions *)

Module SessionFacts.

Import Session.

Section WithConfig.

Context (cfg : config).

(** How far the handshake of a client has come, by where its [connect] is. *)
Definition client_ok (cl : client) : Prop :=
  match pc cl with
  | awaiting_connect => set_up cl = []
  | awaiting_authenticate => connected cl = true /\ set_up cl = []
  | awaiting_setup k rest =>
      connected cl = true
      /\ (is_Some (credential cfg) -> authenticated cl = true)
      /\ set_up cl ++ k :: rest = setup cfg
  | returned => fully_initialized cfg cl
  | failed => True
  end.

(** A request whose command is out is on a client that exists, and while
    its promise is pending both of its listeners are attached. *)
Definition request_ok (n : nat) (rq : request_state) : Prop :=
  match at_stage rq with
  | issued c onClose onError =>
      (c < n)%nat /\ (promise rq = None -> onClose = true /\ onError = true)
  | _ => True
  end.

Record invariant (w : world) : Prop := {
  inv_clients : forall c cl, clients w !! c = Some cl -> client_ok cl;
  inv_stored :
    forall c, _client w = Some c ->
              exists cl, clients w !! c = Some cl /\ pc cl = returned;
  inv_requests :
    forall r rq, requests w !! r = Some rq -> request_ok (length (clients w)) rq
}.

Lemma invariant_init : invariant init.
Proof.
  split.
  - intros c cl H. discriminate.
  - intros c H. discriminate.
  - intros r rq H. cbn in H. rewrite lookup_empty in H. discriminate.
Qed.

Lemma inv_update_request (w : world) (r : nat) (f : request_state -> request_state) :
  invariant w ->
  (forall rq, requests w !! r = Some rq ->
              request_ok (length (clients w)) rq ->
              request_ok (length (clients w)) (f rq)) ->
  invariant (update_request w r f).
Proof.
  intros [Hc Hs Hr] Hf. split; cbn; try assumption.
  intros r' rq'. destruct (decide (r = r')) as [<-|Hne].
  - rewrite lookup_alter_eq.
    destruct (requests w !! r) as [rq|] eqn:E; [| discriminate].
    cbn. intros [= <-]. apply Hf; [reflexivity | now apply (Hr r)].
  - rewrite lookup_alter_ne by assumption. apply Hr.
Qed.

Lemma inv_update_client (w : world) (c : handle) (f : client -> client) :
  invariant w ->
  (forall cl, clients w !! c = Some cl -> client_ok cl ->
              client_ok (f cl) /\ (pc cl = returned -> pc (f cl) = returned)) ->
  invariant (update_client w c f).
Proof.
  intros [Hc Hs Hr] Hf. split; cbn.
  - intros c' cl'. destruct (decide (c = c')) as [<-|Hne].
    + rewrite list_lookup_alter_eq.
      destruct (clients w !! c) as [cl|] eqn:E; [| discriminate].
      cbn. intros [= <-]. apply Hf; [reflexivity | now apply (Hc c)].
    + rewrite list_lookup_alter_ne by assumption. apply Hc.
  - intros c' Hst. destruct (Hs c' Hst) as (cl & Hcl & Hpc).
    destruct (decide (c = c')) as [<-|Hne].
    + exists (f cl). rewrite list_lookup_alter_eq, Hcl. split; [reflexivity |].
      apply Hf; [exact Hcl | now apply (Hc c) | exact Hpc].
    + exists cl. now rewrite list_lookup_alter_ne.
  - intros r rq H. rewrite length_alter. now apply (Hr r).
Qed.

Lemma client_send_ok (k : command) (cl : client) :
  client_ok cl -> client_ok (client_send k cl)
                  /\ (pc cl = returned -> pc (client_send k cl) = returned).
Proof. intros H. split; [exact H | auto]. Qed.

Lemma client_end_ok (cl : client) :
  client_ok cl -> client_ok (client_end cl)
                  /\ (pc cl = returned -> pc (client_end cl) = returned).
Proof. intros H. split; [exact H | auto]. Qed.

Lemma inv_connect_returns (w : world) (r : nat) (c : handle) :
  invariant w -> (c < length (clients w))%nat -> invariant (connect_returns r c w).
Proof.
  intros Hinv Hc. unfold connect_returns.
  destruct (requests w !! r) as [rq|]; [| exact Hinv].
  apply inv_update_client.
  - apply inv_update_request; [exact Hinv |].
    intros rq' _ _. unfold request_ok. cbn. auto.
  - intros cl _. apply client_send_ok.
Qed.

Lemma inv_connect_throws (w : world) (r : nat) (e : error) :
  invariant w -> invariant (connect_throws r e w).
Proof.
  intros Hinv. unfold connect_throws. apply inv_update_request; [exact Hinv |].
  intros rq _ _. exact I.
Qed.

Lemma inv_connect_catch (w : world) (c : handle) (e : error) :
  invariant w ->
  (forall cl, clients w !! c = Some cl -> pc cl <> returned) ->
  invariant (connect_catch c e w).
Proof.
  intros Hinv Hpc. unfold connect_catch.
  destruct (clients w !! c) as [cl|] eqn:E; [| exact Hinv].
  apply inv_connect_throws. apply inv_update_client; [exact Hinv |].
  intros cl' Hcl' _. split; [exact I |]. intros Hret.
  rewrite E in Hcl'. now apply Hpc in Hcl'.
Qed.

(** [connect] comes to its end on client [c], which [g] has just brought
    to the last step of the handshake. *)
Lemma inv_connect_finish (w : world) (c : handle) (cl : client)
    (g : client -> client) :
  invariant w ->
  clients w !! c = Some cl ->
  connected (g cl) = true ->
  (is_Some (credential cfg) -> authenticated (g cl) = true) ->
  set_up (g cl) = setup cfg ->
  invariant (connect_finish c (update_client w c g)).
Proof.
  intros Hinv Hcl Hcon Hauth Hset. unfold connect_finish. cbn [clients update_client with_clients].
  rewrite list_lookup_alter_eq, Hcl. cbn [fmap option_fmap option_map].
  apply inv_connect_returns.
  - destruct Hinv as [Hc Hs Hr]. split; cbn.
    + intros c' cl'. destruct (decide (c = c')) as [<-|Hne].
      * rewrite !list_lookup_alter_eq, Hcl. cbn. intros [= <-].
        repeat split; assumption.
      * rewrite !list_lookup_alter_ne by assumption. apply Hc.
    + intros c' [= <-]. exists (client_at returned (g cl)).
      now rewrite !list_lookup_alter_eq, Hcl.
    + intros r rq H. rewrite !length_alter. now apply (Hr r).
  - cbn. rewrite !length_alter. now apply lookup_lt_Some in Hcl.
Qed.

Lemma inv_run_setup (w : world) (c : handle) (ks : list command) (cl : client)
    (g : client -> client) :
  invariant w ->
  clients w !! c = Some cl ->
  pc cl <> returned ->
  connected (g cl) = true ->
  (is_Some (credential cfg) -> authenticated (g cl) = true) ->
  set_up (g cl) ++ ks = setup cfg ->
  invariant (run_setup c ks (update_client w c g)).
Proof.
  intros Hinv Hcl Hpc Hcon Hauth Hset. destruct ks as [|k rest]; cbn [run_setup].
  - rewrite app_nil_r in Hset. now apply (inv_connect_finish w c cl).
  - unfold update_client at 1. cbn [clients update_client with_clients].
    rewrite list_alter_alter_eq.
    apply (inv_update_client w c); [exact Hinv |].
    intros cl' Hcl' _. rewrite Hcl in Hcl'. injection Hcl' as <-.
    split; [| intros Hret; contradiction].
    repeat split; assumption.
Qed.

Lemma inv_forget (w : world) (c : handle) : invariant w -> invariant (forget c w).
Proof.
  intros Hinv. unfold forget. destruct (_client w) as [current|]; [| exact Hinv].
  destruct (Nat.eqb current c); [| exact Hinv].
  destruct Hinv as [Hc Hs Hr]. split; cbn; try assumption. discriminate.
Qed.

Lemma inv_notify_debug (w : world) (line : string) :
  invariant w -> invariant (notify_debug w line).
Proof. intros [Hc Hs Hr]. now split. Qed.

Lemma settle_settles (s : settlement) (rq : request_state) : promise (settle s rq) <> None.
Proof. unfold settle. cbn. now destruct (promise rq). Qed.

Lemma request_ok_grows (n m : nat) (rq : request_state) :
  (n <= m)%nat -> request_ok n rq -> request_ok m rq.
Proof.
  unfold request_ok. destruct (at_stage rq); auto.
  intros Hle [Hlt H]. split; [lia | exact H].
Qed.

Lemma onError_fires_ok (n : nat) (c : handle) (e : error) (rq : request_state) :
  request_ok n rq -> request_ok n (onError_fires c e rq).
Proof.
  unfold onError_fires. destruct (at_stage rq) as [|c' a [|]|] eqn:E; auto.
  destruct (Nat.eqb c' c); auto.
  unfold request_ok. rewrite E. cbn. intros [Hlt _]. split; [exact Hlt |].
  intros Hnone. now apply settle_settles in Hnone.
Qed.

Lemma onClose_fires_ok (n : nat) (c : handle) (rq : request_state) :
  request_ok n rq -> request_ok n (onClose_fires c rq).
Proof.
  unfold onClose_fires. destruct (at_stage rq) as [|c' [|] b|] eqn:E; auto.
  destruct (Nat.eqb c' c); auto.
  unfold request_ok. rewrite E. cbn. intros [Hlt _]. split; [exact Hlt |].
  intros Hnone. now apply settle_settles in Hnone.
Qed.

Lemma inv_listeners (w : world) (f : request_state -> request_state) :
  invariant w ->
  (forall rq, request_ok (length (clients w)) rq ->
              request_ok (length (clients w)) (f rq)) ->
  invariant (with_requests w (f <$> requests w)).
Proof.
  intros [Hc Hs Hr] Hf. split; cbn; try assumption.
  intros r rq'. rewrite lookup_fmap.
  destruct (requests w !! r) as [rq|] eqn:E; [| discriminate].
  cbn. intros [= <-]. apply Hf. now apply (Hr r).
Qed.

Lemma inv_connect (w : world) (r : nat) (throws : option error) :
  invariant w -> invariant (connect r throws w).
Proof.
  intros Hinv. unfold connect. destruct (_client w) as [c|] eqn:Hst.
  - destruct (inv_stored w Hinv c Hst) as (cl & Hcl & _).
    apply inv_connect_returns; [exact Hinv | now apply lookup_lt_Some in Hcl].
  - assert (Hnew : invariant (with_clients w (clients w ++ [new_client r]))).
    { destruct Hinv as [Hc Hs Hr]. split; cbn.
      - intros c cl Hcl. apply lookup_snoc_Some in Hcl as [[_ Hcl]|[_ <-]].
        + now apply (Hc c).
        + reflexivity.
      - rewrite Hst. discriminate.
      - intros r' rq' H. rewrite length_app. cbn.
        apply (request_ok_grows (length (clients w))); [lia | now apply (Hr r')]. }
    destruct throws as [e|]; [| exact Hnew].
    apply inv_connect_catch; [exact Hnew |]. cbn.
    intros cl Hcl. apply lookup_snoc_Some in Hcl as [[Hlt _]|[_ <-]]; [lia |].
    discriminate.
Qed.

Lemma inv_request (w : world) (r : nat) (k : command) (throws : option error) :
  invariant w -> invariant (request r k throws w).
Proof.
  intros Hinv. unfold request.
  destruct (requests w !! r) as [rq|] eqn:Hreq; [exact Hinv |].
  apply inv_connect. destruct Hinv as [Hc Hs Hr]. split; cbn; try assumption.
  intros r' rq'. destruct (decide (r = r')) as [<-|Hne].
  - rewrite lookup_insert_eq. intros [= <-]. exact I.
  - rewrite lookup_insert_ne by assumption. apply Hr.
Qed.

Lemma inv_end (w : world) : invariant w -> invariant (end_ w).
Proof.
  intros Hinv. unfold end_. destruct (_client w) as [c|] eqn:Hst.
  - assert (H1 : invariant (update_client w c client_end)).
    { apply inv_update_client; [exact Hinv |]. intros cl _. apply client_end_ok. }
    destruct H1 as [Hc Hs Hr]. split; cbn; try assumption. discriminate.
  - destruct Hinv as [Hc Hs Hr]. split; cbn; try assumption. discriminate.
Qed.

(** Every step keeps the invariant. *)
Lemma inv_step (ev : event) (w : world) : invariant w -> invariant (step cfg ev w).
Proof.
  intros Hinv. destruct ev as [r k throws| |c|c e|c|c err|r err results]; cbn [step].
  - now apply inv_request.
  - now apply inv_end.
  - destruct (clients w !! c) as [cl|] eqn:Hcl; [| exact Hinv].
    destruct (pc cl) eqn:Hpc; try exact Hinv.
    pose proof (inv_clients w Hinv c cl Hcl) as Hok.
    unfold client_ok in Hok. rewrite Hpc in Hok.
    unfold after_connect. destruct (credential cfg) as [token|] eqn:Hcred.
    + unfold update_client at 1. cbn [clients update_client with_clients].
      rewrite list_alter_alter_eq.
      apply (inv_update_client w c); [exact Hinv |].
      intros cl' Hcl' _. rewrite Hcl in Hcl'. injection Hcl' as <-.
      split; [| intros Hret; congruence]. split; [reflexivity | exact Hok].
    + apply (inv_run_setup w c (setup cfg) cl); try assumption.
      * congruence.
      * reflexivity.
      * rewrite Hcred. intros [x Hx]. discriminate.
      * cbn. now rewrite Hok.
  - destruct (clients w !! c) as [cl|] eqn:Hcl; [| exact Hinv].
    apply inv_listeners; [| intros rq; apply onError_fires_ok].
    apply inv_update_client;
      [apply inv_notify_debug, inv_forget, Hinv | intros cl' _; apply client_end_ok].
  - destruct (clients w !! c) as [cl|] eqn:Hcl; [| exact Hinv].
    apply inv_listeners; [| intros rq; apply onClose_fires_ok].
    apply inv_notify_debug, inv_forget, Hinv.
  - destruct (clients w !! c) as [cl|] eqn:Hcl; [| exact Hinv].
    pose proof (inv_clients w Hinv c cl Hcl) as Hok. unfold client_ok in Hok.
    destruct (pc cl) eqn:Hpc; destruct (thrown_into err) as [e|]; try exact Hinv.
    + apply inv_connect_catch; [exact Hinv |]. intros cl' Hcl'. congruence.
    + destruct Hok as [Hcon Hset].
      apply (inv_run_setup w c (setup cfg) cl); try assumption.
      * congruence.
      * reflexivity.
      * cbn. now rewrite Hset.
    + apply inv_connect_catch; [exact Hinv |]. intros cl' Hcl'. congruence.
    + destruct Hok as (Hcon & Hauth & Hset).
      apply (inv_run_setup w c rest cl); try assumption.
      * congruence.
      * cbn. now rewrite <- app_assoc.
  - destruct (requests w !! r) as [rq|] eqn:Hreq; [| exact Hinv].
    destruct (at_stage rq); try exact Hinv.
    apply inv_update_request; [exact Hinv |]. intros rq' _ _. exact I.
Qed.

Lemma run_snoc (evs : list event) (ev : event) (w : world) :
  run cfg (evs ++ [ev]) w = step cfg ev (run cfg evs w).
Proof. unfold run. now rewrite fold_left_app. Qed.

(** Every world a session can come to satisfies the invariant. *)
Lemma inv_run (evs : list event) : invariant (run cfg evs init).
Proof.
  induction evs as [|ev evs IH] using rev_ind.
  - apply invariant_init.
  - rewrite run_snoc. now apply inv_step.
Qed.

(** A promise that is settled stays as it is. *)
Definition keeps_settled (w w' : world) : Prop :=
  forall r s, promise_of w r = Some s -> promise_of w' r = Some s.

Definition keeps_promise (f : request_state -> request_state) : Prop :=
  forall rq s, promise rq = Some s -> promise (f rq) = Some s.

Lemma ks_trans (w1 w2 w3 : world) :
  keeps_settled w1 w2 -> keeps_settled w2 w3 -> keeps_settled w1 w3.
Proof. intros H12 H23 r s H. now apply H23, H12. Qed.

Lemma ks_same (w w' : world) : requests w' = requests w -> keeps_settled w w'.
Proof. intros Heq r s. unfold promise_of. now rewrite Heq. Qed.

Lemma ks_update_request (w : world) (r : nat) (f : request_state -> request_state) :
  keeps_promise f -> keeps_settled w (update_request w r f).
Proof.
  intros Hf r' s. unfold promise_of. cbn.
  destruct (decide (r = r')) as [<-|Hne].
  - rewrite lookup_alter_eq. destruct (requests w !! r) as [rq|]; [| discriminate].
    cbn. apply Hf.
  - now rewrite lookup_alter_ne.
Qed.

Lemma ks_listeners (w : world) (f : request_state -> request_state) :
  keeps_promise f -> keeps_settled w (with_requests w (f <$> requests w)).
Proof.
  intros Hf r s. unfold promise_of. cbn. rewrite lookup_fmap.
  destruct (requests w !! r) as [rq|]; [| discriminate]. cbn. apply Hf.
Qed.

Lemma ks_insert (w : world) (r : nat) (rq : request_state) :
  requests w !! r = None ->
  keeps_settled w (with_requests w (<[r := rq]> (requests w))).
Proof.
  intros Hnone r' s. unfold promise_of. cbn.
  destruct (decide (r = r')) as [<-|Hne].
  - rewrite Hnone. discriminate.
  - now rewrite lookup_insert_ne.
Qed.

Lemma keeps_settle (s : settlement) : keeps_promise (settle s).
Proof. intros rq s' H. unfold settle. cbn. now rewrite H. Qed.

Lemma keeps_at (st : stage) : keeps_promise (at_ st).
Proof. now intros rq s H. Qed.

Lemma keeps_onError (c : handle) (e : error) : keeps_promise (onError_fires c e).
Proof.
  intros rq s H. unfold onError_fires.
  destruct (at_stage rq) as [|c' a [|]|]; try assumption.
  destruct (Nat.eqb c' c); [| assumption]. cbn. now rewrite H.
Qed.

Lemma keeps_onClose (c : handle) : keeps_promise (onClose_fires c).
Proof.
  intros rq s H. unfold onClose_fires.
  destruct (at_stage rq) as [|c' [|] b|]; try assumption.
  destruct (Nat.eqb c' c); [| assumption]. cbn. now rewrite H.
Qed.

Lemma ks_connect_returns (w : world) (r : nat) (c : handle) :
  keeps_settled w (connect_returns r c w).
Proof.
  unfold connect_returns. destruct (requests w !! r); [| now apply ks_same].
  eapply ks_trans; [apply ks_update_request, keeps_at | now apply ks_same].
Qed.

Lemma ks_connect_finish (w : world) (c : handle) :
  keeps_settled w (connect_finish c w).
Proof.
  unfold connect_finish. destruct (clients w !! c); [| now apply ks_same].
  eapply ks_trans; [| apply ks_connect_returns]. now apply ks_same.
Qed.

Lemma ks_connect_catch (w : world) (c : handle) (e : error) :
  keeps_settled w (connect_catch c e w).
Proof.
  unfold connect_catch, connect_throws. destruct (clients w !! c); [| now apply ks_same].
  eapply ks_trans; [| apply ks_update_request].
  - now apply ks_same.
  - intros rq s H. destruct (ToBoolean_error e); cbn; [now rewrite H | exact H].
Qed.

Lemma ks_run_setup (w : world) (c : handle) (ks : list command) :
  keeps_settled w (run_setup c ks w).
Proof.
  destruct ks; cbn [run_setup]; [apply ks_connect_finish | now apply ks_same].
Qed.

Lemma ks_step (ev : event) (w : world) : keeps_settled w (step cfg ev w).
Proof.
  destruct ev as [r k throws| |c|c e|c|c err|r err results]; cbn [step].
  - unfold request. destruct (requests w !! r) as [rq|] eqn:Hreq; [now apply ks_same |].
    eapply ks_trans; [eapply ks_insert; exact Hreq |].
    unfold connect. cbn [_client with_requests]. destruct (_client w) as [c|].
    + apply ks_connect_returns.
    + destruct throws as [e|].
      * eapply ks_trans; [| apply ks_connect_catch]. now apply ks_same.
      * now apply ks_same.
  - unfold end_. destruct (_client w); now apply ks_same.
  - destruct (clients w !! c) as [cl|]; [| now apply ks_same].
    destruct (pc cl); try now apply ks_same.
    unfold after_connect. destruct (credential cfg).
    + now apply ks_same.
    + eapply ks_trans; [| apply ks_run_setup]. now apply ks_same.
  - destruct (clients w !! c) as [cl|]; [| now apply ks_same].
    eapply ks_trans; [| apply ks_listeners, keeps_onError].
    apply ks_same. cbn. unfold forget.
    destruct (_client w) as [c'|]; [destruct (Nat.eqb c' c) |]; reflexivity.
  - destruct (clients w !! c) as [cl|]; [| now apply ks_same].
    eapply ks_trans; [| apply ks_listeners, keeps_onClose].
    apply ks_same. cbn. unfold forget.
    destruct (_client w) as [c'|]; [destruct (Nat.eqb c' c) |]; reflexivity.
  - destruct (clients w !! c) as [cl|]; [| now apply ks_same].
    destruct (pc cl), (thrown_into err); try now apply ks_same.
    + apply ks_connect_catch.
    + eapply ks_trans; [| apply ks_run_setup]. now apply ks_same.
    + apply ks_connect_catch.
    + eapply ks_trans; [| apply ks_run_setup]. now apply ks_same.
  - destruct (requests w !! r) as [rq|]; [| now apply ks_same].
    destruct (at_stage rq); try now apply ks_same.
    apply ks_update_request. intros rq' s H. cbn. now rewrite H.
Qed.

Lemma ks_run (evs : list event) (w : world) : keeps_settled w (run cfg evs w).
Proof.
  revert w. induction evs as [|ev evs IH]; intros w.
  - now apply ks_same.
  - cbn. eapply ks_trans; [apply ks_step | apply IH].
Qed.

(** A request is in flight on a client: its command is out and its promise
    is pending. *)
Definition in_flight (w : world) (r : nat) (c : handle) : Prop :=
  exists rq onClose onError,
    requests w !! r = Some rq
    /\ at_stage rq = issued c onClose onError
    /\ promise rq = None.

(** C1, as the code has it.  For a request in flight on a client, in a
    world the session can come to: when the client closes, the request is
    rejected with an error whose message is TIMED_OUT; when the client emits
    an error, the request is rejected with that error, as it is; when the
    command calls back with an error of the broker, one that [if (error)]
    takes for an error, with that one.  What comes first settles the
    promise for good.  TIMED_OUT is told apart from NOT_FOUND by the test of
    the loops. *)
Theorem request_fails_with_the_transport (evs : list event) (r : nat) (c : handle) :
  let w := run cfg evs init in
  in_flight w r c ->
  promise_of (step cfg (emit_close c) w) r = Some (Rejected (Error "TIMED_OUT"))
  /\ (forall e, promise_of (step cfg (emit_error c e) w) r = Some (Rejected e))
  /\ (forall e results,
        ToBoolean_error e = true ->
        promise_of (step cfg (command_callback r (Some e) results) w) r
        = Some (Rejected e))
  /\ (forall first s later,
        promise_of (step cfg first w) r = Some s ->
        promise_of (run cfg later (step cfg first w)) r = Some s)
  /\ is_TIMED_OUT (Error "TIMED_OUT") = true
  /\ is_TIMED_OUT (StringError "NOT_FOUND") = false.
Proof.
  intros w (rq & a & b & Hreq & Hstage & Hpending).
  pose proof (inv_run evs) as Hinv. fold w in Hinv.
  pose proof (inv_requests w Hinv r rq Hreq) as Hok.
  unfold request_ok in Hok. rewrite Hstage in Hok.
  destruct Hok as [Hlt Hboth]. destruct (Hboth Hpending) as [-> ->].
  apply lookup_lt_is_Some_2 in Hlt as [cl Hcl].
  split; [| split; [| split; [| split; [| split; reflexivity]]]].
  - cbn [step]. rewrite Hcl. unfold promise_of. cbn.
    rewrite lookup_fmap.
    replace (requests (forget c w)) with (requests w)
      by (unfold forget; destruct (_client w) as [c'|];
          [destruct (Nat.eqb c' c) |]; reflexivity).
    rewrite Hreq. cbn. unfold onClose_fires. rewrite Hstage, Nat.eqb_refl.
    cbn. now rewrite Hpending.
  - intros e. cbn [step]. rewrite Hcl. unfold promise_of. cbn.
    rewrite lookup_fmap.
    replace (requests (forget c w)) with (requests w)
      by (unfold forget; destruct (_client w) as [c'|];
          [destruct (Nat.eqb c' c) |]; reflexivity).
    rewrite Hreq. cbn. unfold onError_fires. rewrite Hstage, Nat.eqb_refl.
    cbn. now rewrite Hpending.
  - intros e results Htruthy. cbn [step]. rewrite Hreq, Hstage.
    unfold promise_of. cbn.
    rewrite lookup_alter_eq, Hreq. cbn. now rewrite Hpending, Htruthy.
  - intros first s later H. now apply ks_run.
Qed.

(** The clients whose [connect] is still under way. *)
Definition in_handshake (cl : client) : bool :=
  match pc cl with
  | awaiting_connect | awaiting_authenticate | awaiting_setup _ _ => true
  | returned | failed => false
  end.

Definition attempts (w : world) : nat :=
  length (List.filter in_handshake (clients w)).

Definition stage_of (w : world) (r : nat) : option stage :=
  at_stage <$> requests w !! r.

Lemma connect_returns_stage (w : world) (r : nat) (c : handle) (rq : request_state) :
  requests w !! r = Some rq ->
  stage_of (connect_returns r c w) r = Some (issued c true true)
  /\ _client (connect_returns r c w) = _client w
  /\ length (clients (connect_returns r c w)) = length (clients w).
Proof.
  intros Hreq. unfold connect_returns, stage_of. rewrite Hreq. cbn.
  rewrite lookup_alter_eq, Hreq, length_alter. now repeat split.
Qed.

(** [request] while a handle is stored. *)
Lemma request_on_stored (w : world) (r : nat) (k : command) (throws : option error)
    (c : handle) :
  requests w !! r = None ->
  _client w = Some c ->
  length (clients (request r k throws w)) = length (clients w)
  /\ _client (request r k throws w) = Some c
  /\ stage_of (request r k throws w) r = Some (issued c true true).
Proof.
  intros Hfree Hst. unfold request, connect. rewrite Hfree.
  cbn [_client with_requests]. rewrite Hst.
  match goal with
  | |- context [connect_returns r c ?w0] =>
      destruct (connect_returns_stage w0 r c
                  {| asked := k; at_stage := connecting; promise := None |})
        as (Hstage & Hcl & Hlen)
  end.
  { cbn. apply lookup_insert_eq. }
  rewrite Hstage, Hcl, Hlen. cbn. now rewrite Hst.
Qed.

(** C2, as the code has it.  A call of [request], and so of [connect],
    while a handle is stored opens no client and goes out on the stored
    one.  While no handle is stored, every call constructs a client of its
    own, whatever the number of attempts under way, which grows by one.  An
    attempt that comes to its end stores its own client, over the one that
    may be stored by then, and sends its own request on it. *)
Theorem every_cold_connect_opens_a_client (evs : list event) (r : nat) (k : command) :
  let w := run cfg evs init in
  requests w !! r = None ->
  (forall c,
      _client w = Some c ->
      let w' := request r k None w in
      length (clients w') = length (clients w)
      /\ _client w' = Some c
      /\ stage_of w' r = Some (issued c true true))
  /\ (_client w = None ->
      let w' := request r k None w in
      clients w' = clients w ++ [new_client r]
      /\ attempts w' = S (attempts w)
      /\ stage_of w' r = Some connecting
      /\ _client w' = None)
  /\ (forall c cl last rq,
        clients w !! c = Some cl ->
        pc cl = awaiting_setup last [] ->
        requests w !! owner cl = Some rq ->
        let w' := step cfg (handshake_callback c None) w in
        _client w' = Some c
        /\ stage_of w' (owner cl) = Some (issued c true true)).
Proof.
  intros w Hfree. split; [| split].
  - intros c Hst w'. subst w'. now apply request_on_stored.
  - intros Hst w'. subst w'. unfold request, connect. rewrite Hfree.
    cbn [_client with_requests]. rewrite Hst. cbn.
    repeat split.
    + unfold attempts. cbn. rewrite List.filter_app, length_app. cbn. lia.
    + unfold stage_of. cbn. now rewrite lookup_insert_eq.
    + exact Hst.
  - intros c cl last rq Hcl Hpc Hreq w'. subst w'. cbn [step].
    rewrite Hcl, Hpc. cbn [thrown_into run_setup]. unfold connect_finish.
    cbn [clients update_client with_clients].
    rewrite list_lookup_alter_eq, Hcl. cbn [fmap option_fmap option_map owner client_set_up].
    match goal with
    | |- context [connect_returns (owner cl) c ?w0] =>
        destruct (connect_returns_stage w0 (owner cl) c rq) as (Hstage & Hst & _)
    end.
    { exact Hreq. }
    rewrite Hstage, Hst. now split.
Qed.

(** X20.  What [connect] does keep.  While a handle is stored, [connect]
    gives it back and constructs no client.  When [client.connect()] throws, or the
    authentication or a command of the setup calls back with an error, the
    new client is ended, the error (one that [if (error)] takes for an
    error) is what the caller's promise is rejected with, and [_client] is
    left as it was, unset when it was unset.  In every world the session can
    come to, a stored handle is a client that connected, authenticated when
    a credential is configured, and went through the whole setup. *)
Theorem stored_handle_is_fully_initialized (evs : list event) :
  let w := run cfg evs init in
  (forall c r k throws,
      _client w = Some c ->
      requests w !! r = None ->
      let w' := request r k throws w in
      _client w' = Some c
      /\ length (clients w') = length (clients w)
      /\ stage_of w' r = Some (issued c true true))
  /\ (forall r k e,
        _client w = None ->
        requests w !! r = None ->
        ToBoolean_error e = true ->
        let w' := request r k (Some e) w in
        _client w' = None
        /\ (ended <$> clients w' !! length (clients w)) = Some true
        /\ promise_of w' r = Some (Rejected e))
  /\ (forall c cl e rq,
        clients w !! c = Some cl ->
        pc cl = awaiting_authenticate \/ (exists k rest, pc cl = awaiting_setup k rest) ->
        requests w !! owner cl = Some rq ->
        promise rq = None ->
        ToBoolean_error e = true ->
        let w' := step cfg (handshake_callback c (Some e)) w in
        _client w' = _client w
        /\ _client w <> Some c
        /\ (ended <$> clients w' !! c) = Some true
        /\ promise_of w' (owner cl) = Some (Rejected e))
  /\ (forall c,
        _client w = Some c ->
        exists cl, clients w !! c = Some cl /\ fully_initialized cfg cl).
Proof.
  intros w. pose proof (inv_run evs) as Hinv. fold w in Hinv.
  split; [| split; [| split]].
  - intros c r k throws Hst Hfree w'. subst w'.
    destruct (request_on_stored w r k throws c Hfree Hst) as (Hlen & Hcl & Hstage).
    now repeat split.
  - intros r k e Hst Hfree Htruthy w'. subst w'. unfold request, connect. rewrite Hfree.
    cbn [_client with_requests]. rewrite Hst.
    unfold connect_catch. cbn [clients with_clients with_requests].
    rewrite list_lookup_middle by reflexivity.
    unfold connect_throws, promise_of. cbn.
    rewrite list_lookup_alter_eq, list_lookup_middle by reflexivity.
    rewrite lookup_alter_eq, lookup_insert_eq. rewrite Htruthy. now repeat split.
  - intros c cl e rq Hcl Hpc Hreq Hpending Htruthy w'. subst w'.
    assert (Hnot : _client w <> Some c).
    { intros Hst. destruct (inv_stored w Hinv c Hst) as (cl' & Hcl' & Hret).
      rewrite Hcl in Hcl'. injection Hcl' as <-.
      destruct Hpc as [Hpc|(k & rest & Hpc)]; congruence. }
    assert (Hstep : step cfg (handshake_callback c (Some e)) w = connect_catch c e w).
    { cbn [step thrown_into]. rewrite Hcl, Htruthy.
      destruct Hpc as [->|(k & rest & ->)]; reflexivity. }
    rewrite Hstep. unfold connect_catch. rewrite Hcl.
    unfold connect_throws, promise_of. cbn.
    rewrite list_lookup_alter_eq, Hcl, lookup_alter_eq, Hreq. cbn.
    rewrite Htruthy. cbn. rewrite Hpending. now repeat split.
  - intros c Hst. destruct (inv_stored w Hinv c Hst) as (cl & Hcl & Hret).
    exists cl. split; [exact Hcl |].
    pose proof (inv_clients w Hinv c cl Hcl) as Hok.
    unfold client_ok in Hok. now rewrite Hret in Hok.
Qed.

End WithConfig.

(** The put session of a queue whose server asks for a token. *)
Definition put_config : config :=
  {| id := "mail/put"; authenticate := Some "token";
     setup := [("use", [JStr "test-mail"])] |}.

Definition reserve_30 : command := ("reserve_with_timeout", [JNum 30]).

(** A request goes out on a fresh client. *)
Definition warm_up : list event :=
  [call_request 0 reserve_30 None; emit_connect 0;
   handshake_callback 0 None; handshake_callback 0 None].

(** The request is in flight and its client emits an error: the promise is
    rejected with that error, which is not TIMED_OUT, and the [close] that
    follows changes nothing. *)
Lemma transport_error_is_not_TIMED_OUT :
  let w := run put_config warm_up init in
  stage_of w 0 = Some (issued 0 true true)
  /\ promise_of w 0 = None
  /\ promise_of (step put_config (emit_error 0 (Error "read ECONNRESET")) w) 0
     = Some (Rejected (Error "read ECONNRESET"))
  /\ promise_of (run put_config [emit_error 0 (Error "read ECONNRESET"); emit_close 0] w) 0
     = Some (Rejected (Error "read ECONNRESET"))
  /\ message (Error "read ECONNRESET") <> Some "TIMED_OUT"
  /\ is_TIMED_OUT (Error "read ECONNRESET") = false.
Proof. vm_compute. repeat split; discriminate. Qed.

Lemma request_fails_with_the_transport_witness :
  promise_of (step put_config (emit_close 0) (run put_config warm_up init)) 0
  = Some (Rejected (Error "TIMED_OUT")).
Proof.
  refine (proj1 (request_fails_with_the_transport put_config warm_up 0 0%nat _)).
  exists {| asked := reserve_30; at_stage := issued 0 true true; promise := None |},
    true, true.
  vm_compute. repeat split.
Defined.

(** Two requests on a cold session: two clients are constructed and two
    attempts are under way; each request goes out on its own client, the
    session keeps the second and the first stays open. *)
Lemma two_cold_requests_open_two_clients :
  let w := run put_config
             [call_request 0 reserve_30 None; call_request 1 reserve_30 None] init in
  let w' := run put_config
              [emit_connect 0; emit_connect 1;
               handshake_callback 0 None; handshake_callback 1 None;
               handshake_callback 0 None; handshake_callback 1 None] w in
  length (clients w) = 2%nat
  /\ attempts w = 2%nat
  /\ stage_of w' 0 = Some (issued 0 true true)
  /\ stage_of w' 1 = Some (issued 1 true true)
  /\ _client w' = Some 1%nat
  /\ map ended (clients w') = [false; false].
Proof. vm_compute. repeat split. Qed.

Lemma every_cold_connect_opens_a_client_witness :
  let w := run put_config [call_request 0 reserve_30 None] init in
  attempts (step put_config (call_request 1 reserve_30 None) w) = S (attempts w).
Proof.
  destruct (every_cold_connect_opens_a_client put_config
              [call_request 0 reserve_30 None] 1 reserve_30)
    as (_ & Hcold & _).
  - vm_compute. reflexivity.
  - destruct Hcold as (_ & Hattempts & _); [vm_compute; reflexivity |].
    exact Hattempts.
Defined.

Lemma stored_handle_is_fully_initialized_witness :
  (exists cl,
      clients (run put_config warm_up init) !! 0%nat = Some cl
      /\ fully_initialized put_config cl)
  /\ promise_of
       (step put_config (handshake_callback 0 (Some (StringError "NOT_FOUND")))
          (run put_config [call_request 0 reserve_30 None; emit_connect 0] init)) 0
     = Some (Rejected (StringError "NOT_FOUND"))
  /\ length (clients (step put_config (call_request 1 reserve_30 None)
                        (run put_config warm_up init)))
     = length (clients (run put_config warm_up init))
  /\ _client (step put_config (call_request 0 reserve_30 (Some (Error "EMFILE")))
                (run put_config [] init))
     = None.
Proof.
  split; [| split; [| split]].
  - destruct (stored_handle_is_fully_initialized put_config warm_up)
      as (_ & _ & _ & Hstored).
    apply Hstored. vm_compute. reflexivity.
  - destruct (stored_handle_is_fully_initialized put_config
                [call_request 0 reserve_30 None; emit_connect 0])
      as (_ & _ & Hfails & _).
    refine (proj2 (proj2 (proj2
              (Hfails 0%nat
                 {| owner := 0; pc := awaiting_authenticate; connected := true;
                    authenticated := false; set_up := []; ended := false;
                    sent := [("put", [JNum 0; JNum 0; JNum 0; JStr "token"])] |}
                 (StringError "NOT_FOUND")
                 {| asked := reserve_30; at_stage := connecting; promise := None |}
                 _ _ _ _ _)))).
    + vm_compute. reflexivity.
    + left. reflexivity.
    + vm_compute. reflexivity.
    + reflexivity.
    + reflexivity.
  - destruct (stored_handle_is_fully_initialized put_config warm_up)
      as (Hstored & _).
    refine (proj1 (proj2 (Hstored 0%nat 1%nat reserve_30 None _ _)));
      vm_compute; reflexivity.
  - destruct (stored_handle_is_fully_initialized put_config [])
      as (_ & Hthrows & _).
    refine (proj1 (Hthrows 0%nat reserve_30 (Error "EMFILE") _ _ _));
      vm_compute; reflexivity.
Defined.

(** C8.  A failure during [connect] that arrives as an event of the client
    is not what the [catch] of [connect] sees.  The connection is refused
    before the [connect] event: the client is ended by its [error]
    listener, but the generator is not resumed, so the caller's promise
    stays pending and nothing is propagated.  The connection closes while
    the authentication is outstanding: the promise stays pending as well,
    and the client is not even ended. *)
Lemma failure_during_connect_is_not_propagated :
  let refused :=
    run put_config
      [call_request 0 reserve_30 None;
       emit_error 0 (Error "connect ECONNREFUSED"); emit_close 0] init in
  let dropped :=
    run put_config [call_request 0 reserve_30 None; emit_connect 0; emit_close 0] init in
  (promise_of refused 0 = None
   /\ stage_of refused 0 = Some connecting
   /\ map pc (clients refused) = [awaiting_connect]
   /\ map ended (clients refused) = [true]
   /\ _client refused = None)
  /\ (promise_of dropped 0 = None
      /\ stage_of dropped 0 = Some connecting
      /\ map pc (clients dropped) = [awaiting_authenticate]
      /\ map ended (clients dropped) = [false]
      /\ _client dropped = None).
Proof. vm_compute. repeat split. Qed.

(** The command calls back with the empty string as its error: [if (error)]
    does not take it for one, and the promise is resolved. *)
Lemma falsy_callback_error_resolves :
  promise_of
    (step put_config (command_callback 0 (Some (StringError EmptyString)) [JStr "7"])
       (run put_config warm_up init)) 0
  = Some (Resolved (JStr "7")).
Proof. vm_compute. reflexivity. Qed.

(** A request whose [connect] is waiting for the [connect] event is settled
    neither by an error nor by the close of its client. *)
Lemma request_inside_connect_stays_pending :
  let w := run put_config
             [call_request 0 reserve_30 None;
              emit_error 0 (Error "connect ECONNREFUSED"); emit_close 0] init in
  stage_of w 0 = Some (connecting)
  /\ promise_of w 0 = None
  /\ map ended (clients w) = [true].
Proof. vm_compute. repeat split. Qed.

End SessionFacts.

(** * The rest of the module

    What follows covers the code around the loops and the session: [reset],
    the bookkeeping of [each], [start], [stop] and [width], the sessions of
    a queue, what a session writes to a connection and when it drops it,
    and the server's table of queues.  [Server.once] runs the queues'
    [once] in parallel and [Server.reset] walks [Object.keys]; neither is
    modelled. *)

(** ** Queue: reset *)

Module Reset.

Import Queue.

(** The [while (true)] inside a [try] of [reset]: peek at the next job, then
    delete it. *)
Fixpoint peek_and_destroy (fuel : nat) (s : session) (peek : string) : M unit :=
  match fuel with
  | O => fun w => Unfinished w
  | S fuel =>
      let* reply := session_request s peek [] in
      let* job := lift (destructure reply) in
      let jobID := fst job in
      let* _ := session_request s "destroy" [jobID] in
      peek_and_destroy fuel s peek
  end.

(** One [try] of [reset] with its [catch]:
    [if (error != 'NOT_FOUND') throw error]. *)
Definition delete_all (fuel : nat) (s : session) (peek : string) : M unit :=
  try_catch (peek_and_destroy fuel s peek)
    (fun error =>
       if negb (loose_eq_string error "NOT_FOUND") then throw error else ret tt).

(** [*reset()]: the ready jobs, then the delayed jobs, on the put session. *)
Definition reset (fuel : nat) : M unit :=
  let* s := _put in
  delete_all fuel s "peek_ready" ;;;
  delete_all fuel s "peek_delayed".

End Reset.

Module ResetFacts.

Import Queue Runs PushFacts RunAndDestroyFacts Reset.

Definition peeks (s : session) (peek : string) : effect :=
  request (Session.id s) (peek, []).

Definition deletes (s : session) (jobID : jsval) : effect :=
  request (Session.id s) ("destroy", [jobID]).

(** A job that a phase of [reset] peeks at and deletes. *)
Record peeked_job : Type := {
  peeked : happening;
  p_jobID : jsval;
  p_payload : jsval;
  deleted : happening
}.

Definition p_happenings (t : peeked_job) : list happening := [peeked t; deleted t].

Definition is_peeked (t : peeked_job) : Prop :=
  exists reply, settles (peeked t) = Resolved reply
                /\ destructure reply = inr (p_jobID t, p_payload t).

Definition is_deleted (t : peeked_job) : Prop := is_peeked t /\ resolves (deleted t).

Definition p_effects (s : session) (peek : string) (t : peeked_job) : list effect :=
  [peeks s peek; deletes s (p_jobID t)].

(** The future and the effects of a phase that goes through [jobs]. *)
Definition all_happenings (jobs : list peeked_job) : list happening :=
  concat (map p_happenings jobs).

Definition all_effects (s : session) (peek : string) (jobs : list peeked_job)
  : list effect :=
  concat (map (p_effects s peek) jobs).

(** How a phase ends with the error [e]: the peek is rejected, its reply
    cannot be destructured, or the destroy request is rejected. *)
Definition ends_with (s : session) (peek : string) (last : list happening)
    (e : error) (new : list effect) : Prop :=
  (exists h, last = [h] /\ settles h = Rejected e /\ new = [peeks s peek])
  \/ (exists h reply, last = [h] /\ settles h = Resolved reply
                      /\ destructure reply = inl e /\ new = [peeks s peek])
  \/ (exists t, last = p_happenings t /\ is_peeked t
                /\ settles (deleted t) = Rejected e
                /\ new = p_effects s peek t).

Lemma peek_gives (s : session) (peek : string) (fuel : nat) (w : world)
    (t : peeked_job) (rest : list happening) :
  is_peeked t ->
  future w = peeked t :: rest ->
  exists w1,
    peek_and_destroy (S fuel) s peek w
    = bind (session_request s "destroy" [p_jobID t])
        (fun _ => peek_and_destroy fuel s peek) w1
    /\ leads_to w [peeks s peek] rest w1.
Proof.
  intros (reply & Hr & Hd) Hf. cbn [peek_and_destroy].
  unfold bind at 1, session_request at 1.
  destruct (yield_resolved (peeks s peek) w (peeked t) rest reply Hf Hr)
    as (w1 & H & H1).
  unfold peeks in H. rewrite H, Hd. exists w1. split; [reflexivity | exact H1].
Qed.

Lemma job_is_deleted (s : session) (peek : string) (fuel : nat) (w : world)
    (t : peeked_job) (rest : list happening) :
  is_deleted t ->
  future w = p_happenings t ++ rest ->
  exists w',
    peek_and_destroy (S fuel) s peek w = peek_and_destroy fuel s peek w'
    /\ leads_to w (p_effects s peek t) rest w'.
Proof.
  intros [Hp [v Hv]] Hf.
  destruct (peek_gives s peek fuel w t (deleted t :: rest) Hp Hf) as (w1 & -> & H1).
  unfold bind, session_request.
  destruct (yield_resolved (deletes s (p_jobID t)) w1 (deleted t) rest v
              (to_future _ _ _ _ H1) Hv) as (w2 & H & H2).
  unfold deletes in H. rewrite H. exists w2. split; [reflexivity |].
  exact (leads_to_trans _ _ _ _ _ _ _ H1 H2).
Qed.

Lemma jobs_are_deleted (s : session) (peek : string) (jobs : list peeked_job) :
  forall (fuel : nat) (w : world) (rest : list happening),
    Forall is_deleted jobs ->
    future w = all_happenings jobs ++ rest ->
    exists w',
      peek_and_destroy (length jobs + fuel) s peek w = peek_and_destroy fuel s peek w'
      /\ leads_to w (all_effects s peek jobs) rest w'.
Proof.
  induction jobs as [|t jobs IH]; intros fuel w rest Hall Hf.
  - exists w. split; [reflexivity |]. cbn in Hf. rewrite <- Hf. apply leads_to_refl.
  - apply Forall_cons in Hall as [Ht Hall].
    unfold all_happenings in Hf. cbn [map concat] in Hf. rewrite <- app_assoc in Hf.
    cbn [length Nat.add].
    destruct (job_is_deleted s peek (length jobs + fuel) w t _ Ht Hf) as (w1 & -> & H1).
    destruct (IH fuel w1 rest Hall (to_future _ _ _ _ H1)) as (w2 & -> & H2).
    exists w2. split; [reflexivity |].
    exact (leads_to_trans _ _ _ _ _ _ _ H1 H2).
Qed.

Lemma phase_ends (s : session) (peek : string) (fuel : nat) (w : world)
    (last rest : list happening) (e : error) (new : list effect) :
  ends_with s peek last e new ->
  future w = last ++ rest ->
  exists w',
    peek_and_destroy (S fuel) s peek w = Threw e w' /\ leads_to w new rest w'.
Proof.
  intros [(h & -> & Hs & ->) | [(h & reply & -> & Hs & Hd & ->)
                               | (t & -> & Hp & Hs & ->)]] Hf.
  - cbn [peek_and_destroy]. unfold bind at 1, session_request at 1.
    destruct (yield_rejected (peeks s peek) w h rest e Hf Hs) as (w1 & H & H1).
    unfold peeks in H. rewrite H. now exists w1.
  - cbn [peek_and_destroy]. unfold bind at 1, session_request at 1.
    destruct (yield_resolved (peeks s peek) w h rest reply Hf Hs) as (w1 & H & H1).
    unfold peeks in H. rewrite H, Hd. now exists w1.
  - destruct (peek_gives s peek fuel w t (deleted t :: rest) Hp Hf) as (w1 & -> & H1).
    unfold bind, session_request.
    destruct (yield_rejected (deletes s (p_jobID t)) w1 (deleted t) rest e
                (to_future _ _ _ _ H1) Hs) as (w2 & H & H2).
    unfold deletes in H. rewrite H. exists w2. split; [reflexivity |].
    exact (leads_to_trans _ _ _ _ _ _ _ H1 H2).
Qed.

(** A phase over [jobs] that then ends with [e]. *)
Lemma phase_runs (s : session) (peek : string) (fuel : nat) (w : world)
    (jobs : list peeked_job) (last rest : list happening) (e : error)
    (new : list effect) :
  (length jobs < fuel)%nat ->
  Forall is_deleted jobs ->
  ends_with s peek last e new ->
  future w = all_happenings jobs ++ last ++ rest ->
  exists w',
    peek_and_destroy fuel s peek w = Threw e w'
    /\ leads_to w (all_effects s peek jobs ++ new) rest w'.
Proof.
  intros Hfuel Hall Hend Hf.
  replace fuel with (length jobs + S (fuel - S (length jobs)))%nat by lia.
  destruct (jobs_are_deleted s peek jobs (S (fuel - S (length jobs))) w _ Hall Hf)
    as (w1 & -> & H1).
  destruct (phase_ends s peek (fuel - S (length jobs)) w1 last rest e new Hend
              (to_future _ _ _ _ H1))
    as (w2 & -> & H2).
  exists w2. split; [reflexivity |].
  exact (leads_to_trans _ _ _ _ _ _ _ H1 H2).
Qed.

Lemma delete_all_catches (s : session) (peek : string) (fuel : nat) (w w' : world)
    (e : error) :
  peek_and_destroy fuel s peek w = Threw e w' ->
  delete_all fuel s peek w
  = if loose_eq_string e "NOT_FOUND" then Returned tt w' else Threw e w'.
Proof.
  intros H. unfold delete_all, try_catch. rewrite H.
  now destruct (loose_eq_string e "NOT_FOUND").
Qed.

(** X1.  [reset] deletes on the put session: it peeks at the ready jobs and
    destroys each one until a peek or a destroy fails with NOT_FOUND, then
    does the same with the delayed jobs, and returns.  Nothing else is
    requested or logged. *)
Theorem reset_deletes_ready_then_delayed (fuel : nat) (w : world)
    (ready delayed : list peeked_job) (last_ready last_delayed : list happening)
    (e1 e2 : error) (end_ready end_delayed : list effect) (rest : list happening) :
  (length ready < fuel)%nat ->
  (length delayed < fuel)%nat ->
  Forall is_deleted ready ->
  Forall is_deleted delayed ->
  ends_with (put_session w) "peek_ready" last_ready e1 end_ready ->
  loose_eq_string e1 "NOT_FOUND" = true ->
  ends_with (put_session w) "peek_delayed" last_delayed e2 end_delayed ->
  loose_eq_string e2 "NOT_FOUND" = true ->
  future w = all_happenings ready ++ last_ready
             ++ all_happenings delayed ++ last_delayed ++ rest ->
  exists w',
    reset fuel w = Returned tt w'
    /\ trace w'
       = trace w
         ++ (all_effects (put_session w) "peek_ready" ready ++ end_ready)
         ++ (all_effects (put_session w) "peek_delayed" delayed ++ end_delayed)
    /\ future w' = rest.
Proof.
  intros Hfuel1 Hfuel2 Hready Hdelayed Hend1 He1 Hend2 He2 Hf.
  destruct (_put_gives w) as (w0 & Hput & H0).
  unfold reset, bind at 1. rewrite Hput. unfold bind.
  destruct (phase_runs (put_session w) "peek_ready" fuel w0 ready last_ready
              (all_happenings delayed ++ last_delayed ++ rest) e1
              end_ready Hfuel1 Hready Hend1) as (w1 & Hrun1 & H1).
  { rewrite (to_future _ _ _ _ H0). exact Hf. }
  rewrite (delete_all_catches _ _ _ _ _ _ Hrun1), He1.
  destruct (phase_runs (put_session w) "peek_delayed" fuel w1 delayed last_delayed
              rest e2 end_delayed Hfuel2 Hdelayed Hend2 (to_future _ _ _ _ H1))
    as (w2 & Hrun2 & H2).
  rewrite (delete_all_catches _ _ _ _ _ _ Hrun2), He2.
  exists w2. split; [reflexivity |].
  pose proof (leads_to_trans _ _ _ _ _ _ _ H0
                (leads_to_trans _ _ _ _ _ _ _ H1 H2)) as H.
  split; [exact (to_trace _ _ _ _ H) | exact (to_future _ _ _ _ H)].
Qed.

(** X2.  An error other than NOT_FOUND in the ready phase, from a peek, from
    a reply that cannot be destructured or from a destroy, is thrown by
    [reset], and the delayed jobs are not looked at; TIMED_OUT is such an
    error, and so is an [Error] object whose message is NOT_FOUND. *)
Theorem reset_throws_other_errors (fuel : nat) (w : world)
    (ready : list peeked_job) (last : list happening) (e : error)
    (new : list effect) (rest : list happening) :
  (length ready < fuel)%nat ->
  Forall is_deleted ready ->
  ends_with (put_session w) "peek_ready" last e new ->
  loose_eq_string e "NOT_FOUND" = false ->
  future w = all_happenings ready ++ last ++ rest ->
  (exists w',
     reset fuel w = Threw e w'
     /\ trace w' = trace w ++ all_effects (put_session w) "peek_ready" ready ++ new
     /\ future w' = rest)
  /\ loose_eq_string (StringError "TIMED_OUT") "NOT_FOUND" = false
  /\ loose_eq_string (Error "NOT_FOUND") "NOT_FOUND" = false.
Proof.
  intros Hfuel Hready Hend He Hf. split; [| split; reflexivity].
  destruct (_put_gives w) as (w0 & Hput & H0).
  unfold reset, bind at 1. rewrite Hput. unfold bind.
  destruct (phase_runs (put_session w) "peek_ready" fuel w0 ready last rest e new
              Hfuel Hready Hend) as (w1 & Hrun1 & H1).
  { rewrite (to_future _ _ _ _ H0). exact Hf. }
  rewrite (delete_all_catches _ _ _ _ _ _ Hrun1), He.
  exists w1. split; [reflexivity |].
  pose proof (leads_to_trans _ _ _ _ _ _ _ H0 H1) as H.
  split; [exact (to_trace _ _ _ _ H) | exact (to_future _ _ _ _ H)].
Qed.

(** A request of [reset]: a peek or a destroy, on the session [s]. *)
Definition reset_request (s : session) (e : effect) : Prop :=
  exists k args,
    e = request (Session.id s) (k, args)
    /\ (k = "peek_ready" \/ k = "peek_delayed" \/ k = "destroy").

Lemma adds_peek_and_destroy (s : session) (peek : string) (fuel : nat) :
  peek = "peek_ready" \/ peek = "peek_delayed" ->
  adds (reset_request s) (peek_and_destroy fuel s peek).
Proof.
  intros Hpeek.
  induction fuel as [|fuel IH]; cbn [peek_and_destroy]; [apply adds_unfinished |].
  apply adds_bind.
  { apply adds_yield. exists peek, []. split; [reflexivity |]. tauto. }
  intros reply. apply adds_bind; [apply adds_lift | intros job].
  apply adds_bind; [| intros _; exact IH].
  apply adds_yield. exists "destroy", [fst job]. split; [reflexivity |]. tauto.
Qed.

Lemma adds_delete_all (s : session) (peek : string) (fuel : nat) :
  peek = "peek_ready" \/ peek = "peek_delayed" ->
  adds (reset_request s) (delete_all fuel s peek).
Proof.
  intros Hpeek. unfold delete_all. apply adds_try_catch.
  - now apply adds_peek_and_destroy.
  - intros e. destruct (negb _); [apply adds_throw | apply adds_ret].
Qed.

(** X3.  However the broker answers and however [reset] ends, all it does
    is peek and destroy on the put session: it never reserves or releases a
    job, never uses a reserve session, and logs nothing. *)
Theorem reset_only_peeks_and_destroys (fuel : nat) (w : world) :
  exists new,
    trace (final (reset fuel w)) = trace w ++ new
    /\ Forall (reset_request (put_session w)) new.
Proof.
  destruct (_put_gives w) as (w0 & Hput & H0).
  unfold reset, bind at 1. rewrite Hput.
  assert (Hadds : adds (reset_request (put_session w))
                    (delete_all fuel (put_session w) "peek_ready" ;;;
                     delete_all fuel (put_session w) "peek_delayed")).
  { apply adds_bind; [apply adds_delete_all; now left |].
    intros _. apply adds_delete_all. now right. }
  destruct (Hadds w0) as (new & Htrace & Hall). exists new.
  rewrite Htrace, (to_trace _ _ _ _ H0), app_nil_r. now split.
Qed.

Definition a_ready_job : peeked_job :=
  {| peeked := settle (Resolved (JArr [JStr "7"; JBuffer "hello"]));
     p_jobID := JStr "7";
     p_payload := JBuffer "hello";
     deleted := settle (Resolved JUndefined) |}.

Definition a_vanished_job : peeked_job :=
  {| peeked := settle (Resolved (JArr [JStr "9"; JBuffer "later"]));
     p_jobID := JStr "9";
     p_payload := JBuffer "later";
     deleted := settle (Rejected (StringError "NOT_FOUND")) |}.

Definition not_found : happening := settle (Rejected (StringError "NOT_FOUND")).

Definition a_tube : world :=
  at_rest (p_happenings a_ready_job ++ [not_found] ++ p_happenings a_vanished_job).

Lemma reset_deletes_ready_then_delayed_witness :
  exists w',
    reset 2 a_tube = Returned tt w'
    /\ trace w'
       = [request "mail/put" ("peek_ready", []);
          request "mail/put" ("destroy", [JStr "7"]);
          request "mail/put" ("peek_ready", []);
          request "mail/put" ("peek_delayed", []);
          request "mail/put" ("destroy", [JStr "9"])]
    /\ future w' = [].
Proof.
  destruct (reset_deletes_ready_then_delayed 2 a_tube [a_ready_job] []
              [not_found] (p_happenings a_vanished_job)
              (StringError "NOT_FOUND") (StringError "NOT_FOUND")
              [peeks (put_session a_tube) "peek_ready"]
              (p_effects (put_session a_tube) "peek_delayed" a_vanished_job) [])
    as (w' & Hrun & Htrace & Hfuture).
  - cbn. lia.
  - cbn. lia.
  - repeat constructor.
    + exists (JArr [JStr "7"; JBuffer "hello"]). split; reflexivity.
    + exists JUndefined. reflexivity.
  - constructor.
  - left. exists not_found. repeat split.
  - reflexivity.
  - right. right. exists a_vanished_job. repeat split.
    exists (JArr [JStr "9"; JBuffer "later"]). split; reflexivity.
  - reflexivity.
  - reflexivity.
  - exists w'. split; [exact Hrun |]. split; [exact Htrace | exact Hfuture].
Defined.

Definition a_broken_tube : world :=
  at_rest [settle (Rejected (Error "NOT_FOUND")); not_found].

Lemma reset_throws_other_errors_witness :
  exists w',
    reset 1 a_broken_tube = Threw (Error "NOT_FOUND") w'
    /\ trace w' = [request "mail/put" ("peek_ready", [])]
    /\ future w' = [not_found].
Proof.
  destruct (reset_throws_other_errors 1 a_broken_tube []
              [settle (Rejected (Error "NOT_FOUND"))] (Error "NOT_FOUND")
              [peeks (put_session a_broken_tube) "peek_ready"] [not_found])
    as [(w' & Hrun & Htrace & Hfuture) _].
  - cbn. lia.
  - constructor.
  - left. exists (settle (Rejected (Error "NOT_FOUND"))). repeat split.
  - reflexivity.
  - reflexivity.
  - exists w'. split; [exact Hrun |]. split; [exact Htrace | exact Hfuture].
Defined.

End ResetFacts.

(** ** What a coroutine leaves alone *)

Module Frames.

Import Queue Runs.

(** A coroutine that keeps an observation [f] of the world, however it
    ends. *)
Definition preserves {X A} (f : world -> X) (c : M A) : Prop :=
  forall w, f (final (c w)) = f w.

Section Preserves.

Context {X : Type} (f : world -> X).
Hypothesis f_trace : forall w t, f (with_trace w t) = f w.
Hypothesis f_future : forall w fu, f (with_future w fu) = f w.
Hypothesis f_stop : forall w, f (stop w) = f w.

Lemma preserves_ret {A} (a : A) : preserves f (ret a).
Proof. intros w. reflexivity. Qed.

Lemma preserves_throw {A} (e : error) : preserves f (throw (A := A) e).
Proof. intros w. reflexivity. Qed.

Lemma preserves_lift {A} (r : error + A) : preserves f (lift r).
Proof. destruct r; [apply preserves_throw | apply preserves_ret]. Qed.

Lemma preserves_this : preserves f this.
Proof. intros w. reflexivity. Qed.

Lemma preserves_in_test : preserves f in_test.
Proof. intros w. reflexivity. Qed.

Lemma preserves_unfinished {A} : preserves f (fun w => Unfinished (A := A) w).
Proof. intros w. reflexivity. Qed.

Lemma preserves_perform (e : effect) : preserves f (perform e).
Proof. intros w. apply f_trace. Qed.

Lemma preserves_resume : preserves f resume.
Proof.
  intros w. unfold resume. destruct (future w) as [|h rest]; [reflexivity |].
  cbn [final]. destruct (stop_called h); now rewrite ?f_stop, f_future.
Qed.

Lemma preserves_bind {A B} (c : M A) (k : A -> M B) :
  preserves f c -> (forall a, preserves f (k a)) -> preserves f (bind c k).
Proof.
  intros Hc Hk w. specialize (Hc w). unfold bind.
  destruct (c w) as [a w'|e w'|w'|w']; cbn [final] in *; try exact Hc.
  now rewrite Hk.
Qed.

Lemma preserves_try_catch {A} (c : M A) (h : error -> M A) :
  preserves f c -> (forall e, preserves f (h e)) -> preserves f (try_catch c h).
Proof.
  intros Hc Hh w. specialize (Hc w). unfold try_catch.
  destruct (c w) as [a w'|e w'|w'|w']; cbn [final] in *; try exact Hc.
  now rewrite Hh.
Qed.

Lemma preserves_attempt {A} (c : M A) : preserves f c -> preserves f (attempt c).
Proof.
  intros Hc w. specialize (Hc w). unfold attempt. now destruct (c w).
Qed.

Lemma preserves_yield (e : effect) : preserves f (yield e).
Proof.
  unfold yield. apply preserves_bind; [apply preserves_perform | intros _].
  apply preserves_bind; [apply preserves_resume |].
  intros [v|err]; [apply preserves_ret | apply preserves_throw].
Qed.

Lemma preserves_sleep (delay : Z) : preserves f (sleep delay).
Proof.
  unfold sleep. apply preserves_bind; [apply preserves_perform | intros _].
  apply preserves_bind; [apply preserves_resume | intros; apply preserves_ret].
Qed.

End Preserves.

(** A happening during which nobody called [stop]. *)
Definition unstopped (h : happening) : Prop := stop_called h = false.

(** A coroutine that takes what happens from the front of the future, and
    changes the queue only when [stop] is called meanwhile. *)
Definition calm {A} (c : M A) : Prop :=
  forall w,
    exists used,
      future w = used ++ future (final (c w))
      /\ (Forall unstopped used -> queue (final (c w)) = queue w).

Lemma calm_still {A} (c : M A) :
  (forall w, future (final (c w)) = future w /\ queue (final (c w)) = queue w) ->
  calm c.
Proof. intros H w. exists []. destruct (H w) as [-> ->]. now split. Qed.

Lemma calm_ret {A} (a : A) : calm (ret a).
Proof. now apply calm_still. Qed.

Lemma calm_throw {A} (e : error) : calm (throw (A := A) e).
Proof. now apply calm_still. Qed.

Lemma calm_lift {A} (r : error + A) : calm (lift r).
Proof. destruct r; [apply calm_throw | apply calm_ret]. Qed.

Lemma calm_this : calm this.
Proof. now apply calm_still. Qed.

Lemma calm_in_test : calm in_test.
Proof. now apply calm_still. Qed.

Lemma calm_unfinished {A} : calm (fun w => Unfinished (A := A) w).
Proof. now apply calm_still. Qed.

Lemma calm_perform (e : effect) : calm (perform e).
Proof. now apply calm_still. Qed.

Lemma calm_resume : calm resume.
Proof.
  intros w. unfold resume. destruct (future w) as [|h rest] eqn:Hf.
  - exists []. cbn [final]. now rewrite Hf.
  - exists [h]. cbn [final]. split.
    + destruct (stop_called h); [| reflexivity].
      now rewrite (to_future _ _ _ _ (stop_leads (with_future w rest))).
    + intros Hh. apply Forall_cons in Hh as [Hh _]. unfold unstopped in Hh.
      now rewrite Hh.
Qed.

Lemma calm_bind {A B} (c : M A) (k : A -> M B) :
  calm c -> (forall a, calm (k a)) -> calm (bind c k).
Proof.
  intros Hc Hk w. destruct (Hc w) as (u1 & Hf1 & Hq1). unfold bind.
  destruct (c w) as [a w'|e w'|w'|w']; cbn [final] in *; try (now exists u1).
  destruct (Hk a w') as (u2 & Hf2 & Hq2). exists (u1 ++ u2). split.
  - now rewrite <- app_assoc, <- Hf2.
  - intros Hu. apply Forall_app in Hu as [Hu1 Hu2].
    now rewrite (Hq2 Hu2), (Hq1 Hu1).
Qed.

Lemma calm_try_catch {A} (c : M A) (h : error -> M A) :
  calm c -> (forall e, calm (h e)) -> calm (try_catch c h).
Proof.
  intros Hc Hh w. destruct (Hc w) as (u1 & Hf1 & Hq1). unfold try_catch.
  destruct (c w) as [a w'|e w'|w'|w']; cbn [final] in *; try (now exists u1).
  destruct (Hh e w') as (u2 & Hf2 & Hq2). exists (u1 ++ u2). split.
  - now rewrite <- app_assoc, <- Hf2.
  - intros Hu. apply Forall_app in Hu as [Hu1 Hu2].
    now rewrite (Hq2 Hu2), (Hq1 Hu1).
Qed.

Lemma calm_yield (e : effect) : calm (yield e).
Proof.
  unfold yield. apply calm_bind; [apply calm_perform | intros _].
  apply calm_bind; [apply calm_resume |].
  intros [v|err]; [apply calm_ret | apply calm_throw].
Qed.

Lemma calm_sleep (delay : Z) : calm (sleep delay).
Proof.
  unfold sleep. apply calm_bind; [apply calm_perform | intros _].
  apply calm_bind; [apply calm_resume | intros; apply calm_ret].
Qed.

(** What a calm coroutine used is what the future lost. *)
Lemma calm_queue {A} (c : M A) (w : world) (used rest : list happening) :
  calm c ->
  future w = used ++ rest ->
  future (final (c w)) = rest ->
  Forall unstopped used ->
  queue (final (c w)) = queue w.
Proof.
  intros Hc Hf Hrest Hu. destruct (Hc w) as (u & Hfu & Hq).
  apply Hq. rewrite Hrest, Hf in Hfu. apply app_inv_tail in Hfu. now subst.
Qed.

End Frames.

(** ** The worker: one job, and the loop *)

Module WorkerFacts.

Import Queue Runs RunAndDestroyFacts LoopFacts Frames.

(** An effect that is not a request. *)
Definition silent (e : effect) : Prop :=
  match e with
  | request _ _ => False
  | _ => True
  end.

Lemma silent_requests (new : list effect) : Forall silent new -> requests_of new = [].
Proof.
  induction 1 as [|e new He _ IH]; [reflexivity |].
  destruct e; [destruct He | exact IH ..].
Qed.

Lemma env_stop (w : world) : NODE_ENV (stop w) = NODE_ENV w.
Proof. exact (to_env _ _ _ _ (stop_leads w)). Qed.

Lemma test_mode_kept {A} (c : M A) (w : world) :
  preserves NODE_ENV c -> test_mode (final (c w)) = test_mode w.
Proof. intros H. unfold test_mode. now rewrite H. Qed.

Section WithJSON.

Context {J : JSON}.

(** The outer [try] block of [_runAndDestroy] up to its destroy request. *)
Definition before_destroy (jobID payload : jsval) : M unit :=
  let* payload := lift (decode payload) in
  let* q := this in
  perform (notify info [JStr "Processing queued job %s:%s"; JStr (name q); jobID]) ;;;
  perform (notify debug [JStr "Payload for job %s:%s:"; JStr (name q); jobID; payload]) ;;;
  run_handlers (_handlers q) payload ;;;
  let* q := this in
  perform (notify info [JStr "Completed queued job %s:%s"; JStr (name q); jobID]).

Lemma run_then_destroy_splits (s : session) (jobID payload : jsval) (w : world) :
  run_then_destroy s jobID payload w
  = bind (before_destroy jobID payload) (fun _ => destroy_job s jobID) w.
Proof.
  unfold run_then_destroy, before_destroy.
  destruct (decode payload) as [e|v]; cbn [lift]; [reflexivity |].
  unfold bind, ret, this, perform.
  now destruct (run_handlers (_handlers (queue w)) v _).
Qed.

Lemma silent_before_destroy (jobID payload : jsval) :
  adds silent (before_destroy jobID payload).
Proof.
  unfold before_destroy.
  apply adds_bind; [apply adds_lift | intros v].
  apply adds_bind; [apply adds_this | intros q].
  apply adds_bind; [now apply adds_perform | intros _].
  apply adds_bind; [now apply adds_perform | intros _].
  apply adds_bind; [now apply adds_run_handlers | intros _].
  apply adds_bind; [apply adds_this | intros q']. now apply adds_perform.
Qed.

Lemma env_run_handlers (hs : list handler) (v : jsval) :
  preserves NODE_ENV (run_handlers hs v).
Proof.
  induction hs as [|h hs IH]; cbn [run_handlers]; [apply preserves_ret |].
  apply preserves_bind; [| intros _; exact IH].
  unfold run_job. apply preserves_bind; [| intros; apply preserves_ret].
  apply preserves_yield; auto using env_stop.
Qed.

Lemma env_before_destroy (jobID payload : jsval) :
  preserves NODE_ENV (before_destroy jobID payload).
Proof.
  unfold before_destroy.
  apply preserves_bind; [apply preserves_lift | intros v].
  apply preserves_bind; [apply preserves_this | intros q].
  apply preserves_bind; [now apply preserves_perform | intros _].
  apply preserves_bind; [now apply preserves_perform | intros _].
  apply preserves_bind; [apply env_run_handlers | intros _].
  apply preserves_bind; [apply preserves_this | intros q'].
  now apply preserves_perform.
Qed.

(** The inner [try]: one destroy request, and no error leaves it. *)
Lemma destroy_job_acks (s : session) (jobID : jsval) (w : world) :
  thrown (destroy_job s jobID w) = None
  /\ exists new,
       trace (final (destroy_job s jobID w)) = trace w ++ new
       /\ requests_of new = [(Session.id s, ("destroy", [jobID]))].
Proof.
  destruct (future w) as [|d rest] eqn:Hf.
  - unfold destroy_job, try_catch, bind, session_request.
    destruct (yield_suspended (request (Session.id s) ("destroy", [jobID])) w Hf)
      as (w1 & -> & H1).
    split; [reflexivity |]. eexists. split; [exact (to_trace _ _ _ _ H1) | reflexivity].
  - destruct (destroy_job_returns s jobID w d rest Hf) as (w1 & -> & H1).
    split; [reflexivity |]. eexists. split; [exact (to_trace _ _ _ _ H1) |].
    now destruct (settles d).
Qed.

(** The [catch] block: one release request, and it does not return. *)
Lemma release_job_acks (s : session) (jobID : jsval) (e : error) (w : world) :
  returned (release_job s jobID e w) = None
  /\ exists new,
       trace (final (release_job s jobID e w)) = trace w ++ new
       /\ requests_of new
          = [(Session.id s,
              ("release", [jobID; JNum 0; JNum (release_delay (test_mode w))]))].
Proof.
  destruct (future w) as [|r rest] eqn:Hf.
  - unfold release_job, session_request, bind, this, perform, in_test.
    cbn beta iota.
    match goal with
    | |- context [yield ?e ?w0] =>
        destruct (yield_suspended e w0 Hf) as (w1 & -> & H1)
    end.
    split; [reflexivity |]. eexists. split.
    + cbn [final]. rewrite (to_trace _ _ _ _ H1). cbn [trace with_trace].
      rewrite <- app_assoc. reflexivity.
    + reflexivity.
  - destruct (release_job_throws s jobID e w r rest Hf) as (w1 & -> & H1).
    split; [reflexivity |]. eexists. split; [exact (to_trace _ _ _ _ H1) | reflexivity].
Qed.

(** X4.  Whatever the handlers and the broker do, a run of [_runAndDestroy]
    acknowledges the job at most once, and never both ways: when it returns
    it has sent one destroy for the job and no release, when it throws it
    has sent one release (priority 0, the release delay) and no destroy, and
    these are its only requests. *)
Theorem job_is_acknowledged_once (s : session) (jobID payload : jsval) (w : world) :
  let destroy := (Session.id s, ("destroy", [jobID])) in
  let release :=
    (Session.id s, ("release", [jobID; JNum 0; JNum (release_delay (test_mode w))])) in
  exists new,
    trace (final (_runAndDestroy s jobID payload w)) = trace w ++ new
    /\ (requests_of new = [] \/ requests_of new = [destroy]
        \/ requests_of new = [release])
    /\ (forall w', _runAndDestroy s jobID payload w = Returned tt w' ->
                   requests_of new = [destroy])
    /\ (forall e w', _runAndDestroy s jobID payload w = Threw e w' ->
                     requests_of new = [release]).
Proof.
  intros destroy release. unfold _runAndDestroy, try_catch.
  rewrite run_then_destroy_splits. unfold bind.
  destruct (silent_before_destroy jobID payload w) as (n1 & Ht1 & Hs1).
  apply silent_requests in Hs1.
  pose proof (test_mode_kept _ w (env_before_destroy jobID payload)) as Henv.
  destruct (before_destroy jobID payload w) as [[] w1|e w1|w1|w1]; cbn [final] in *.
  - destruct (destroy_job_acks s jobID w1) as (Hthrown & n2 & Ht2 & Hr2).
    assert (Hreq : requests_of (n1 ++ n2) = [destroy]).
    { now rewrite requests_of_app, Hs1, Hr2. }
    destruct (destroy_job s jobID w1) as [[] w2|e w2|w2|w2]; [| discriminate | |];
      cbn [final] in *; exists (n1 ++ n2); rewrite Ht2, Ht1, app_assoc;
      (split; [reflexivity |]); (split; [tauto |]); split; intros; (exact Hreq || discriminate).
  - destruct (release_job_acks s jobID e w1) as (Hret & n2 & Ht2 & Hr2).
    assert (Hreq : requests_of (n1 ++ n2) = [release]).
    { rewrite requests_of_app, Hs1, Hr2. unfold release. now rewrite Henv. }
    destruct (release_job s jobID e w1) as [[] w2|e' w2|w2|w2]; [discriminate | | |];
      cbn [final] in *; exists (n1 ++ n2); rewrite Ht2, Ht1, app_assoc;
      (split; [reflexivity |]); (split; [tauto |]); split; intros; (exact Hreq || discriminate).
  - exists n1. split; [exact Ht1 |]. split; [now left |]. split; intros; discriminate.
  - exists n1. split; [exact Ht1 |]. split; [now left |]. split; intros; discriminate.
Qed.

Lemma calm_run_handlers (hs : list handler) (v : jsval) : calm (run_handlers hs v).
Proof.
  induction hs as [|h hs IH]; cbn [run_handlers]; [apply calm_ret |].
  apply calm_bind; [| intros _; exact IH].
  unfold run_job. apply calm_bind; [apply calm_yield | intros; apply calm_ret].
Qed.

Lemma calm__runAndDestroy (s : session) (jobID payload : jsval) :
  calm (_runAndDestroy s jobID payload).
Proof.
  unfold _runAndDestroy. apply calm_try_catch.
  - unfold run_then_destroy.
    apply calm_bind; [apply calm_lift | intros v].
    apply calm_bind; [apply calm_this | intros q].
    apply calm_bind; [apply calm_perform | intros _].
    apply calm_bind; [apply calm_perform | intros _].
    apply calm_bind; [apply calm_run_handlers | intros _].
    apply calm_bind; [apply calm_this | intros q'].
    apply calm_bind; [apply calm_perform | intros _].
    unfold destroy_job. apply calm_try_catch.
    + apply calm_bind; [apply calm_yield | intros; apply calm_ret].
    + intros _. apply calm_bind; [apply calm_this | intros; apply calm_perform].
  - intros e. unfold release_job.
    apply calm_bind; [apply calm_this | intros q].
    apply calm_bind; [apply calm_perform | intros _].
    apply calm_bind; [apply calm_in_test | intros test].
    apply calm_bind; [apply calm_yield | intros; apply calm_throw].
Qed.

Lemma calm_reserve_and_run (s : session) (timeout : Z) :
  calm (reserve_and_run s timeout).
Proof.
  unfold reserve_and_run, session_request.
  apply calm_bind; [apply calm_yield | intros reply].
  apply calm_bind; [apply calm_lift | intros job]. apply calm__runAndDestroy.
Qed.

(** A turn during which nobody calls [stop]. *)
Definition undisturbed (t : job_turn) : Prop := Forall unstopped (happenings t).

Lemma served_turn_keeps_queue (s : session) (timeout : Z) (w : world) (t : job_turn)
    (rest : list happening) :
  well_served (_handlers (queue w)) t ->
  undisturbed t ->
  future w = happenings t ++ rest ->
  exists w' new,
    reserve_and_run s timeout w = Returned tt w'
    /\ leads_to w new rest w'
    /\ requests_of new = turn_requests s timeout t
    /\ Forall quiet new
    /\ queue w' = queue w.
Proof.
  intros Hserved Hquiet Hf.
  destruct (turn_is_served s timeout w t rest Hserved Hf) as (w' & new & Hrun & Hto & Hreq).
  exists w', new. split; [exact Hrun |]. split; [exact Hto |]. split; [exact Hreq |].
  split.
  { apply (quiet_leads_to s timeout w w' new rest); [now rewrite Hrun | exact Hto]. }
  pose proof (calm_queue (reserve_and_run s timeout) w (happenings t) rest
                (calm_reserve_and_run s timeout) Hf) as Hq.
  rewrite Hrun in Hq. cbn [final] in Hq.
  exact (Hq (to_future _ _ _ _ Hto) Hquiet).
Qed.

Lemma loop_serves (s : session) (rest : list happening) (turns : list job_turn) :
  forall (fuel : nat) (w : world),
    keeps_going (queue w) = true ->
    Forall (well_served (_handlers (queue w))) turns ->
    Forall undisturbed turns ->
    future w = concat (map happenings turns) ++ rest ->
    exists w' new,
      process_loop (length turns + fuel) s w = process_loop fuel s w'
      /\ leads_to w new rest w'
      /\ requests_of new
         = concat (map (turn_requests s (RESERVE_TIMEOUT / 1000)) turns)
      /\ Forall quiet new
      /\ queue w' = queue w.
Proof.
  induction turns as [|t turns IH]; intros fuel w Hgo Hserved Hquiet Hf.
  - exists w, []. split; [reflexivity |]. split; [| now repeat split].
    cbn in Hf. rewrite <- Hf. apply leads_to_refl.
  - apply Forall_cons in Hserved as [Ht Hserved].
    apply Forall_cons in Hquiet as [Hq Hquiet].
    cbn [map concat] in Hf. rewrite <- app_assoc in Hf.
    destruct (served_turn_keeps_queue s (RESERVE_TIMEOUT / 1000) w t _ Ht Hq Hf)
      as (w1 & n1 & Hrun & H1 & Hr1 & Hs1 & Hq1).
    cbn [length Nat.add process_loop]. unfold bind at 1, this at 1. cbn beta iota.
    rewrite Hgo. unfold bind at 1, iteration, try_catch. rewrite Hrun.
    destruct (IH fuel w1) as (w2 & n2 & Hloop & H2 & Hr2 & Hs2 & Hq2).
    + now rewrite Hq1.
    + now rewrite Hq1.
    + exact Hquiet.
    + exact (to_future _ _ _ _ H1).
    + exists w2, (n1 ++ n2). split; [exact Hloop |].
      split; [exact (leads_to_trans _ _ _ _ _ _ _ H1 H2) |].
      split; [| split; [now apply Forall_app | congruence]].
      rewrite requests_of_app, Hr1, Hr2. reflexivity.
Qed.

(** X5.  On a processing queue with a handler the worker loop reserves with
    a timeout of 30 seconds, runs the handlers and destroys the job, turn
    after turn; when [stop] is called while it waits for a reservation and
    the request then fails with TIMED_OUT, the loop returns without another
    request and without a line in the error log or a pause. *)
Theorem loop_serves_until_stopped (fuel : nat) (s : session) (w : world)
    (turns : list job_turn) (h : happening) (e : error) (rest : list happening) :
  keeps_going (queue w) = true ->
  Forall (well_served (_handlers (queue w))) turns ->
  Forall undisturbed turns ->
  stop_called h = true ->
  settles h = Rejected e ->
  is_TIMED_OUT e = true ->
  future w = concat (map happenings turns) ++ h :: rest ->
  (length turns + 1 < fuel)%nat ->
  exists w' new,
    _processContinously fuel s w = Returned tt w'
    /\ trace w' = trace w ++ new
    /\ requests_of new
       = concat (map (turn_requests s 30) turns)
         ++ [(Session.id s, ("reserve_with_timeout", [JNum 30]))]
    /\ Forall quiet new
    /\ future w' = rest
    /\ keeps_going (queue w') = false.
Proof.
  intros Hgo Hserved Hquiet Hstop Hs Hidle Hf Hfuel.
  unfold _processContinously, bind at 1, this at 1. cbn beta iota.
  rewrite Hgo. unfold bind at 1, perform at 1. cbn beta iota.
  set (line := notify debug [JStr "Waiting for jobs on queue %s"; JStr (name (queue w))]).
  set (w0 := with_trace w (trace w ++ [line])).
  replace fuel with (length turns + S (S (fuel - length turns - 2)))%nat by lia.
  destruct (loop_serves s (h :: rest) turns (S (S (fuel - length turns - 2))) w0
              Hgo Hserved Hquiet Hf) as (w1 & n1 & -> & H1 & Hr1 & Hs1 & Hq1).
  destruct (loop_ends_after_stop (fuel - length turns - 2) s w1 h rest e)
    as (w2 & -> & Ht2 & Hf2 & Hgo2); try assumption.
  { now rewrite Hq1. }
  { exact (to_future _ _ _ _ H1). }
  exists w2, (line :: n1 ++ [reserves s (RESERVE_TIMEOUT / 1000)]).
  split; [reflexivity |]. split; [| split; [| split; [| split]]].
  - rewrite Ht2, (to_trace _ _ _ _ H1). unfold w0. cbn [trace with_trace].
    rewrite <- !app_assoc. reflexivity.
  - change (line :: n1 ++ [reserves s (RESERVE_TIMEOUT / 1000)])
      with ([line] ++ n1 ++ [reserves s (RESERVE_TIMEOUT / 1000)]).
    rewrite !requests_of_app, Hr1. reflexivity.
  - constructor; [exact I |]. apply Forall_app. split; [exact Hs1 |].
    now repeat constructor.
  - exact Hf2.
  - exact Hgo2.
Qed.

(** What a worker loop on the session [s] may do. *)
Definition worker_effect (s : session) (e : effect) : Prop :=
  match e with
  | request on (k, args) =>
      on = Session.id s
      /\ ((k = "reserve_with_timeout" /\ args = [JNum 30])
          \/ k = "destroy" \/ k = "release")
  | runJob _ _ timeout => timeout = 600000
  | setTimeout delay => delay = 0 \/ delay = 30000
  | notify _ _ => True
  end.

Lemma worker_iteration (s : session) : adds (worker_effect s) (iteration s).
Proof.
  unfold iteration. apply adds_try_catch.
  - unfold reserve_and_run, session_request.
    apply adds_bind; [apply adds_yield; cbn; tauto | intros reply].
    apply adds_bind; [apply adds_lift | intros job].
    apply adds__runAndDestroy; cbn; intros; tauto.
  - intros e. destruct (is_TIMED_OUT e); [apply adds_ret |].
    apply adds_bind; [now apply adds_perform | intros _].
    apply adds_bind; [apply adds_in_test | intros test].
    apply adds_sleep. destruct test; cbn; tauto.
Qed.

(** The pauses of a loop where [test_mode] is [test]: the back-off of that
    environment. *)
Definition backs_off (test : bool) (e : effect) : Prop :=
  match e with
  | setTimeout delay => delay = reserve_backoff test
  | _ => True
  end.

(** A coroutine that, run where [test_mode] is [test], adds effects of [P]
    and leaves the environment as it is. *)
Definition adds_where {A} (test : bool) (P : effect -> Prop) (c : M A) : Prop :=
  forall w,
    test_mode w = test ->
    test_mode (final (c w)) = test
    /\ exists new, trace (final (c w)) = trace w ++ new /\ Forall P new.

Lemma adds_where_kept {A} (test : bool) (P : effect -> Prop) (c : M A) :
  adds P c -> preserves NODE_ENV c -> adds_where test P c.
Proof.
  intros Hadds Henv w Hw. split; [now rewrite (test_mode_kept c w Henv) | apply Hadds].
Qed.

Lemma adds_where_bind {A B} (test : bool) (P : effect -> Prop) (c : M A)
    (k : A -> M B) :
  adds_where test P c -> (forall a, adds_where test P (k a)) ->
  adds_where test P (bind c k).
Proof.
  intros Hc Hk w Hw. destruct (Hc w Hw) as (Henv & n1 & H1 & F1). unfold bind.
  destruct (c w) as [a w'|e w'|w'|w']; cbn [final] in *;
    try (split; [exact Henv | now exists n1]).
  destruct (Hk a w' Henv) as (Henv' & n2 & H2 & F2). split; [exact Henv' |].
  exists (n1 ++ n2). rewrite H2, H1, app_assoc. split; [reflexivity | now apply Forall_app].
Qed.

Lemma adds_where_try_catch {A} (test : bool) (P : effect -> Prop) (c : M A)
    (h : error -> M A) :
  adds_where test P c -> (forall e, adds_where test P (h e)) ->
  adds_where test P (try_catch c h).
Proof.
  intros Hc Hh w Hw. destruct (Hc w Hw) as (Henv & n1 & H1 & F1). unfold try_catch.
  destruct (c w) as [a w'|e w'|w'|w']; cbn [final] in *;
    try (split; [exact Henv | now exists n1]).
  destruct (Hh e w' Henv) as (Henv' & n2 & H2 & F2). split; [exact Henv' |].
  exists (n1 ++ n2). rewrite H2, H1, app_assoc. split; [reflexivity | now apply Forall_app].
Qed.

(** [process.env.NODE_ENV == 'test'], read where [test_mode] is [test]. *)
Lemma adds_where_in_test {A} (test : bool) (P : effect -> Prop) (k : bool -> M A) :
  adds_where test P (k test) -> adds_where test P (bind in_test k).
Proof. intros Hk w Hw. unfold bind, in_test. rewrite Hw. now apply Hk. Qed.

Lemma env_destroy_job (s : session) (jobID : jsval) :
  preserves NODE_ENV (destroy_job s jobID).
Proof.
  unfold destroy_job, session_request. apply preserves_try_catch.
  - apply preserves_bind; [| intros; apply preserves_ret].
    apply preserves_yield; auto using env_stop.
  - intros e. apply preserves_bind; [apply preserves_this | intros q].
    now apply preserves_perform.
Qed.

Lemma env_release_job (s : session) (jobID : jsval) (e : error) :
  preserves NODE_ENV (release_job s jobID e).
Proof.
  unfold release_job, session_request.
  apply preserves_bind; [apply preserves_this | intros q].
  apply preserves_bind; [now apply preserves_perform | intros _].
  apply preserves_bind; [apply preserves_in_test | intros test].
  apply preserves_bind; [| intros; apply preserves_throw].
  apply preserves_yield; auto using env_stop.
Qed.

Lemma env__runAndDestroy (s : session) (jobID payload : jsval) :
  preserves NODE_ENV (_runAndDestroy s jobID payload).
Proof.
  unfold _runAndDestroy. apply preserves_try_catch; [| apply env_release_job].
  intros w. rewrite run_then_destroy_splits. revert w.
  change (preserves NODE_ENV
            (bind (before_destroy jobID payload) (fun _ => destroy_job s jobID))).
  apply preserves_bind; [apply env_before_destroy | intros _; apply env_destroy_job].
Qed.

Lemma env_reserve_and_run (s : session) (timeout : Z) :
  preserves NODE_ENV (reserve_and_run s timeout).
Proof.
  unfold reserve_and_run, session_request.
  apply preserves_bind; [apply preserves_yield; auto using env_stop | intros reply].
  apply preserves_bind; [apply preserves_lift | intros job]. apply env__runAndDestroy.
Qed.

Lemma iteration_backs_off (test : bool) (s : session) :
  adds_where test (backs_off test) (iteration s).
Proof.
  unfold iteration. apply adds_where_try_catch.
  - apply adds_where_kept; [| apply env_reserve_and_run].
    apply adds_reserve_and_run; intros; exact I.
  - intros e. destruct (is_TIMED_OUT e).
    + apply adds_where_kept; [apply adds_ret | apply preserves_ret].
    + apply adds_where_bind; [| intros _].
      { apply adds_where_kept; [now apply adds_perform | now apply preserves_perform]. }
      apply adds_where_in_test.
      apply adds_where_kept; [now apply adds_sleep |].
      apply preserves_sleep; auto using env_stop.
Qed.

Lemma loop_backs_off (test : bool) (fuel : nat) (s : session) :
  adds_where test (backs_off test) (_processContinously fuel s).
Proof.
  unfold _processContinously.
  apply adds_where_bind; [| intros q].
  { apply adds_where_kept; [apply adds_this | apply preserves_this]. }
  apply adds_where_bind.
  { apply adds_where_kept;
      destruct (keeps_going q);
      solve [now apply adds_perform | apply adds_ret | now apply preserves_perform
            | apply preserves_ret]. }
  intros _. induction fuel as [|fuel IH]; cbn [process_loop].
  { apply adds_where_kept; [apply adds_unfinished | apply preserves_unfinished]. }
  apply adds_where_bind; [| intros q'].
  { apply adds_where_kept; [apply adds_this | apply preserves_this]. }
  destruct (keeps_going q').
  - apply adds_where_bind; [apply iteration_backs_off | intros _; exact IH].
  - apply adds_where_kept; [apply adds_ret | apply preserves_ret].
Qed.

(** X6.  However long it runs and whatever happens, a worker loop sends its
    requests on its own reserve session only, and they are reservations with
    a timeout of 30 seconds, destroys and releases; it runs handlers with
    the deadline of ten minutes, and every pause is the back-off of the
    environment it runs in: 30 seconds, and none in the test environment. *)
Theorem worker_keeps_to_its_session (fuel : nat) (s : session) (w : world) :
  exists new,
    trace (final (_processContinously fuel s w)) = trace w ++ new
    /\ Forall (worker_effect s) new
    /\ Forall (backs_off (test_mode w)) new.
Proof.
  assert (Hadds : adds (worker_effect s) (_processContinously fuel s)).
  { unfold _processContinously.
    apply adds_bind; [apply adds_this | intros q].
    apply adds_bind.
    { destruct (keeps_going q); [now apply adds_perform | apply adds_ret]. }
    intros _. induction fuel as [|fuel IH]; cbn [process_loop]; [apply adds_unfinished |].
    apply adds_bind; [apply adds_this | intros q'].
    destruct (keeps_going q'); [| apply adds_ret].
    apply adds_bind; [apply worker_iteration | intros _; exact IH]. }
  destruct (Hadds w) as (new & Htrace & Hall).
  destruct (loop_backs_off (test_mode w) fuel s w eq_refl) as (_ & new' & Htrace' & Hall').
  exists new. split; [exact Htrace |]. split; [exact Hall |].
  rewrite Htrace in Htrace'. apply app_inv_head in Htrace'. now subst new'.
Qed.

End WithJSON.

(** [stop] is called while the loop waits, and the connection closes. *)
Definition stopped_waiting : happening :=
  {| stop_called := true; settles := Rejected (Error "TIMED_OUT") |}.

Lemma loop_serves_until_stopped_witness :
  exists w' new,
    _processContinously (J := CompactJSON.json) 3 reserve_0
      (world_of processing_queue (happenings first_turn ++ [stopped_waiting]))
    = Returned tt w'
    /\ trace w' = [] ++ new
    /\ requests_of new
       = [("mail/0", ("reserve_with_timeout", [JNum 30]));
          ("mail/0", ("destroy", [JStr "7"]));
          ("mail/0", ("reserve_with_timeout", [JNum 30]))]
    /\ future w' = [].
Proof.
  destruct (loop_serves_until_stopped (J := CompactJSON.json) 3 reserve_0
              (world_of processing_queue (happenings first_turn ++ [stopped_waiting]))
              [first_turn] stopped_waiting (Error "TIMED_OUT") [])
    as (w' & new & Hrun & Htrace & Hreq & _ & Hfuture & _).
  - reflexivity.
  - repeat constructor; try (eexists; reflexivity).
    exists (JArr [JStr "7"; JBuffer "[1,2]"]). split; reflexivity.
  - repeat constructor.
  - reflexivity.
  - reflexivity.
  - reflexivity.
  - reflexivity.
  - cbn. lia.
  - exists w', new. split; [exact Hrun |]. split; [exact Htrace |].
    split; [exact Hreq | exact Hfuture].
Defined.

End WorkerFacts.

(** ** The sessions of a queue *)

Module SlotFacts.

Import Queue Runs PushFacts LoopFacts.

Lemma array_set_same {A} (l : list (option A)) (i : nat) (x : A) :
  mjoin (array_set l i x !! i) = Some x.
Proof.
  revert l. induction i as [|i IH]; intros [|slot rest]; cbn; try reflexivity; apply IH.
Qed.

Lemma array_set_other {A} (l : list (option A)) (i j : nat) (x : A) :
  i <> j -> mjoin (array_set l i x !! j) = mjoin (l !! j).
Proof.
  revert l j. induction i as [|i IH]; intros [|slot rest] [|j] Hne; cbn;
    try reflexivity; try congruence.
  - rewrite IH by congruence. now destruct j.
  - apply IH. congruence.
Qed.

(** Reading a decimal back. *)
Definition string_to_nat (s : string) : option nat :=
  option_map Nat.of_uint (NilZero.uint_of_string s).

Lemma string_to_nat_to_string (n : nat) : string_to_nat (nat_to_string n) = Some n.
Proof.
  unfold string_to_nat, nat_to_string.
  pose proof (DecimalNat.Unsigned.of_to n) as Hn.
  destruct (Nat.to_uint n) eqn:E;
    try (rewrite NilZero.usu by discriminate; cbn [option_map]; now rewrite Hn).
  cbn in *. now rewrite Hn.
Qed.

Lemma nat_to_string_inj (n m : nat) : nat_to_string n = nat_to_string m -> n = m.
Proof.
  intros H. apply (f_equal string_to_nat) in H.
  rewrite !string_to_nat_to_string in H. congruence.
Qed.

Lemma append_inv_head (a b c : string) : a +:+ b = a +:+ c -> b = c.
Proof.
  induction a as [|x a IH]; cbn; [tauto |]. intros [= H]. now apply IH.
Qed.

(** X7.  The sessions of a queue are created lazily and once.  After
    [_reserve(index)] the slot holds the session that the call returned: the
    one that was stored there, or else a new one; the next call gives that
    stored session and changes nothing.  The other slots and [_putSession]
    hold what they held, and nothing is sent.  The getter [_put] behaves in
    the same way with [_putSession]. *)
Theorem sessions_are_created_once (w : world) (index : nat) :
  (exists w1,
      _reserve index w = Returned (reserve_session w index) w1
      /\ mjoin (_reserveSessions (queue w1) !! index) = Some (reserve_session w index)
      /\ _reserve index w1 = Returned (reserve_session w index) w1
      /\ (forall j, j <> index ->
                    mjoin (_reserveSessions (queue w1) !! j)
                    = mjoin (_reserveSessions (queue w) !! j))
      /\ (forall j, j <> index -> reserve_session w1 j = reserve_session w j)
      /\ _putSession (queue w1) = _putSession (queue w)
      /\ put_session w1 = put_session w
      /\ (forall s, mjoin (_reserveSessions (queue w) !! index) = Some s ->
                    reserve_session w index = s /\ w1 = w)
      /\ trace w1 = trace w)
  /\ (exists w1,
        _put w = Returned (put_session w) w1
        /\ _putSession (queue w1) = Some (put_session w)
        /\ _put w1 = Returned (put_session w) w1
        /\ _reserveSessions (queue w1) = _reserveSessions (queue w)
        /\ (forall j, reserve_session w1 j = reserve_session w j)
        /\ (forall s, _putSession (queue w) = Some s -> put_session w = s /\ w1 = w)
        /\ trace w1 = trace w).
Proof.
  split.
  - unfold _reserve, reserve_session.
    destruct (mjoin (_reserveSessions (queue w) !! index)) as [s|] eqn:Hslot.
    + exists w. rewrite Hslot. repeat split; try reflexivity; congruence.
    + eexists. split; [reflexivity |]. cbn [queue with_queue _reserveSessions].
      rewrite array_set_same. split; [reflexivity |]. split; [reflexivity |].
      split; [| split; [| split; [reflexivity | split; [reflexivity | split]]]].
      * intros j Hj. now rewrite array_set_other by congruence.
      * intros j Hj. rewrite array_set_other by congruence. reflexivity.
      * discriminate.
      * reflexivity.
  - unfold _put, put_session.
    destruct (_putSession (queue w)) as [s|] eqn:Hput.
    + exists w. rewrite Hput. repeat split; try reflexivity; congruence.
    + eexists. split; [reflexivity |]. cbn.
      repeat split; try reflexivity; discriminate.
Qed.

Lemma sessions_are_created_once_witness :
  exists w1,
    _reserve 1 (at_rest []) = Returned (reserve_session (at_rest []) 1) w1
    /\ _reserveSessions (queue w1) = [None; Some (reserve_session (at_rest []) 1)]
    /\ _reserve 1 w1 = Returned (reserve_session (at_rest []) 1) w1.
Proof.
  destruct (proj1 (sessions_are_created_once (at_rest []) 1))
    as (w1 & Hfirst & _ & Hsecond & _).
  exists w1. split; [exact Hfirst |]. split; [| exact Hsecond].
  injection Hfirst as <-. reflexivity.
Defined.

(** X8.  The sessions a queue creates carry different ids: [name/put] for
    the put session and [name/index] for the reserve session of a slot, so
    that two slots never share an id and no slot has the id of the put
    session. *)
Theorem fresh_sessions_have_their_own_ids (w : world) (i j : nat) :
  mjoin (_reserveSessions (queue w) !! i) = None ->
  mjoin (_reserveSessions (queue w) !! j) = None ->
  _putSession (queue w) = None ->
  i <> j ->
  Session.id (reserve_session w i) <> Session.id (reserve_session w j)
  /\ Session.id (reserve_session w i) <> Session.id (put_session w)
  /\ Session.id (reserve_session w i) = name (queue w) +:+ "/" +:+ nat_to_string i
  /\ Session.id (put_session w) = name (queue w) +:+ "/put".
Proof.
  intros Hi Hj Hput Hne. unfold reserve_session, put_session.
  rewrite Hi, Hj, Hput. cbn [Session.id]. repeat split.
  - intros H. apply append_inv_head, append_inv_head, nat_to_string_inj in H.
    contradiction.
  - intros H. apply append_inv_head in H.
    change ("/" +:+ nat_to_string i = "/" +:+ "put") in H.
    apply append_inv_head in H. apply (f_equal string_to_nat) in H.
    rewrite string_to_nat_to_string in H. discriminate.
Qed.

Lemma fresh_sessions_have_their_own_ids_witness :
  Session.id (reserve_session (at_rest []) 0) <> Session.id (reserve_session (at_rest []) 1)
  /\ Session.id (reserve_session (at_rest []) 0) = "mail/0"
  /\ Session.id (put_session (at_rest [])) = "mail/put".
Proof.
  destruct (fresh_sessions_have_their_own_ids (at_rest []) 0 1 eq_refl eq_refl eq_refl
              ltac:(discriminate)) as (H01 & _ & H0 & Hput).
  split; [exact H01 |]. split; [exact H0 | exact Hput].
Defined.

End SlotFacts.

(** ** Queue: each, start, stop and width *)

Module Pool.

Import Queue Runs.

(** A width is [undefined] or an integer; it is truthy when it is an
    integer other than zero. *)
Definition truthy (v : option Z) : bool :=
  match v with
  | Some z => negb (Z.eqb z 0)
  | None => false
  end.

(** The queue object as [each], [start] and [stop] see it: the fields of
    the coroutine layer, [_width], and [config.width] of its server. *)
Record pool : Type := {
  core : world;
  _width : option Z;
  config_width : option Z
}.

Definition with_core (p : pool) (w : world) : pool :=
  {| core := w; _width := _width p; config_width := config_width p |}.

Definition with_width (p : pool) (v : option Z) : pool :=
  {| core := core p; _width := v; config_width := config_width p |}.

(** [a || b] on a width and a number. *)
Definition or_else (a : option Z) (b : Z) : Z :=
  match a with
  | Some z => if Z.eqb z 0 then b else z
  | None => b
  end.

(** The getter [width]: [this._width || this._server.config.width || 1]. *)
Definition width (p : pool) : Z :=
  or_else (_width p) (or_else (config_width p) 1).

Definition set_processing (w : world) (b : bool) : world :=
  let q := queue w in
  with_queue w
    {| name := name q; _prefixedName := _prefixedName q;
       _authenticate := _authenticate q;
       _processing := b; _handlers := _handlers q;
       _putSession := _putSession q; _reserveSessions := _reserveSessions q |}.

(** [this._handlers.push(handler)]. *)
Definition push_handler (w : world) (h : handler) : world :=
  let q := queue w in
  with_queue w
    {| name := name q; _prefixedName := _prefixedName q;
       _authenticate := _authenticate q;
       _processing := _processing q; _handlers := _handlers q ++ [h];
       _putSession := _putSession q; _reserveSessions := _reserveSessions q |}.

Section Processing.

Context {J : JSON}.

(** A call of [_processContinously(session)]: the line is logged, [co]
    runs the loop up to its first suspension, and the call returns; nothing
    happens meanwhile. *)
Definition spawn (s : session) (w : world) : world :=
  with_future (final (_processContinously 1 s (with_future w []))) (future w).

(** The body of the [for] loop of [each] and of [start], for the slot [i]. *)
Definition start_worker (w : world) (i : nat) : world :=
  match _reserve i w with
  | Returned s w' => spawn s w'
  | other => final other
  end.

(** [for (var i = 0; i < this.width; ++i) { ... }]. *)
Definition start_workers (p : pool) : pool :=
  with_core p (fold_left start_worker (seq 0 (Z.to_nat (width p))) (core p)).

(** [each(handler, width)]; a [handler] that is not a function is [None]. *)
Definition each (handler : option handler) (width : option Z) (p : pool)
  : error + pool :=
  match handler with
  | None => inl (AssertionError "Called each without a valid handler")
  | Some h =>
      let p := if truthy width then with_width p width else p in
      let p := with_core p (push_handler (core p) h) in
      let q := queue (core p) in
      inr (if _processing q && Nat.eqb (length (_handlers q)) 1
           then start_workers p
           else p)
  end.

(** [start()]. *)
Definition start (p : pool) : pool :=
  if _processing (queue (core p)) then p
  else
    let p := with_core p (set_processing (core p) true) in
    if negb (Nat.eqb (length (_handlers (queue (core p)))) 0)
    then start_workers p
    else p.

(** [stop()]. *)
Definition stop (p : pool) : pool := with_core p (Queue.stop (core p)).

End Processing.

End Pool.

Module PoolFacts.

Import Queue Runs RunAndDestroyFacts LoopFacts Frames WorkerFacts SlotFacts Pool.

(** The session [_reserve] constructs for a slot. *)
Definition fresh (q : Queue) (index : nat) : session :=
  {| Session.id := name q +:+ "/" +:+ nat_to_string index;
     Session.authenticate := _authenticate q;
     Session.setup := [("watch", [JStr (_prefixedName q)]);
                       ("ignore", [JStr "default"])] |}.

(** The session of a slot, stored or still to be constructed. *)
Definition slot (q : Queue) (l : list (option session)) (index : nat) : session :=
  match mjoin (l !! index) with
  | Some s => s
  | None => fresh q index
  end.

Definition fill_slot (q : Queue) (l : list (option session)) (index : nat)
  : list (option session) :=
  match mjoin (l !! index) with
  | Some _ => l
  | None => array_set l index (fresh q index)
  end.

Definition with_slots (q : Queue) (l : list (option session)) : Queue :=
  {| name := name q; _prefixedName := _prefixedName q;
     _authenticate := _authenticate q;
     _processing := _processing q; _handlers := _handlers q;
     _putSession := _putSession q; _reserveSessions := l |}.

(** The world after workers were started: the slots are filled and the
    workers did [new]. *)
Definition started (w : world) (l : list (option session)) (new : list effect) : world :=
  {| queue := with_slots (queue w) l; NODE_ENV := NODE_ENV w; future := future w;
     trace := trace w ++ new; ended := ended w |}.

Definition waiting (q : Queue) : effect :=
  notify debug [JStr "Waiting for jobs on queue %s"; JStr (name q)].

(** What a worker does when it is started on the session [s]. *)
Definition worker_starts (q : Queue) (s : session) : list effect :=
  [waiting q; reserves s 30].

Lemma slot_fill_slot (q : Queue) (l : list (option session)) (i j : nat) :
  slot q (fill_slot q l j) i = slot q l i.
Proof.
  unfold fill_slot, slot.
  destruct (mjoin (l !! j)) as [s|] eqn:Hj; [reflexivity |].
  destruct (decide (j = i)) as [->|Hne].
  - now rewrite array_set_same, Hj.
  - now rewrite array_set_other.
Qed.

Lemma fill_slot_same (q : Queue) (l : list (option session)) (i : nat) :
  mjoin (fill_slot q l i !! i) = Some (slot q l i).
Proof.
  unfold fill_slot, slot.
  destruct (mjoin (l !! i)) as [s|] eqn:Hi; [exact Hi | apply array_set_same].
Qed.

Lemma fill_slot_other (q : Queue) (l : list (option session)) (i j : nat) :
  i <> j -> mjoin (fill_slot q l i !! j) = mjoin (l !! j).
Proof.
  intros Hne. unfold fill_slot.
  destruct (mjoin (l !! i)); [reflexivity | now apply array_set_other].
Qed.

Lemma started_started (w : world) (l1 l2 : list (option session))
    (e1 e2 : list effect) :
  started (started w l1 e1) l2 e2 = started w l2 (e1 ++ e2).
Proof. unfold started. cbn. now rewrite app_assoc. Qed.

Lemma _reserve_fills (w : world) (i : nat) :
  _reserve i w
  = Returned (slot (queue w) (_reserveSessions (queue w)) i)
      (started w (fill_slot (queue w) (_reserveSessions (queue w)) i) []).
Proof.
  unfold _reserve, slot, fill_slot, started.
  destruct w as [[n p a b hs ps rs] env fu tr en]. cbn.
  destruct (mjoin (rs !! i)); cbn; now rewrite app_nil_r.
Qed.

Section WithJSON.

Context {J : JSON}.

Lemma spawn_going (s : session) (w : world) :
  keeps_going (queue w) = true ->
  spawn s w = started w (_reserveSessions (queue w)) (worker_starts (queue w) s).
Proof.
  intros Hgo. unfold spawn, _processContinously, bind, this. cbn beta iota.
  cbn [queue with_future]. rewrite Hgo. unfold perform at 1. cbn beta iota.
  cbn [process_loop]. unfold bind, this. cbn beta iota.
  cbn [queue with_future with_trace]. rewrite Hgo.
  unfold iteration, try_catch, reserve_and_run, session_request, yield, bind,
    perform, resume.
  cbn. unfold started, worker_starts, waiting, reserves, with_slots.
  destruct w as [[n p a b hs ps rs] env fu tr en]. cbn.
  now rewrite <- app_assoc.
Qed.

Lemma spawn_idle (s : session) (w : world) :
  keeps_going (queue w) = false -> spawn s w = w.
Proof.
  intros Hgo. unfold spawn, _processContinously, bind, this. cbn beta iota.
  cbn [queue with_future]. rewrite Hgo. unfold ret at 1. cbn beta iota.
  cbn [process_loop]. unfold bind, this. cbn beta iota.
  cbn [queue with_future]. rewrite Hgo. now destruct w.
Qed.

Lemma start_worker_going (w : world) (i : nat) :
  keeps_going (queue w) = true ->
  start_worker w i
  = started w (fill_slot (queue w) (_reserveSessions (queue w)) i)
      (worker_starts (queue w) (slot (queue w) (_reserveSessions (queue w)) i)).
Proof.
  intros Hgo. unfold start_worker. rewrite _reserve_fills.
  rewrite spawn_going by exact Hgo. cbn [queue started _reserveSessions with_slots].
  now rewrite started_started.
Qed.

Definition fill_slots (q : Queue) (l : list (option session)) (k n : nat)
  : list (option session) :=
  fold_left (fill_slot q) (seq k n) l.

(** What the workers of the slots [k], ..., [k + n - 1] do when they are
    started. *)
Definition workers_start (q : Queue) (l : list (option session)) (k n : nat)
  : list effect :=
  concat (map (fun i => worker_starts q (slot q l i)) (seq k n)).

Lemma started_nothing (w : world) : started w (_reserveSessions (queue w)) [] = w.
Proof.
  destruct w as [[n p a b hs ps rs] env fu tr en]. unfold started. cbn.
  now rewrite app_nil_r.
Qed.

Lemma workers_start_fill_slot (q : Queue) (l : list (option session)) (j k n : nat) :
  workers_start q (fill_slot q l j) k n = workers_start q l k n.
Proof.
  unfold workers_start. f_equal. apply map_ext. intros i.
  now rewrite slot_fill_slot.
Qed.

Lemma start_workers_going (n : nat) :
  forall (k : nat) (w : world),
    keeps_going (queue w) = true ->
    fold_left start_worker (seq k n) w
    = started w (fill_slots (queue w) (_reserveSessions (queue w)) k n)
        (workers_start (queue w) (_reserveSessions (queue w)) k n).
Proof.
  induction n as [|n IH]; intros k w Hgo.
  - cbn. symmetry. apply started_nothing.
  - cbn [seq fold_left]. rewrite start_worker_going by exact Hgo.
    rewrite IH by exact Hgo. rewrite started_started.
    cbn [queue started _reserveSessions with_slots].
    change (workers_start (with_slots (queue w) ?l1) ?l ?a ?b)
      with (workers_start (queue w) l a b).
    rewrite workers_start_fill_slot. reflexivity.
Qed.

Lemma fill_slots_lookup (q : Queue) (n : nat) :
  forall (k : nat) (l : list (option session)) (i : nat),
    (k <= i < k + n)%nat ->
    mjoin (fill_slots q l k n !! i) = Some (slot q l i).
Proof.
  unfold fill_slots.
  induction n as [|n IH]; intros k l i Hi; [lia |].
  cbn [seq fold_left].
  destruct (decide (i = k)) as [->|Hne].
  - clear IH Hi.
    assert (Hkeep : forall m j l', (k < j)%nat ->
              mjoin (fold_left (fill_slot q) (seq j m) l' !! k) = mjoin (l' !! k)).
    { induction m as [|m IHm]; intros j l' Hj; [reflexivity |].
      cbn [seq fold_left]. rewrite IHm by lia. apply fill_slot_other. lia. }
    rewrite Hkeep by lia. apply fill_slot_same.
  - rewrite IH by lia. now rewrite slot_fill_slot.
Qed.

Lemma array_set_end {A} (l : list (option A)) (x : A) :
  array_set l (length l) x = l ++ [Some x].
Proof. induction l as [|slot rest IH]; cbn; [reflexivity | now rewrite IH]. Qed.

Lemma lookup_end (l : list (option session)) : mjoin (l !! length l) = None.
Proof. now rewrite (lookup_ge_None_2 l (length l)) by lia. Qed.

Lemma fill_slots_end (q : Queue) (n : nat) :
  forall (l : list (option session)),
    fill_slots q l (length l) n
    = l ++ map (fun i => Some (fresh q i)) (seq (length l) n).
Proof.
  unfold fill_slots.
  induction n as [|n IH]; intros l; cbn [seq fold_left map]; [now rewrite app_nil_r |].
  unfold fill_slot at 2. rewrite lookup_end, array_set_end.
  replace (S (length l)) with (length (l ++ [Some (fresh q (length l))]))
    by (rewrite length_app; cbn; lia).
  rewrite IH, <- app_assoc. reflexivity.
Qed.

Lemma end_sessions_all (ss : list session) :
  end_sessions (map Some ss) = (map Session.id ss, true).
Proof. induction ss as [|s ss IH]; cbn; [reflexivity | now rewrite IH]. Qed.

Lemma handlers_length (q : Queue) :
  _handlers q <> [] -> Nat.eqb (length (_handlers q)) 0 = false.
Proof. destruct (_handlers q); [congruence | reflexivity]. Qed.

Lemma start_workers_core (p : pool) :
  keeps_going (queue (core p)) = true ->
  core (start_workers p)
  = started (core p)
      (fill_slots (queue (core p)) (_reserveSessions (queue (core p))) 0
         (Z.to_nat (width p)))
      (workers_start (queue (core p)) (_reserveSessions (queue (core p))) 0
         (Z.to_nat (width p))).
Proof. intros Hgo. unfold start_workers. cbn [core with_core]. now apply start_workers_going. Qed.

(** [start] on a queue that was not processing and has a handler. *)
Lemma start_core (p : pool) :
  _processing (queue (core p)) = false ->
  _handlers (queue (core p)) <> [] ->
  core (start p)
  = started (set_processing (core p) true)
      (fill_slots (queue (core p)) (_reserveSessions (queue (core p))) 0
         (Z.to_nat (width p)))
      (workers_start (queue (core p)) (_reserveSessions (queue (core p))) 0
         (Z.to_nat (width p))).
Proof.
  intros Hp Hhs. unfold start. rewrite Hp. cbn [core with_core].
  cbn [set_processing queue with_queue _handlers].
  rewrite (handlers_length _ Hhs). cbn [negb].
  rewrite start_workers_core.
  - reflexivity.
  - unfold keeps_going. cbn. now rewrite (handlers_length _ Hhs).
Qed.

Lemma width_nonzero (p : pool) : width p <> 0.
Proof.
  unfold width, or_else.
  destruct (_width p) as [a|]; [destruct (Z.eqb_spec a 0); [| assumption] |];
    (destruct (config_width p) as [b|]; [destruct (Z.eqb_spec b 0); [lia | assumption] | lia]).
Qed.

(** X9.  [start] on a queue that has a handler and was not processing sets
    the flag and starts one worker for each of the slots 0, ...,
    [width - 1], in that order: each one logs that it is waiting and sends
    a reservation with a timeout of 30 seconds on the reserve session of
    its slot, which is then stored in the slot.  The width is [_width],
    else [config.width], else 1, and is never 0. *)
Theorem start_starts_one_worker_per_slot (p : pool) :
  _processing (queue (core p)) = false ->
  _handlers (queue (core p)) <> [] ->
  let w := core p in
  let w' := core (start p) in
  let n := Z.to_nat (width p) in
  _processing (queue w') = true
  /\ trace w'
     = trace w
       ++ concat (map (fun i =>
                         [notify debug [JStr "Waiting for jobs on queue %s";
                                        JStr (name (queue w))];
                          request (Session.id (reserve_session w i))
                            ("reserve_with_timeout", [JNum 30])])
                    (seq 0 n))
  /\ (forall i, (i < n)%nat ->
                mjoin (_reserveSessions (queue w') !! i) = Some (reserve_session w i))
  /\ _handlers (queue w') = _handlers (queue w)
  /\ future w' = future w
  /\ width (start p) = width p
  /\ width p = or_else (_width p) (or_else (config_width p) 1)
  /\ width p <> 0.
Proof.
  intros Hp Hhs w w' n. subst w'. rewrite (start_core p Hp Hhs).
  split; [reflexivity |]. split; [reflexivity |].
  split; [| split; [reflexivity | split; [reflexivity |]]].
  - intros i Hi. cbn [queue started _reserveSessions with_slots].
    rewrite fill_slots_lookup by lia. reflexivity.
  - split; [| split; [reflexivity | apply width_nonzero]].
    unfold start. rewrite Hp. cbn [core with_core].
    now destruct (negb _).
Qed.

Lemma start_sets_processing (p : pool) : _processing (queue (core (start p))) = true.
Proof.
  destruct (_processing (queue (core p))) eqn:Hp.
  - unfold start. now rewrite Hp.
  - destruct (_handlers (queue (core p))) as [|h hs] eqn:Hhs.
    + unfold start. rewrite Hp. cbn [core with_core].
      cbn [set_processing queue with_queue _handlers]. now rewrite Hhs.
    + rewrite start_core; [reflexivity | exact Hp | congruence].
Qed.

(** X10.  [start] is idempotent: on a queue that is processing it does
    nothing, so a second call starts no second set of workers. *)
Theorem start_is_idempotent (p : pool) : start (start p) = start p.
Proof.
  unfold start at 1. now rewrite start_sets_processing.
Qed.

(** [each] with a function, up to the test that starts the workers. *)
Definition registered (h : handler) (wd : option Z) (p : pool) : pool :=
  let p := if truthy wd then with_width p wd else p in
  with_core p (push_handler (core p) h).

Lemma registered_core (h : handler) (wd : option Z) (p : pool) :
  core (registered h wd p) = push_handler (core p) h.
Proof. unfold registered. now destruct (truthy wd). Qed.

Lemma each_Some (h : handler) (wd : option Z) (p : pool) :
  each (Some h) wd p
  = inr (if _processing (queue (core (registered h wd p)))
            && Nat.eqb (length (_handlers (queue (core (registered h wd p))))) 1
         then start_workers (registered h wd p)
         else registered h wd p).
Proof. reflexivity. Qed.

Lemma each_keeps_processing (handler : option handler) (wd : option Z) (p p' : pool) :
  each handler wd p = inr p' ->
  _processing (queue (core p')) = _processing (queue (core p)).
Proof.
  destruct handler as [h|]; [| discriminate]. rewrite each_Some.
  pose proof (registered_core h wd p) as Hcore.
  destruct (_processing (queue (core (registered h wd p)))
            && Nat.eqb (length (_handlers (queue (core (registered h wd p))))) 1)
    eqn:Htest; intros [= <-].
  - apply andb_true_iff in Htest as [Hp Hone].
    rewrite start_workers_core.
    + now rewrite Hcore.
    + unfold keeps_going. rewrite Hp.
      now destruct (length (_handlers (queue (core (registered h wd p))))).
  - now rewrite Hcore.
Qed.

(** X11.  [each] throws the assertion error on a handler that is not a
    function.  Otherwise it appends the handler and, when the width it is
    given is truthy, stores it.  On a queue that is processing and had no
    handler it then starts the workers, one for each slot of the new width;
    on a queue that is not processing, or that had a handler already, it
    sends nothing and fills no slot. *)
Theorem each_starts_workers_for_the_first_handler (h : handler) (wd : option Z)
    (p : pool) :
  let w := core p in
  let n := Z.to_nat (or_else (if truthy wd then wd else _width p)
                       (or_else (config_width p) 1)) in
  each None wd p = inl (AssertionError "Called each without a valid handler")
  /\ exists p',
       each (Some h) wd p = inr p'
       /\ _handlers (queue (core p')) = _handlers (queue w) ++ [h]
       /\ _processing (queue (core p')) = _processing (queue w)
       /\ _width p' = (if truthy wd then wd else _width p)
       /\ Z.to_nat (width p') = n
       /\ (_processing (queue w) = true ->
           _handlers (queue w) = [] ->
           trace (core p')
           = trace w
             ++ concat (map (fun i =>
                               [notify debug [JStr "Waiting for jobs on queue %s";
                                              JStr (name (queue w))];
                                request (Session.id (reserve_session w i))
                                  ("reserve_with_timeout", [JNum 30])])
                          (seq 0 n)))
       /\ (_processing (queue w) = false \/ _handlers (queue w) <> [] ->
           trace (core p') = trace w
           /\ _reserveSessions (queue (core p')) = _reserveSessions (queue w)).
Proof.
  intros w n. subst w. split; [reflexivity |].
  set (r := registered h wd p).
  assert (Hwidth : Z.to_nat (width r) = n).
  { unfold r, registered, width, n. now destruct (truthy wd). }
  assert (Hw : _width r = (if truthy wd then wd else _width p)).
  { unfold r, registered. now destruct (truthy wd). }
  pose proof (registered_core h wd p) as Hcore. fold r in Hcore.
  rewrite each_Some. fold r.
  destruct (_processing (queue (core r))
            && Nat.eqb (length (_handlers (queue (core r)))) 1) eqn:Htest.
  - apply andb_true_iff in Htest as [Hp Hone].
    assert (Hgo : keeps_going (queue (core r)) = true).
    { unfold keeps_going. rewrite Hp. now destruct (length (_handlers (queue (core r)))). }
    exists (start_workers r). split; [reflexivity |].
    rewrite (start_workers_core r Hgo), Hwidth.
    rewrite Hcore in Hp, Hone |- *.
    cbn [push_handler queue with_queue _handlers _processing] in Hp, Hone.
    split; [reflexivity |]. split; [reflexivity |].
    split; [exact Hw |]. split; [exact Hwidth |].
    split; [intros _ _; reflexivity |].
    intros [Hfalse | Hsome]; [congruence |].
    destruct (_handlers (queue (core p))) as [|h0 hs]; [congruence |].
    rewrite length_app in Hone. cbn in Hone. now destruct (length hs).
  - exists r. split; [reflexivity |]. rewrite Hcore in Htest |- *.
    cbn [push_handler queue with_queue _handlers _processing] in Htest.
    split; [reflexivity |]. split; [reflexivity |].
    split; [exact Hw |]. split; [exact Hwidth |].
    split; [| intros _; split; reflexivity].
    intros Hp Hhs. rewrite Hp, Hhs in Htest. discriminate.
Qed.

(** X12.  [stop] after [start]: the flag is cleared, the reserve session of
    every slot that [start] filled is ended, in the order of the slots, and
    the array of reserve sessions is emptied; the put session is not
    touched, and nothing is sent. *)
Theorem stop_ends_the_started_workers (p : pool) :
  _processing (queue (core p)) = false ->
  _handlers (queue (core p)) <> [] ->
  _reserveSessions (queue (core p)) = [] ->
  let w := core p in
  let w' := core (stop (start p)) in
  let n := Z.to_nat (width p) in
  _processing (queue w') = false
  /\ _reserveSessions (queue w') = []
  /\ ended w'
     = ended w ++ map (fun i => name (queue w) +:+ "/" +:+ nat_to_string i) (seq 0 n)
  /\ _putSession (queue w') = _putSession (queue w)
  /\ _handlers (queue w') = _handlers (queue w)
  /\ trace w' = trace (core (start p)).
Proof.
  intros Hp Hhs Hslots w w' n. subst w w'.
  unfold stop. cbn [core with_core]. rewrite (start_core p Hp Hhs).
  unfold Queue.stop. cbn [queue started _reserveSessions with_slots].
  rewrite Hslots.
  assert (Hfill : fill_slots (queue (core p)) [] 0 (Z.to_nat (width p))
                  = map Some (map (fresh (queue (core p))) (seq 0 (Z.to_nat (width p))))).
  { rewrite map_map. exact (fill_slots_end (queue (core p)) (Z.to_nat (width p)) []). }
  rewrite Hfill, end_sessions_all. cbn. rewrite map_map.
  repeat split; reflexivity.
Qed.

End WithJSON.

(** A queue with two handlers on a server configured for two workers. *)
Definition a_pool : pool :=
  {| core := world_of two_handlers []; _width := None; config_width := Some 2 |}.

Definition waiting_for_mail : effect :=
  notify debug [JStr "Waiting for jobs on queue %s"; JStr "mail"].

Lemma start_starts_one_worker_per_slot_witness :
  trace (core (start (J := CompactJSON.json) a_pool))
  = [waiting_for_mail;
     request "mail/0" ("reserve_with_timeout", [JNum 30]);
     waiting_for_mail;
     request "mail/1" ("reserve_with_timeout", [JNum 30])].
Proof.
  destruct (start_starts_one_worker_per_slot (J := CompactJSON.json) a_pool
              eq_refl ltac:(discriminate)) as (_ & Htrace & _).
  exact Htrace.
Defined.

(** A queue that was started before any handler was registered. *)
Definition started_without_handlers : Queue :=
  {| name := "mail"; _prefixedName := "test-mail"; _authenticate := None;
     _processing := true; _handlers := []; _putSession := None;
     _reserveSessions := [] |}.

Definition a_started_pool : pool :=
  {| core := world_of started_without_handlers [];
     _width := None; config_width := Some 2 |}.

Definition an_idle_pool : pool :=
  {| core := world_of no_handlers []; _width := None; config_width := None |}.

Lemma each_starts_workers_for_the_first_handler_witness :
  (exists p',
      each (J := CompactJSON.json) (Some 5%nat) (Some 1) a_started_pool = inr p'
      /\ trace (core p')
         = [waiting_for_mail; request "mail/0" ("reserve_with_timeout", [JNum 30])]
      /\ _width p' = Some 1)
  /\ (exists p',
        each (J := CompactJSON.json) (Some 5%nat) (Some 0) an_idle_pool = inr p'
        /\ trace (core p') = []
        /\ _width p' = None)
  /\ each (J := CompactJSON.json) None (Some 1) an_idle_pool
     = inl (AssertionError "Called each without a valid handler").
Proof.
  destruct (each_starts_workers_for_the_first_handler (J := CompactJSON.json)
              5%nat (Some 1) a_started_pool)
    as (_ & p1 & Heach1 & _ & _ & Hw1 & _ & Hstarts & _).
  destruct (each_starts_workers_for_the_first_handler (J := CompactJSON.json)
              5%nat (Some 0) an_idle_pool)
    as (_ & p2 & Heach2 & _ & _ & Hw2 & _ & _ & Hquiet).
  split; [| split].
  - exists p1. split; [exact Heach1 |].
    split; [exact (Hstarts eq_refl eq_refl) | exact Hw1].
  - exists p2. split; [exact Heach2 |].
    split; [exact (proj1 (Hquiet (or_introl eq_refl))) | exact Hw2].
  - exact (proj1 (each_starts_workers_for_the_first_handler (J := CompactJSON.json)
                    5%nat (Some 1) an_idle_pool)).
Defined.

Lemma stop_ends_the_started_workers_witness :
  ended (core (stop (start (J := CompactJSON.json) a_pool))) = ["mail/0"; "mail/1"]
  /\ _reserveSessions (queue (core (stop (start (J := CompactJSON.json) a_pool)))) = [].
Proof.
  destruct (stop_ends_the_started_workers (J := CompactJSON.json) a_pool
              eq_refl ltac:(discriminate) eq_refl) as (_ & Hslots & Hended & _).
  split; [exact Hended | exact Hslots].
Defined.

End PoolFacts.

(** ** The session: what goes over a connection, and when it is dropped *)

Module ConnectionFacts.

Import Session SessionFacts.

Section WithConfig.

Context (cfg : config).

Definition authentication (token : string) : command :=
  ("put", [JNum 0; JNum 0; JNum 0; JStr token]).

(** What [connect] writes to a client: the authentication when there is a
    credential, then the commands of the setup. *)
Definition handshake : list command :=
  match credential cfg with
  | Some token => [authentication token]
  | None => []
  end ++ setup cfg.

(** What was written to a client, by where its [connect] is. *)
Definition sent_ok (cl : client) : Prop :=
  match pc cl with
  | awaiting_connect => sent cl = []
  | awaiting_authenticate => sent cl ++ setup cfg = handshake
  | awaiting_setup _ rest => sent cl ++ rest = handshake
  | returned => exists more, sent cl = handshake ++ more
  | failed => exists rest, sent cl ++ rest = handshake
  end.

Definition wire_ok (w : world) : Prop :=
  forall c cl, clients w !! c = Some cl -> sent_ok cl.

Lemma wire_update_client (w : world) (c : handle) (f : client -> client) :
  wire_ok w ->
  (forall cl, clients w !! c = Some cl -> sent_ok cl -> sent_ok (f cl)) ->
  wire_ok (update_client w c f).
Proof.
  intros Hw Hf c' cl'. cbn. destruct (decide (c = c')) as [<-|Hne].
  - rewrite list_lookup_alter_eq.
    destruct (clients w !! c) as [cl|] eqn:E; [| discriminate].
    cbn. intros [= <-]. apply Hf; [reflexivity | now apply (Hw c)].
  - rewrite list_lookup_alter_ne by assumption. apply Hw.
Qed.

Lemma wire_same (w w' : world) : clients w' = clients w -> wire_ok w -> wire_ok w'.
Proof. intros Heq Hw c cl. rewrite Heq. apply Hw. Qed.

Lemma wire_connect_returns (w : world) (r : nat) (c : handle) :
  wire_ok w ->
  (forall cl, clients w !! c = Some cl -> pc cl = returned) ->
  wire_ok (connect_returns r c w).
Proof.
  intros Hw Hret. unfold connect_returns.
  destruct (requests w !! r) as [rq|]; [| exact Hw].
  apply wire_update_client; [exact Hw |].
  intros cl Hcl Hok. unfold sent_ok in *. cbn [pc client_send sent].
  rewrite (Hret cl Hcl) in *. destruct Hok as [more Hmore].
  exists (more ++ [asked rq]). now rewrite Hmore, app_assoc.
Qed.

Lemma wire_connect_catch (w : world) (c : handle) (e : error) :
  wire_ok w ->
  (forall cl, clients w !! c = Some cl -> pc cl <> returned) ->
  wire_ok (connect_catch c e w).
Proof.
  intros Hw Hpc. unfold connect_catch.
  destruct (clients w !! c) as [cl0|] eqn:E; [| exact Hw].
  unfold connect_throws.
  apply (wire_same (update_client w c (fun cl => client_at failed (client_end cl))));
    [reflexivity |].
  apply wire_update_client; [exact Hw |].
  intros cl Hcl Hok. rewrite E in Hcl. specialize (Hpc cl Hcl).
  unfold sent_ok in *. cbn [pc client_at client_end sent].
  destruct (pc cl) as [| |k rest| |]; try congruence; try (eexists; exact Hok).
  exists handshake. now rewrite Hok.
Qed.

Lemma wire_connect_finish (w : world) (c : handle) :
  wire_ok w ->
  (forall cl, clients w !! c = Some cl -> sent cl = handshake) ->
  wire_ok (connect_finish c w).
Proof.
  intros Hw Hall. unfold connect_finish.
  destruct (clients w !! c) as [cl0|] eqn:E; [| exact Hw].
  apply wire_connect_returns.
  - apply (wire_update_client (with_client w (Some c))); [exact Hw |].
    intros cl Hcl _. unfold sent_ok. cbn [pc client_at sent].
    cbn in Hcl. rewrite E in Hcl.
    exists []. rewrite app_nil_r. apply Hall. exact Hcl.
  - intros cl. cbn. rewrite list_lookup_alter_eq, E. cbn. now intros [= <-].
Qed.

Lemma wire_run_setup (w : world) (c : handle) (ks : list command) :
  wire_ok w ->
  (forall cl, clients w !! c = Some cl -> sent cl ++ ks = handshake) ->
  wire_ok (run_setup c ks w).
Proof.
  intros Hw Hall. destruct ks as [|k rest]; cbn [run_setup].
  - apply wire_connect_finish; [exact Hw |].
    intros cl Hcl. rewrite <- (Hall cl Hcl). now rewrite app_nil_r.
  - apply wire_update_client; [exact Hw |].
    intros cl Hcl _. unfold sent_ok. cbn [pc client_at client_send sent].
    rewrite <- app_assoc. exact (Hall cl Hcl).
Qed.

Lemma sent_ok_same (cl cl' : client) :
  pc cl' = pc cl -> sent cl' = sent cl -> sent_ok cl -> sent_ok cl'.
Proof. unfold sent_ok. now intros -> ->. Qed.

Lemma wire_request (w : world) (r : nat) (k : command) (throws : option error) :
  invariant cfg w -> wire_ok w -> wire_ok (request r k throws w).
Proof.
  intros Hinv Hw. unfold request.
  destruct (requests w !! r) as [rq|]; [exact Hw |].
  unfold connect. cbn [_client with_requests].
  destruct (_client w) as [c|] eqn:Hst.
  - apply wire_connect_returns; [exact Hw |].
    intros cl Hcl. destruct (inv_stored cfg w Hinv c Hst) as (cl' & Hcl' & Hret).
    cbn in Hcl. congruence.
  - match goal with
    | |- wire_ok match throws with Some e => connect_catch ?c e ?w0 | None => _ end =>
        assert (Hnew : wire_ok w0)
    end.
    { intros c cl Hcl. cbn in Hcl.
      apply lookup_snoc_Some in Hcl as [[_ Hcl]|[_ <-]]; [now apply (Hw c) | reflexivity]. }
    destruct throws as [e|]; [| exact Hnew].
    apply wire_connect_catch; [exact Hnew |].
    intros cl Hcl. cbn in Hcl.
    apply lookup_snoc_Some in Hcl as [[Hlt _]|[_ <-]]; [lia | discriminate].
Qed.

Lemma wire_step (ev : event) (w : world) :
  invariant cfg w -> wire_ok w -> wire_ok (step cfg ev w).
Proof.
  intros Hinv Hw. destruct ev as [r k throws| |c|c e|c|c err|r err results]; cbn [step].
  - now apply wire_request.
  - unfold end_. destruct (_client w) as [c|]; [| exact Hw].
    apply (wire_same (update_client w c client_end)); [reflexivity |].
    apply wire_update_client; [exact Hw |]. intros cl _. now apply sent_ok_same.
  - destruct (clients w !! c) as [cl|] eqn:Hcl; [| exact Hw].
    destruct (pc cl) eqn:Hpc; try exact Hw.
    pose proof (Hw c cl Hcl) as Hok. unfold sent_ok in Hok. rewrite Hpc in Hok.
    assert (H1 : wire_ok (update_client w c client_connected)).
    { apply wire_update_client; [exact Hw |]. intros cl' _. now apply sent_ok_same. }
    unfold after_connect. destruct (credential cfg) as [token|] eqn:Hcred.
    + apply wire_update_client; [exact H1 |].
      intros cl' Hcl' _. cbn in Hcl'. rewrite list_lookup_alter_eq, Hcl in Hcl'.
      injection Hcl' as <-. unfold sent_ok, handshake.
      cbn [pc client_at client_send client_connected sent]. now rewrite Hok, Hcred.
    + apply wire_run_setup; [exact H1 |].
      intros cl' Hcl'. cbn in Hcl'. rewrite list_lookup_alter_eq, Hcl in Hcl'.
      injection Hcl' as <-. unfold handshake. cbn [client_connected sent].
      now rewrite Hok, Hcred.
  - destruct (clients w !! c) as [cl|] eqn:Hcl; [| exact Hw].
    apply (wire_same
             (update_client
                (notify_debug (forget c w)
                   ("Client error in queue " +:+ id cfg +:+ ": " +:+ error_toString e))
                c client_end)); [reflexivity |].
    apply wire_update_client.
    + apply (wire_same w); [| exact Hw]. unfold forget.
      destruct (_client w) as [current|]; [destruct (Nat.eqb current c) |]; reflexivity.
    + intros cl' _. now apply sent_ok_same.
  - destruct (clients w !! c) as [cl|] eqn:Hcl; [| exact Hw].
    apply (wire_same w); [| exact Hw]. unfold forget.
    destruct (_client w) as [current|]; [destruct (Nat.eqb current c) |]; reflexivity.
  - destruct (clients w !! c) as [cl|] eqn:Hcl; [| exact Hw].
    pose proof (Hw c cl Hcl) as Hok. unfold sent_ok in Hok.
    destruct (pc cl) eqn:Hpc; destruct (thrown_into err) as [e|]; try exact Hw.
    + apply wire_connect_catch; [exact Hw |]. intros cl' Hcl'. congruence.
    + apply wire_run_setup.
      * apply wire_update_client; [exact Hw |]. intros cl' _. now apply sent_ok_same.
      * intros cl' Hcl'. cbn in Hcl'. rewrite list_lookup_alter_eq, Hcl in Hcl'.
        injection Hcl' as <-. exact Hok.
    + apply wire_connect_catch; [exact Hw |]. intros cl' Hcl'. congruence.
    + apply wire_run_setup.
      * apply wire_update_client; [exact Hw |]. intros cl' _. now apply sent_ok_same.
      * intros cl' Hcl'. cbn in Hcl'. rewrite list_lookup_alter_eq, Hcl in Hcl'.
        injection Hcl' as <-. exact Hok.
  - destruct (requests w !! r) as [rq|]; [| exact Hw].
    destruct (at_stage rq); exact Hw.
Qed.

Lemma wire_run (evs : list event) : wire_ok (run cfg evs init).
Proof.
  induction evs as [|ev evs IH] using rev_ind.
  - intros c cl H. discriminate.
  - rewrite run_snoc. apply wire_step; [apply inv_run | exact IH].
Qed.

(** X13.  In every world the session can come to, what has been written to
    a client begins with the handshake, in order: the authentication [put]
    when a credential is configured, then the commands of the setup.  While
    [connect] has not returned the client, only a part of the handshake has
    been written; the commands of requests come after the whole of it. *)
Theorem commands_follow_the_handshake (evs : list event) (c : handle) (cl : client) :
  clients (run cfg evs init) !! c = Some cl ->
  (pc cl <> returned -> exists rest, sent cl ++ rest = handshake)
  /\ (pc cl = returned -> exists more, sent cl = handshake ++ more).
Proof.
  intros Hcl. pose proof (wire_run evs c cl Hcl) as Hok. unfold sent_ok in Hok.
  destruct (pc cl) as [| |k rest| |]; split; intros H; try congruence;
    try exact Hok; try (eexists; exact Hok).
  exists handshake. now rewrite Hok.
Qed.

(** A request that is still inside [connect] has a pending promise. *)
Definition pending_inside (w : world) : Prop :=
  forall r rq, requests w !! r = Some rq -> at_stage rq = connecting -> promise rq = None.

(** A change of a request that leaves the ones inside [connect] alone. *)
Definition gentle (f : request_state -> request_state) : Prop :=
  forall rq, at_stage (f rq) = connecting -> f rq = rq.

Lemma gentle_at (st : stage) (g : request_state -> request_state) :
  st <> connecting -> gentle (fun rq => at_ st (g rq)).
Proof. intros Hst rq H. cbn in H. congruence. Qed.

Lemma gentle_onError (c : handle) (e : error) : gentle (onError_fires c e).
Proof.
  intros rq. unfold onError_fires.
  destruct (at_stage rq) as [|c' a [|]|] eqn:E; try reflexivity.
  destruct (Nat.eqb c' c); [discriminate | reflexivity].
Qed.

Lemma gentle_onClose (c : handle) : gentle (onClose_fires c).
Proof.
  intros rq. unfold onClose_fires.
  destruct (at_stage rq) as [|c' [|] a|] eqn:E; try reflexivity.
  destruct (Nat.eqb c' c); [discriminate | reflexivity].
Qed.

Lemma pending_same (w w' : world) :
  requests w' = requests w -> pending_inside w -> pending_inside w'.
Proof. intros Heq H r rq. rewrite Heq. apply H. Qed.

Lemma pending_update_request (w : world) (r : nat) (f : request_state -> request_state) :
  gentle f -> pending_inside w -> pending_inside (update_request w r f).
Proof.
  intros Hf H r' rq'. cbn. destruct (decide (r = r')) as [<-|Hne].
  - rewrite lookup_alter_eq.
    destruct (requests w !! r) as [rq|] eqn:E; [| discriminate].
    cbn. intros [= <-] Hst. pose proof (Hf rq Hst) as Heq.
    rewrite Heq in Hst |- *. exact (H r rq E Hst).
  - rewrite lookup_alter_ne by assumption. apply H.
Qed.

Lemma pending_listeners (w : world) (f : request_state -> request_state) :
  gentle f -> pending_inside w -> pending_inside (with_requests w (f <$> requests w)).
Proof.
  intros Hf H r rq'. cbn. rewrite lookup_fmap.
  destruct (requests w !! r) as [rq|] eqn:E; [| discriminate].
  cbn. intros [= <-] Hst. pose proof (Hf rq Hst) as Heq.
  rewrite Heq in Hst |- *. exact (H r rq E Hst).
Qed.

Lemma pending_connect_returns (w : world) (r : nat) (c : handle) :
  pending_inside w -> pending_inside (connect_returns r c w).
Proof.
  intros H. unfold connect_returns. destruct (requests w !! r) as [rq|]; [| exact H].
  apply (pending_same (update_request w r (at_ (issued c true true)))); [reflexivity |].
  apply pending_update_request; [| exact H].
  apply (gentle_at (issued c true true) (fun rq => rq)). discriminate.
Qed.

Lemma pending_connect_catch (w : world) (c : handle) (e : error) :
  pending_inside w -> pending_inside (connect_catch c e w).
Proof.
  intros H. unfold connect_catch. destruct (clients w !! c) as [cl|]; [| exact H].
  unfold connect_throws. apply pending_update_request.
  - apply (gentle_at finished). discriminate.
  - apply (pending_same w); [reflexivity | exact H].
Qed.

Lemma pending_run_setup (w : world) (c : handle) (ks : list command) :
  pending_inside w -> pending_inside (run_setup c ks w).
Proof.
  intros H. destruct ks as [|k rest]; cbn [run_setup].
  - unfold connect_finish. destruct (clients w !! c) as [cl|]; [| exact H].
    apply pending_connect_returns. apply (pending_same w); [reflexivity | exact H].
  - apply (pending_same w); [reflexivity | exact H].
Qed.

Lemma pending_step (ev : event) (w : world) :
  pending_inside w -> pending_inside (step cfg ev w).
Proof.
  intros H. destruct ev as [r k throws| |c|c e|c|c err|r err results]; cbn [step].
  - unfold request. destruct (requests w !! r) as [rq|] eqn:Hreq; [exact H |].
    match goal with
    | |- pending_inside (connect r throws ?w0) => assert (H0 : pending_inside w0)
    end.
    { intros r' rq'. cbn. destruct (decide (r = r')) as [<-|Hne].
      - rewrite lookup_insert_eq. now intros [= <-].
      - rewrite lookup_insert_ne by assumption. apply H. }
    unfold connect. cbn [_client with_requests].
    destruct (_client w) as [c|]; [now apply pending_connect_returns |].
    destruct throws as [e|].
    + apply pending_connect_catch. eapply pending_same; [| exact H0]. reflexivity.
    + eapply pending_same; [| exact H0]. reflexivity.
  - unfold end_. destruct (_client w); (apply (pending_same w); [reflexivity | exact H]).
  - destruct (clients w !! c) as [cl|]; [| exact H].
    destruct (pc cl); try exact H.
    unfold after_connect. destruct (credential cfg).
    + apply (pending_same w); [reflexivity | exact H].
    + apply pending_run_setup. apply (pending_same w); [reflexivity | exact H].
  - destruct (clients w !! c) as [cl|]; [| exact H].
    apply (pending_same (with_requests w (onError_fires c e <$> requests w))).
    + cbn. unfold forget.
      destruct (_client w) as [current|]; [destruct (Nat.eqb current c) |]; reflexivity.
    + apply pending_listeners; [apply gentle_onError | exact H].
  - destruct (clients w !! c) as [cl|]; [| exact H].
    apply (pending_same (with_requests w (onClose_fires c <$> requests w))).
    + cbn. unfold forget.
      destruct (_client w) as [current|]; [destruct (Nat.eqb current c) |]; reflexivity.
    + apply pending_listeners; [apply gentle_onClose | exact H].
  - destruct (clients w !! c) as [cl|]; [| exact H].
    destruct (pc cl); destruct (thrown_into err) as [e|]; try exact H;
      try (now apply pending_connect_catch);
      (apply pending_run_setup; apply (pending_same w); [reflexivity | exact H]).
  - destruct (requests w !! r) as [rq|]; [| exact H].
    destruct (at_stage rq); try exact H.
    apply pending_update_request; [| exact H]. apply (gentle_at finished). discriminate.
Qed.

Lemma pending_run (evs : list event) : pending_inside (run cfg evs init).
Proof.
  induction evs as [|ev evs IH] using rev_ind.
  - intros r rq H. cbn in H. rewrite lookup_empty in H. discriminate.
  - rewrite run_snoc. now apply pending_step.
Qed.

(** An [error] or a [close] of a client. *)
Definition transport_failure (ev : event) : Prop :=
  match ev with
  | emit_error _ _ | emit_close _ => True
  | _ => False
  end.

Lemma failure_passes_by (ev : event) (w : world) (r : nat) (rq : request_state) :
  transport_failure ev ->
  requests w !! r = Some rq ->
  at_stage rq = connecting ->
  requests (step cfg ev w) !! r = Some rq.
Proof.
  intros Hev Hreq Hst.
  destruct ev as [r' k throws| |c|c e|c|c err|r' err results]; try destruct Hev;
    cbn [step]; (destruct (clients w !! c) as [cl|]; [| exact Hreq]).
  - cbn. unfold forget.
    assert (Heq : forall w0, requests w0 = requests w ->
              (onError_fires c e <$> requests w0) !! r = Some rq).
    { intros w0 ->. rewrite lookup_fmap, Hreq. cbn. f_equal.
      unfold onError_fires. now rewrite Hst. }
    destruct (_client w) as [current|]; [destruct (Nat.eqb current c) |];
      now apply Heq.
  - cbn. unfold forget.
    assert (Heq : forall w0, requests w0 = requests w ->
              (onClose_fires c <$> requests w0) !! r = Some rq).
    { intros w0 ->. rewrite lookup_fmap, Hreq. cbn. f_equal.
      unfold onClose_fires. now rewrite Hst. }
    destruct (_client w) as [current|]; [destruct (Nat.eqb current c) |];
      now apply Heq.
Qed.

(** X14.  A request is settled by the [error] and [close] of a client only
    once its command is out.  While it is inside [connect], waiting for the
    connection or the handshake, its promise is pending and no number of
    errors and closes, of its client or of another, settles it: if the
    [connect] event or the handshake callback never comes, it stays
    pending. *)
Theorem connecting_request_outlives_failures (evs fails : list event) (r : nat) :
  let w := run cfg evs init in
  let w' := run cfg fails w in
  stage_of w r = Some connecting ->
  Forall transport_failure fails ->
  promise_of w r = None
  /\ stage_of w' r = Some connecting
  /\ promise_of w' r = None.
Proof.
  intros w w' Hstage Hfails. unfold stage_of in Hstage.
  destruct (requests w !! r) as [rq|] eqn:Hreq; [| discriminate].
  injection Hstage as Hst.
  pose proof (pending_run evs r rq Hreq Hst) as Hpending.
  assert (Hsame : requests w' !! r = Some rq).
  { subst w'. clear Hpending. revert Hreq. generalize w.
    induction Hfails as [|ev fails Hev _ IH]; intros w0 Hreq; [exact Hreq |].
    cbn. apply IH. now apply failure_passes_by. }
  unfold promise_of, stage_of. rewrite Hreq, Hsame. cbn. now rewrite Hst.
Qed.

(** [request] while no handle is stored and [client.connect()] does not
    throw. *)
Lemma request_cold (w : world) (r : nat) (k : command) :
  requests w !! r = None ->
  _client w = None ->
  clients (request r k None w) = clients w ++ [new_client r]
  /\ stage_of (request r k None w) r = Some connecting
  /\ _client (request r k None w) = None.
Proof.
  intros Hfree Hst. unfold request, connect. rewrite Hfree.
  cbn [_client with_requests]. rewrite Hst. cbn.
  split; [reflexivity |]. split; [| exact Hst].
  unfold stage_of. cbn. now rewrite lookup_insert_eq.
Qed.

(** X15.  [end] ends the stored client and forgets it; it settles no
    request by itself.  The next request then constructs a new client and
    goes through [connect] on it, and nothing more is written to the old
    one.  Without a stored client [end] changes no client. *)
Theorem end_drops_the_connection (evs : list event) (c : handle) :
  let w := run cfg evs init in
  _client w = Some c ->
  _client (end_ w) = None
  /\ (ended <$> clients (end_ w) !! c) = Some true
  /\ requests (end_ w) = requests w
  /\ (forall r k,
        requests w !! r = None ->
        let w' := request r k None (end_ w) in
        clients w' = clients (end_ w) ++ [new_client r]
        /\ stage_of w' r = Some connecting
        /\ (sent <$> clients w' !! c) = (sent <$> clients w !! c))
  /\ end_ (end_ w) = end_ w.
Proof.
  intros w Hst.
  destruct (inv_stored cfg w (inv_run cfg evs) c Hst) as (cl & Hcl & _).
  assert (Hend : end_ w = with_client (update_client w c client_end) None).
  { unfold end_. now rewrite Hst. }
  rewrite Hend. split; [reflexivity |].
  split; [cbn; now rewrite list_lookup_alter_eq, Hcl |].
  split; [reflexivity |]. split; [| reflexivity].
  intros r k Hfree w'. subst w'.
  destruct (request_cold (with_client (update_client w c client_end) None) r k)
    as (Hclients & Hstage & _); [exact Hfree | reflexivity |].
  rewrite Hclients. split; [reflexivity |]. split; [exact Hstage |].
  cbn. rewrite lookup_app_l.
  - rewrite list_lookup_alter_eq, Hcl. reflexivity.
  - rewrite length_alter. eapply lookup_lt_Some. exact Hcl.
Qed.

(** X16.  When the stored client emits [error] or [close], the session
    forgets it, logs a line, and on an error ends the client; the next
    request then opens a new client.  The same events of any other client
    leave the stored client in place. *)
Theorem failed_connection_is_forgotten (evs : list event) (c : handle) :
  let w := run cfg evs init in
  _client w = Some c ->
  (forall e,
      let w' := step cfg (emit_error c e) w in
      _client w' = None
      /\ (ended <$> clients w' !! c) = Some true
      /\ debug w'
         = debug w ++ ["Client error in queue " +:+ id cfg +:+ ": " +:+ error_toString e]
      /\ forall r k,
           requests w !! r = None ->
           clients (request r k None w') = clients w' ++ [new_client r]
           /\ stage_of (request r k None w') r = Some connecting)
  /\ (let w' := step cfg (emit_close c) w in
      _client w' = None
      /\ clients w' = clients w
      /\ debug w' = debug w ++ ["Connection closed for " +:+ id cfg]
      /\ forall r k,
           requests w !! r = None ->
           clients (request r k None w') = clients w' ++ [new_client r]
           /\ stage_of (request r k None w') r = Some connecting)
  /\ (forall c' e,
        c' <> c ->
        _client (step cfg (emit_error c' e) w) = Some c
        /\ _client (step cfg (emit_close c') w) = Some c).
Proof.
  intros w Hst.
  destruct (inv_stored cfg w (inv_run cfg evs) c Hst) as (cl & Hcl & _).
  assert (Hforget : forget c w = with_client w None).
  { unfold forget. now rewrite Hst, Nat.eqb_refl. }
  split; [| split].
  - intros e w'. subst w'. cbn [step]. rewrite Hcl, Hforget.
    split; [reflexivity |]. split; [cbn; now rewrite list_lookup_alter_eq, Hcl |].
    split; [reflexivity |]. intros r k Hfree.
    match goal with
    | |- context [request r k None ?w0] =>
        destruct (request_cold w0 r k) as (Hclients & Hstage & _)
    end.
    + cbn. now rewrite lookup_fmap, Hfree.
    + reflexivity.
    + now split.
  - intros w'. subst w'. cbn [step]. rewrite Hcl, Hforget.
    split; [reflexivity |]. split; [reflexivity |]. split; [reflexivity |].
    intros r k Hfree.
    match goal with
    | |- context [request r k None ?w0] =>
        destruct (request_cold w0 r k) as (Hclients & Hstage & _)
    end.
    + cbn. now rewrite lookup_fmap, Hfree.
    + reflexivity.
    + now split.
  - intros c' e Hne.
    assert (Hkeep : forget c' w = w).
    { unfold forget. rewrite Hst.
      destruct (Nat.eqb_spec c c') as [->|_]; [contradiction | reflexivity]. }
    cbn [step]. destruct (clients w !! c') as [cl'|]; [| now split].
    rewrite Hkeep. split; exact Hst.
Qed.

(** X17.  When the command of a request in flight calls back without an
    error, the promise is resolved with the one result, with the array of
    the results when there are several, and with [undefined] when there is
    none; the request is finished, and nothing that happens later changes
    what it was resolved with. *)
Theorem request_resolves_with_the_results (evs : list event) (r : nat) (c : handle)
    (results : list jsval) :
  let w := run cfg evs init in
  let w' := step cfg (command_callback r None results) w in
  in_flight w r c ->
  promise_of w' r
  = Some (Resolved match results with
                   | [] => JUndefined
                   | [v] => v
                   | _ :: _ :: _ => JArr results
                   end)
  /\ stage_of w' r = Some finished
  /\ forall later, promise_of (run cfg later w') r = promise_of w' r.
Proof.
  intros w w' (rq & onClose & onError & Hreq & Hstage & Hpending).
  assert (Hpromise : promise_of w' r = Some (callback_settles None results)).
  { subst w'. cbn [step]. rewrite Hreq, Hstage. unfold promise_of. cbn.
    rewrite lookup_alter_eq, Hreq. cbn. now rewrite Hpending. }
  split; [| split].
  - rewrite Hpromise. unfold callback_settles.
    now destruct results as [|v [|v' more]].
  - subst w'. cbn [step]. rewrite Hreq, Hstage. unfold stage_of. cbn.
    now rewrite lookup_alter_eq, Hreq.
  - intros later. rewrite Hpromise. now apply (ks_run cfg later w').
Qed.

End WithConfig.

(** The client of [warm_up], after its handshake and the request. *)
Definition a_warm_client : client :=
  {| owner := 0; pc := returned; connected := true; authenticated := true;
     set_up := [("use", [JStr "test-mail"])]; ended := false;
     sent := [("put", [JNum 0; JNum 0; JNum 0; JStr "token"]);
              ("use", [JStr "test-mail"]); reserve_30] |}.

Lemma commands_follow_the_handshake_witness :
  clients (run put_config warm_up init) !! 0%nat = Some a_warm_client
  /\ handshake put_config
     = [("put", [JNum 0; JNum 0; JNum 0; JStr "token"]); ("use", [JStr "test-mail"])]
  /\ exists more, sent a_warm_client = handshake put_config ++ more.
Proof.
  split; [reflexivity |]. split; [reflexivity |].
  exact (proj2 (commands_follow_the_handshake put_config warm_up 0%nat a_warm_client
                  eq_refl) eq_refl).
Defined.

(** The connection is refused while the request waits for it. *)
Definition refused : list event :=
  [emit_error 0 (Error "connect ECONNREFUSED"); emit_close 0].

Lemma connecting_request_outlives_failures_witness :
  promise_of (run put_config refused
                (run put_config [call_request 0 reserve_30 None] init)) 0 = None.
Proof.
  refine (proj2 (proj2 (connecting_request_outlives_failures put_config
                          [call_request 0 reserve_30 None] refused 0 eq_refl _))).
  repeat constructor.
Defined.

Lemma end_drops_the_connection_witness :
  _client (end_ (run put_config warm_up init)) = None
  /\ (ended <$> clients (end_ (run put_config warm_up init)) !! 0%nat) = Some true.
Proof.
  destruct (end_drops_the_connection put_config warm_up 0%nat eq_refl)
    as (Hnone & Hended & _).
  split; [exact Hnone | exact Hended].
Defined.

Lemma failed_connection_is_forgotten_witness :
  _client (step put_config (emit_close 0) (run put_config warm_up init)) = None
  /\ debug (step put_config (emit_close 0) (run put_config warm_up init))
     = ["Connection closed for mail/put"].
Proof.
  destruct (failed_connection_is_forgotten put_config warm_up 0%nat eq_refl)
    as (_ & (Hnone & _ & Hdebug & _) & _).
  split; [exact Hnone | exact Hdebug].
Defined.

Lemma request_resolves_with_the_results_witness :
  promise_of
    (step put_config (command_callback 0 None [JStr "7"; JBuffer "hello"])
       (run put_config warm_up init)) 0
  = Some (Resolved (JArr [JStr "7"; JBuffer "hello"])).
Proof.
  refine (proj1 (request_resolves_with_the_results put_config warm_up 0 0%nat
                   [JStr "7"; JBuffer "hello"] _)).
  exists {| asked := reserve_30; at_stage := issued 0 true true; promise := None |},
    true, true.
  repeat split.
Defined.

End ConnectionFacts.

(** ** Server: the queues by name *)

Module Server.

Import Queue.

(** [server.config], as far as the queues read it, and the environment of
    the process. *)
Record settings : Type := {
  prefixedName : string -> string;
  authenticate : option string;
  width : option Z;
  env : option string
}.

(** The server: [started], the own properties of [_queues] in the order of
    their creation, and the lines of [notify.debug].  Every queue keeps
    what it did in its own trace. *)
Record server : Type := {
  started : bool;
  _queues : list (string * Pool.pool);
  notified : list string
}.

(** The constructor. *)
Definition new_Server : server :=
  {| started := false; _queues := []; notified := [] |}.

(** What [this._queues[name]] gives: a queue, a property found on the
    prototype chain of [Object.create({})], or [undefined]. *)
Inductive property : Type :=
| a_queue (p : Pool.pool)
| inherited
| undefined.

Fixpoint own (qs : list (string * Pool.pool)) (name : string) : option Pool.pool :=
  match qs with
  | [] => None
  | (n, p) :: rest => if String.eqb n name then Some p else own rest name
  end.

(** The queue of an own property is replaced by what a method made of
    it. *)
Fixpoint update (qs : list (string * Pool.pool)) (name : string)
    (f : Pool.pool -> Pool.pool) : list (string * Pool.pool) :=
  match qs with
  | [] => []
  | (n, p) :: rest =>
      if String.eqb n name then (n, f p) :: rest else (n, p) :: update rest name f
  end.

Section WithSettings.

Context {J : JSON}.
Context (config : settings).

(** The names that the prototype chain of [_queues] resolves. *)
Context (on_prototype : string -> bool).

(** The constructor of [Queue]. *)
Definition new_Queue (name : string) : Pool.pool :=
  {| Pool.core :=
       {| queue := {| Queue.name := name;
                      _prefixedName := prefixedName config name;
                      _authenticate := authenticate config;
                      _processing := false;
                      _handlers := [];
                      _putSession := None;
                      _reserveSessions := [] |};
          NODE_ENV := env config; future := []; trace := []; ended := [] |};
     Pool._width := None;
     Pool.config_width := width config |}.

Definition get (s : server) (name : string) : property :=
  match own (_queues s) name with
  | Some p => a_queue p
  | None => if on_prototype name then inherited else undefined
  end.

(** [getQueue(name)], for a name that is a string. *)
Definition getQueue (name : string) (s : server) : error + (property * server) :=
  if String.eqb name EmptyString then inl (AssertionError "Missing queue name")
  else
    match get s name with
    | undefined =>
        let queue := new_Queue name in
        let queue := if started s then Pool.start queue else queue in
        inr (a_queue queue,
             {| started := started s;
                _queues := _queues s ++ [(name, queue)];
                notified := notified s |})
    | found => inr (found, s)
    end.

(** [start()]. *)
Definition start (s : server) : server :=
  {| started := true;
     _queues := map (fun entry => (fst entry, Pool.start (snd entry))) (_queues s);
     notified := notified s ++ ["Start all queues"] |}.

(** [stop()]. *)
Definition stop (s : server) : server :=
  {| started := false;
     _queues := map (fun entry => (fst entry, Pool.stop (snd entry))) (_queues s);
     notified := notified s ++ ["Stop all queues"] |}.

(** [getQueue(name).each(handler, width)] on a queue that exists; a call
    that throws leaves the queue as it was. *)
Definition each (name : string) (handler : option handler) (width : option Z)
    (s : server) : server :=
  {| started := started s;
     _queues := update (_queues s) name
                  (fun p => match Pool.each handler width p with
                            | inr p' => p'
                            | inl _ => p
                            end);
     notified := notified s |}.

(** A call of one of these methods. *)
Inductive call : Type :=
| call_getQueue (name : string)
| call_start
| call_stop
| call_each (name : string) (handler : option handler) (width : option Z).

Definition step (c : call) (s : server) : server :=
  match c with
  | call_getQueue name =>
      match getQueue name s with
      | inr (_, s') => s'
      | inl _ => s
      end
  | call_start => start s
  | call_stop => stop s
  | call_each name handler width => each name handler width s
  end.

Definition run (calls : list call) (s : server) : server :=
  fold_left (fun s c => step c s) calls s.

End WithSettings.

End Server.

Module ServerFacts.

Import Queue Pool PoolFacts Server.

Lemma own_snoc (qs : list (string * pool)) (n name : string) (p : pool) :
  own (qs ++ [(n, p)]) name
  = match own qs name with
    | Some q => Some q
    | None => if String.eqb n name then Some p else None
    end.
Proof.
  induction qs as [|[m q] qs IH]; cbn; [reflexivity |].
  destruct (String.eqb m name); [reflexivity | exact IH].
Qed.

Lemma own_map (qs : list (string * pool)) (f : pool -> pool) (name : string) :
  own (map (fun entry => (fst entry, f (snd entry))) qs) name = f <$> own qs name.
Proof.
  induction qs as [|[m q] qs IH]; cbn; [reflexivity |].
  destruct (String.eqb m name); [reflexivity | exact IH].
Qed.

Lemma own_update (qs : list (string * pool)) (n name : string) (f : pool -> pool) :
  own (update qs n f) name
  = if String.eqb n name then f <$> own qs name else own qs name.
Proof.
  induction qs as [|[m q] qs IH]; cbn; [now destruct (String.eqb n name) |].
  destruct (String.eqb_spec m n) as [->|Hmn]; cbn.
  - destruct (String.eqb_spec n name) as [->|Hne]; [reflexivity |]. reflexivity.
  - destruct (String.eqb_spec m name) as [->|Hm].
    + destruct (String.eqb_spec n name) as [->|_]; [contradiction | reflexivity].
    + exact IH.
Qed.

Section WithSettings.

Context {J : JSON}.
Context (config : settings).
Context (on_prototype : string -> bool).

(** X18.  [getQueue] creates the queue of a name on the first call and
    stores it under the name: afterwards [_queues] holds the queue that the
    call returned, and every later call gives that stored queue and changes
    nothing; the queues of other names are not touched.  A queue that is
    created while the server is started is started at once.  An empty name
    fails the assertion, and for a name that the prototype chain of
    [_queues] resolves no queue is ever created. *)
Theorem getQueue_creates_once (name : string) (s : server) :
  name <> EmptyString ->
  (on_prototype name = false ->
   exists p s1,
     getQueue config on_prototype name s = inr (a_queue p, s1)
     /\ own (_queues s1) name = Some p
     /\ getQueue config on_prototype name s1 = inr (a_queue p, s1)
     /\ started s1 = started s
     /\ notified s1 = notified s
     /\ (forall other, other <> name ->
                       own (_queues s1) other = own (_queues s) other)
     /\ (forall p0, own (_queues s) name = Some p0 -> p = p0 /\ s1 = s)
     /\ (own (_queues s) name = None ->
         p = (if started s then Pool.start (new_Queue config name)
              else new_Queue config name)
         /\ _processing (queue (core p)) = started s))
  /\ (on_prototype name = true ->
      own (_queues s) name = None ->
      getQueue config on_prototype name s = inr (inherited, s))
  /\ getQueue config on_prototype EmptyString s
     = inl (AssertionError "Missing queue name").
Proof.
  intros Hname.
  assert (Hnonempty : String.eqb name EmptyString = false).
  { now destruct (String.eqb_spec name EmptyString). }
  split; [| split; [| reflexivity]].
  - intros Hproto. unfold getQueue, get. rewrite Hnonempty, Hproto.
    destruct (own (_queues s) name) as [p0|] eqn:Hown.
    + exists p0, s. rewrite Hown. repeat split; try reflexivity; congruence.
    + eexists. eexists. split; [reflexivity |].
      cbn [_queues started notified]. rewrite own_snoc, Hown, String.eqb_refl.
      split; [reflexivity |]. split; [reflexivity |].
      split; [reflexivity |]. split; [reflexivity |].
      split; [| split; [discriminate |]].
      * intros other Hne. rewrite own_snoc.
        destruct (own (_queues s) other); [reflexivity |].
        now destruct (String.eqb_spec name other) as [->|_].
      * intros _. split; [reflexivity |].
        destruct (started s); [apply start_sets_processing | reflexivity].
  - intros Hproto Hown. unfold getQueue, get. now rewrite Hnonempty, Hown, Hproto.
Qed.

(** Every queue of the server is processing exactly when the server is
    started. *)
Definition in_step (s : server) : Prop :=
  forall name p, own (_queues s) name = Some p ->
                 _processing (queue (core p)) = started s.

Lemma in_step_step (c : call) (s : server) :
  in_step s -> in_step (step config on_prototype c s).
Proof.
  intros H. destruct c as [name| | |name handler wd]; cbn [step].
  - unfold getQueue, get. destruct (String.eqb name EmptyString); [exact H |].
    destruct (own (_queues s) name) as [p0|] eqn:Hown; [exact H |].
    destruct (on_prototype name); [exact H |].
    intros other p. cbn [_queues started]. rewrite own_snoc.
    destruct (own (_queues s) other) as [q|] eqn:Hother.
    + intros [= <-]. now apply (H other).
    + destruct (String.eqb name other); [| discriminate]. intros [= <-].
      destruct (started s); [apply start_sets_processing | reflexivity].
  - intros name p. cbn [start _queues started]. rewrite own_map.
    destruct (own (_queues s) name) as [q|]; [| discriminate].
    cbn. intros [= <-]. apply start_sets_processing.
  - intros name p. cbn [stop _queues started]. rewrite own_map.
    destruct (own (_queues s) name) as [q|]; [| discriminate].
    cbn. intros [= <-]. unfold Pool.stop. cbn [core with_core].
    unfold Queue.stop. now destruct (end_sessions _).
  - intros other p. cbn [each _queues started]. rewrite own_update.
    destruct (String.eqb name other); [| apply H].
    destruct (own (_queues s) other) as [q|] eqn:Hother; [| discriminate].
    cbn. intros [= <-].
    destruct (Pool.each handler wd q) as [e|q'] eqn:Heach; [now apply (H other) |].
    rewrite (each_keeps_processing handler wd q q' Heach). now apply (H other).
Qed.

(** X19.  Whatever the calls of [getQueue], [start], [stop] and [each] on
    a new server, its queues are processing exactly when the server is
    started: [start] and [stop] reach every queue there is, and a queue
    that is added after [start] is started as it is created. *)
Theorem queues_follow_the_server (calls : list call) (name : string) (p : pool) :
  let s := run config on_prototype calls new_Server in
  own (_queues s) name = Some p ->
  _processing (queue (core p)) = started s.
Proof.
  intros s. subst s. revert name p.
  change (in_step (run config on_prototype calls new_Server)).
  induction calls as [|c calls IH] using rev_ind.
  - intros name p H. discriminate.
  - unfold run in *. rewrite fold_left_app. cbn [fold_left]. now apply in_step_step.
Qed.

End WithSettings.

Definition test_settings : settings :=
  {| prefixedName := fun name => "test-" +:+ name; authenticate := None;
     width := None; env := Some "test" |}.

(** [toString], one of the names that [Object.prototype] resolves. *)
Definition is_toString (name : string) : bool := String.eqb name "toString".

Lemma getQueue_creates_once_witness :
  (exists p s1,
      getQueue (J := CompactJSON.json) test_settings is_toString "mail"
        (start (J := CompactJSON.json) new_Server)
      = inr (a_queue p, s1)
      /\ own (_queues s1) "mail" = Some p
      /\ getQueue (J := CompactJSON.json) test_settings is_toString "mail" s1
         = inr (a_queue p, s1)
      /\ _processing (queue (core p)) = true)
  /\ getQueue (J := CompactJSON.json) test_settings is_toString "toString" new_Server
     = inr (inherited, new_Server).
Proof.
  split.
  - destruct (getQueue_creates_once (J := CompactJSON.json) test_settings is_toString
                "mail" (start (J := CompactJSON.json) new_Server)
                ltac:(discriminate))
      as (Hcreates & _).
    destruct (Hcreates eq_refl)
      as (p & s1 & Hfirst & Hstored & Hsecond & _ & _ & _ & _ & Hnew).
    exists p, s1. split; [exact Hfirst |]. split; [exact Hstored |].
    split; [exact Hsecond |]. exact (proj2 (Hnew eq_refl)).
  - destruct (getQueue_creates_once (J := CompactJSON.json) test_settings is_toString
                "toString" new_Server ltac:(discriminate))
      as (_ & Hinherited & _).
    exact (Hinherited eq_refl eq_refl).
Defined.

Lemma queues_follow_the_server_witness :
  _processing
    (queue (core (Pool.start (J := CompactJSON.json) (new_Queue test_settings "mail"))))
  = true.
Proof.
  exact (queues_follow_the_server (J := CompactJSON.json) test_settings is_toString
           [call_start; call_getQueue "mail"] "mail"
           (Pool.start (J := CompactJSON.json) (new_Queue test_settings "mail"))
           eq_refl).
Defined.

End ServerFacts.
